(** * WealthWise personal finance: ingestion and deduplication pipeline

    A shallow embedding of [database.py] ([FinanceDatabase]) and of the
    ingestion part of [main.py] ([load_transactions],
    [categorize_transactions]), followed by the properties of the
    transaction store and of the CSV normalizer.

    Conventions of the embedding:
    - a Python [str] is the list of its code points ([list N]);
    - a Python [float] is an IEEE 754 binary64 value, as [spec_float];
    - an exception is a value of [exn]; a call that may raise returns
      [result];
    - the [transactions] table is the list of its rows in rowid order;
    - [print] and the Streamlit widgets produce no value and are left out. *)

From Stdlib Require Import List NArith ZArith Bool Lia Ascii String.
From Stdlib Require Import Permutation Sorted DecimalN DecimalPos.
From Stdlib Require Import Floats.SpecFloat.
Import ListNotations.

Set Implicit Arguments.

(* ================================================================== *)
(** * Text *)
(* ================================================================== *)

Module Str.

(** A [str] is a sequence of Unicode code points. *)
Definition str := list N.

(** An ASCII literal, one code point per character. *)
Definition lit (s : string) : str :=
  map N_of_ascii (list_ascii_of_string s).

Definition eqb (a b : str) : bool :=
  if list_eq_dec N.eq_dec a b then true else false.

(** [str.isspace] on one character: the white-space table of CPython
    ([_PyUnicode_IsWhitespace]). *)
Definition isspace (c : N) : bool :=
  ((9 <=? c) && (c <=? 13) || (28 <=? c) && (c <=? 32)
   || (c =? 133) || (c =? 160) || (c =? 5760)
   || (8192 <=? c) && (c <=? 8202)
   || (c =? 8232) || (c =? 8233) || (c =? 8239) || (c =? 8287)
   || (c =? 12288))%N.

Fixpoint lstrip (s : str) : str :=
  match s with
  | c :: s' => if isspace c then lstrip s' else s
  | [] => []
  end.

Definition rstrip (s : str) : str := rev (lstrip (rev s)).

(** [s.strip()] *)
Definition strip (s : str) : str := rstrip (lstrip s).

(** [s.replace(old, new)] for a one-character [old]. *)
Definition replace (old : N) (new : str) (s : str) : str :=
  flat_map (fun c => if (c =? old)%N then new else [c]) s.

Fixpoint startswith (p s : str) : bool :=
  match p, s with
  | [], _ => true
  | _ :: _, [] => false
  | a :: p', b :: s' => (a =? b)%N && startswith p' s'
  end.

(** [p in s] *)
Fixpoint contains (p s : str) : bool :=
  startswith p s ||
  match s with
  | [] => false
  | _ :: s' => contains p s'
  end.

(** [str.lower] on ASCII text.  The Unicode case table is not part of
    this development: the categorizer below takes [lower] as a
    parameter, and this instance serves the examples, whose text is
    ASCII. *)
Definition lower_char (c : N) : N :=
  if ((65 <=? c) && (c <=? 90))%N then (c + 32)%N else c.

Definition ascii_lower (s : str) : str := map lower_char s.

Definition isdigit (c : N) : bool := ((48 <=? c) && (c <=? 57))%N.

Fixpoint uint_codes (d : Decimal.uint) : str :=
  match d with
  | Decimal.Nil => []
  | Decimal.D0 d => 48%N :: uint_codes d
  | Decimal.D1 d => 49%N :: uint_codes d
  | Decimal.D2 d => 50%N :: uint_codes d
  | Decimal.D3 d => 51%N :: uint_codes d
  | Decimal.D4 d => 52%N :: uint_codes d
  | Decimal.D5 d => 53%N :: uint_codes d
  | Decimal.D6 d => 54%N :: uint_codes d
  | Decimal.D7 d => 55%N :: uint_codes d
  | Decimal.D8 d => 56%N :: uint_codes d
  | Decimal.D9 d => 57%N :: uint_codes d
  end.

(** Decimal digits of a natural number, without leading zeros
    ([str(n)] for a non-negative [int]). *)
Definition of_N (n : N) : str := uint_codes (N.to_uint n).

(** Value of a digit string read in base ten, most significant first. *)
Definition digits_value (s : str) : N :=
  fold_left (fun acc c => (10 * acc + (c - 48))%N) s 0%N.

(** [n] zero-padded on the left to at least [w] characters ([%0wd]). *)
Definition zfill (w : nat) (s : str) : str :=
  repeat 48%N (w - List.length s) ++ s.

End Str.

Import Str.

Definition pipe : N := 124.
Definition dot : N := 46.
Definition comma : N := 44.
Definition minus : N := 45.
Definition plus : N := 43.
Definition slash : N := 47.
Definition underscore : N := 95.
(** U+20AC, the euro sign. *)
Definition euro : N := 8364.

(* ================================================================== *)
(** * Floating-point amounts *)
(* ================================================================== *)

Module Float.

(** Python's [float]: binary64. *)
Definition float := spec_float.
Definition prec : Z := 53.
Definition emax : Z := 1024.

Definition zero : float := S754_zero false.
Definition nan : float := S754_nan.

(** [abs(x)] *)
Definition abs (x : float) : float := SFabs x.

(** [x < y] *)
Definition ltb (x y : float) : bool := SFltb x y.

Definition is_nan (x : float) : bool :=
  match x with S754_nan => true | _ => false end.

Definition is_finite (x : float) : bool :=
  match x with S754_zero _ | S754_finite _ _ _ => true | _ => false end.

Definition signbit (x : float) : bool :=
  match x with
  | S754_zero s | S754_infinity s | S754_finite s _ _ => s
  | S754_nan => false
  end.

(** The integer nearest to [m * 2^e * 100], ties to the even one: the
    number of hundredths that [format(x, '.2f')] prints for
    [x = m * 2^e] (the conversion is correctly rounded). *)
Definition hundredths (m : positive) (e : Z) : N :=
  let n := (100 * Npos m)%N in
  match e with
  | Z0 => n
  | Zpos p => (n * 2 ^ Npos p)%N
  | Zneg p =>
      let d := (2 ^ Npos p)%N in
      let q := (n / d)%N in
      let r := (n mod d)%N in
      match (2 * r ?= d)%N with
      | Lt => q
      | Gt => (q + 1)%N
      | Eq => if N.even q then q else (q + 1)%N
      end
  end.

(** Hundredths of the magnitude of a finite value. *)
Definition cents (x : float) : N :=
  match x with
  | S754_finite _ m e => hundredths m e
  | _ => 0%N
  end.

(** A count of hundredths printed with two decimals. *)
Definition fixed2 (c : N) : str :=
  of_N (c / 100) ++ [dot] ++ zfill 2 (of_N (c mod 100)).

Definition sign_prefix (s : bool) : str := if s then [minus] else [].

(** [format(x, '.2f')] *)
Definition format_2f (x : float) : str :=
  match x with
  | S754_nan => lit "nan"
  | S754_infinity s => sign_prefix s ++ lit "inf"
  | S754_zero s => sign_prefix s ++ lit "0.00"
  | S754_finite s m e => sign_prefix s ++ fixed2 (hundredths m e)
  end.

(** The binary64 value nearest to [n * 10^e], ties to even, with sign
    [s] (what [strtod] returns for the decimal numeral). *)
Definition of_decimal (s : bool) (n : N) (e : Z) : float :=
  match n with
  | N0 => S754_zero s
  | Npos p =>
      match e with
      | Zneg k =>
          SFdiv prec emax (S754_finite s p 0)
                (S754_finite false (Pos.pow 10 k) 0)
      | _ => binary_normalize prec emax
               (cond_Zopp s (Zpos p * 10 ^ e)) 0 s
      end
  end.

End Float.

Import Float.

(* ================================================================== *)
(** * [float(s)]: text to binary64 *)
(* ================================================================== *)

Module FloatParse.

(** The code points of the digit zero in the scripts that have decimal
    digits outside ASCII (Unicode 14.0, the table of CPython 3.11); the
    nine code points after each are the digits one to nine. *)
Definition decimal_zeros : list N :=
  [1632; 1776; 1984; 2406; 2534; 2662; 2790; 2918; 3046; 3174; 3302;
   3430; 3558; 3664; 3792; 3872; 4160; 4240; 6112; 6160; 6470; 6608;
   6784; 6800; 6992; 7088; 7232; 7248; 42528; 43216; 43264; 43472;
   43504; 43600; 44016; 65296; 66720; 68912; 69734; 69872; 69942;
   70096; 70384; 70736; 70864; 71248; 71360; 71472; 71904; 72016;
   72784; 73040; 73120; 92768; 92864; 93008; 120782; 120792; 120802;
   120812; 120822; 123200; 123632; 125264; 130032]%N.

(** [Py_UNICODE_TODECIMAL] outside ASCII. *)
Definition decimal (c : N) : option N :=
  match find (fun z => (z <=? c) && (c <? z + 10))%N decimal_zeros with
  | Some z => Some (c - z)%N
  | None => None
  end.

(** What [float] first does to its text, character by character: an
    ASCII character stays, another white space becomes a blank, another
    decimal digit becomes the ASCII digit of its value, and anything
    else becomes a question mark, which no number contains. *)
Definition to_ascii (c : N) : N :=
  if (c <? 128)%N then c
  else if isspace c then 32%N
  else match decimal c with
       | Some d => (48 + d)%N
       | None => 63%N
       end.

(** White space that [float] strips at both ends: [str.isspace] except
    the four ASCII separators U+001C..U+001F. *)
Definition float_space (c : N) : bool :=
  isspace c && negb ((28 <=? c) && (c <=? 31))%N.

Fixpoint lstrip_by (f : N -> bool) (s : str) : str :=
  match s with
  | c :: s' => if f c then lstrip_by f s' else s
  | [] => []
  end.

Definition strip_by (f : N -> bool) (s : str) : str :=
  rev (lstrip_by f (rev (lstrip_by f s))).

(** Digit separators: an underscore is accepted only between two
    digits; [prev] is the character before [s]. *)
Fixpoint drop_underscores (prev : N) (s : str) : option str :=
  match s with
  | [] => if (prev =? underscore)%N then None else Some []
  | c :: s' =>
      if (c =? underscore)%N then
        if isdigit prev then drop_underscores c s' else None
      else if (prev =? underscore)%N && negb (isdigit c) then None
      else option_map (cons c) (drop_underscores c s')
  end.

Fixpoint take_digits (s : str) : str * str :=
  match s with
  | c :: s' =>
      if isdigit c then let (d, r) := take_digits s' in (c :: d, r)
      else ([], s)
  | [] => ([], [])
  end.

Definition parse_sign (s : str) : bool * str :=
  match s with
  | c :: s' =>
      if (c =? minus)%N then (true, s')
      else if (c =? plus)%N then (false, s')
      else (false, s)
  | [] => (false, [])
  end.

(** The exponent part, which must reach the end of the text. *)
Definition parse_exponent (s : str) : option Z :=
  match s with
  | [] => Some 0%Z
  | c :: s' =>
      if ((c =? 101) || (c =? 69))%N then
        let (neg, r) := parse_sign s' in
        match take_digits r with
        | ((_ :: _) as ds, []) =>
            let v := Z.of_N (digits_value ds) in
            Some (if neg then (- v)%Z else v)
        | _ => None
        end
      else None
  end.

(** A decimal numeral: digits, optional point and digits (one digit at
    least), optional exponent. *)
Definition parse_numeral (neg : bool) (s : str) : option float :=
  let (ip, r1) := take_digits s in
  let (fp, r2) :=
    match r1 with
    | c :: r => if (c =? dot)%N then take_digits r else ([], r1)
    | [] => ([], [])
    end in
  match ip ++ fp with
  | [] => None
  | ds =>
      match parse_exponent r2 with
      | Some ex =>
          Some (of_decimal neg (digits_value ds)
                           (ex - Z.of_nat (List.length fp)))
      | None => None
      end
  end.

(** [float(s)] for a [str]; [None] is [ValueError]. *)
Definition float_of_str (s : str) : option float :=
  match drop_underscores 0%N (strip_by float_space (map to_ascii s)) with
  | None => None
  | Some t =>
      let (neg, body) := parse_sign t in
      let low := ascii_lower body in
      if eqb low (lit "inf") || eqb low (lit "infinity")
      then Some (S754_infinity neg)
      else if eqb low (lit "nan") then Some S754_nan
      else parse_numeral neg body
  end.

End FloatParse.

Import FloatParse.

(* ================================================================== *)
(** * [s.encode('utf-8')] *)
(* ================================================================== *)

Module Utf8.
Local Open Scope N_scope.

(** One code point as UTF-8 bytes; a surrogate or a value past U+10FFFF
    has no encoding ([UnicodeEncodeError]). *)
Definition encode_char (c : N) : option (list N) :=
  if c <? 128 then Some [c]
  else if c <? 2048 then Some [192 + c / 64; 128 + c mod 64]
  else if c <? 65536 then
    if (55296 <=? c) && (c <=? 57343) then None
    else Some [224 + c / 4096; 128 + (c / 64) mod 64; 128 + c mod 64]
  else if c <? 1114112 then
    Some [240 + c / 262144; 128 + (c / 4096) mod 64;
          128 + (c / 64) mod 64; 128 + c mod 64]
  else None.

Fixpoint encode (s : str) : option (list N) :=
  match s with
  | [] => Some []
  | c :: s' =>
      match encode_char c, encode s' with
      | Some b, Some bs => Some (b ++ bs)
      | _, _ => None
      end
  end.

End Utf8.

(* ================================================================== *)
(** * [hashlib.sha256] (FIPS 180-4) *)
(* ================================================================== *)

Module Sha256.
Local Open Scope N_scope.

Definition mask32 : N := 4294967295.

(** Words are 32 bits wide; sums wrap around. *)
Definition wrap (x : N) : N := N.land x mask32.
Definition add32 (x y : N) : N := wrap (x + y).
Definition rotr (n x : N) : N :=
  N.lor (N.shiftr x n) (wrap (N.shiftl x (32 - n))).
Definition shr (n x : N) : N := N.shiftr x n.

Definition Ch (x y z : N) : N :=
  N.lxor (N.land x y) (N.land (N.lxor x mask32) z).
Definition Maj (x y z : N) : N :=
  N.lxor (N.lxor (N.land x y) (N.land x z)) (N.land y z).
Definition bsig0 (x : N) : N :=
  N.lxor (N.lxor (rotr 2 x) (rotr 13 x)) (rotr 22 x).
Definition bsig1 (x : N) : N :=
  N.lxor (N.lxor (rotr 6 x) (rotr 11 x)) (rotr 25 x).
Definition ssig0 (x : N) : N :=
  N.lxor (N.lxor (rotr 7 x) (rotr 18 x)) (shr 3 x).
Definition ssig1 (x : N) : N :=
  N.lxor (N.lxor (rotr 17 x) (rotr 19 x)) (shr 10 x).

(** The first 64 primes. *)
Definition primes : list N :=
  [2; 3; 5; 7; 11; 13; 17; 19; 23; 29; 31; 37; 41; 43; 47; 53;
   59; 61; 67; 71; 73; 79; 83; 89; 97; 101; 103; 107; 109; 113; 127; 131;
   137; 139; 149; 151; 157; 163; 167; 173; 179; 181; 191; 193; 197; 199;
   211; 223; 227; 229; 233; 239; 241; 251; 257; 263; 269; 271; 277; 281;
   283; 293; 307; 311].

(** The integer cube root of a number below [2^108], bit by bit from
    the top. *)
Definition cube_root (n : N) : N :=
  fold_left (fun r b =>
               let r' := r + 2 ^ N.of_nat b in
               if r' * r' * r' <=? n then r' else r)
            (rev (seq 0 36)) 0.

(** The round constants: the first 32 bits of the fractional parts of
    the cube roots of the first 64 primes. *)
Definition K : list N :=
  Eval vm_compute in
    map (fun p => cube_root (p * 2 ^ 96) mod 2 ^ 32) primes.

(** The eight working registers, also the intermediate hash value. *)
Record regs : Type := Regs {
  ra : N; rb : N; rc : N; rd : N; re : N; rf : N; rg : N; rh : N
}.

(** The initial hash value: the first 32 bits of the fractional parts of
    the square roots of the first 8 primes. *)
Definition H0 : regs :=
  Eval vm_compute in
    let h := fun p => N.sqrt (p * 2 ^ 64) mod 2 ^ 32 in
    Regs (h 2) (h 3) (h 5) (h 7) (h 11) (h 13) (h 17) (h 19).

(** One of the 64 rounds, with constant [k] and schedule word [w]. *)
Definition round (r : regs) (k w : N) : regs :=
  let t1 :=
    add32 (add32 (add32 (add32 (rh r) (bsig1 (re r)))
                        (Ch (re r) (rf r) (rg r))) k) w in
  let t2 := add32 (bsig0 (ra r)) (Maj (ra r) (rb r) (rc r)) in
  Regs (add32 t1 t2) (ra r) (rb r) (rc r)
       (add32 (rd r) t1) (re r) (rf r) (rg r).

(** Message schedule, kept most recent word first. *)
Fixpoint extend (n : nat) (rw : list N) : list N :=
  match n with
  | O => rw
  | S n' =>
      extend n'
        (add32 (add32 (add32 (ssig1 (nth 1 rw 0)) (nth 6 rw 0))
                      (ssig0 (nth 14 rw 0))) (nth 15 rw 0) :: rw)
  end.

Definition schedule (block : list N) : list N :=
  rev (extend 48 (rev block)).

(** The compression function on one block of 16 words; every register
    of the result is a wrapped sum. *)
Definition compress (h : regs) (block : list N) : regs :=
  let r := fold_left (fun r kw => round r (fst kw) (snd kw))
                     (combine K (schedule block)) h in
  Regs (add32 (ra h) (ra r)) (add32 (rb h) (rb r))
       (add32 (rc h) (rc r)) (add32 (rd h) (rd r))
       (add32 (re h) (re r)) (add32 (rf h) (rf r))
       (add32 (rg h) (rg r)) (add32 (rh h) (rh r)).

(** Big-endian bytes of [x], [n] of them. *)
Fixpoint be_bytes (n : nat) (x : N) : list N :=
  match n with
  | O => []
  | S n' => (N.shiftr x (8 * N.of_nat n')) mod 256 :: be_bytes n' x
  end.

(** Padding: a [0x80] byte, zeros up to 56 modulo 64, the bit length on
    eight bytes. *)
Definition pad (msg : list N) : list N :=
  let l := N.of_nat (List.length msg) in
  msg ++ [128] ++ repeat 0 (N.to_nat ((119 - l mod 64) mod 64))
      ++ be_bytes 8 (8 * l).

Fixpoint words (bs : list N) : list N :=
  match bs with
  | b0 :: b1 :: b2 :: b3 :: r =>
      (b0 * 16777216 + b1 * 65536 + b2 * 256 + b3) :: words r
  | _ => []
  end.

Fixpoint blocks (n : nat) (ws : list N) : list (list N) :=
  match n with
  | O => []
  | S n' => firstn 16 ws :: blocks n' (skipn 16 ws)
  end.

(** The hash state after the whole padded message. *)
Definition sha256 (msg : list N) : regs :=
  let ws := words (pad msg) in
  fold_left compress (blocks (List.length ws / 16) ws) H0.

Definition hexdigit (d : N) : N := if d <? 10 then 48 + d else 87 + d.

(** Eight lowercase hexadecimal digits of a 32-bit word. *)
Definition hex_word (w : N) : str :=
  map (fun i => hexdigit ((N.shiftr w (4 * i)) mod 16))
      [7; 6; 5; 4; 3; 2; 1; 0].

(** [.hexdigest()] *)
Definition hexdigest (r : regs) : str :=
  hex_word (ra r) ++ hex_word (rb r) ++ hex_word (rc r)
  ++ hex_word (rd r) ++ hex_word (re r) ++ hex_word (rf r)
  ++ hex_word (rg r) ++ hex_word (rh r).

End Sha256.

(* ================================================================== *)
(** * Exceptions *)
(* ================================================================== *)

Inductive exn : Type :=
| ValueError
| AttributeError
| TypeError
| UnicodeEncodeError.

Inductive result (A : Type) : Type :=
| Ok (a : A)
| Raise (e : exn).

Arguments Ok {A} a.
Arguments Raise {A} e.

Definition bind {A B : Type} (r : result A) (k : A -> result B) : result B :=
  match r with
  | Ok a => k a
  | Raise e => Raise e
  end.

Notation "x <- r ;; k" := (bind r (fun x => k))
  (at level 61, r at next level, right associativity).

Fixpoint mapM {A B : Type} (f : A -> result B) (l : list A)
  : result (list B) :=
  match l with
  | [] => Ok []
  | a :: l' => b <- f a ;; bs <- mapM f l' ;; Ok (b :: bs)
  end.

(* ================================================================== *)
(** * Dates *)
(* ================================================================== *)

Module Date.

(** A calendar date, the value of a pandas [Timestamp] at midnight. *)
Record date : Type := Date { year : N; month : N; day : N }.

(** A cell of a [datetime64] column: a [Timestamp] or [NaT]. *)
Inductive timestamp : Type :=
| NaT
| Timestamp (d : date).

Definition is_leap (y : N) : bool :=
  ((y mod 4 =? 0) && (negb (y mod 100 =? 0) || (y mod 400 =? 0)))%N.

Definition days_in_month (y m : N) : N :=
  (if m =? 2 then (if is_leap y then 29 else 28)
   else if (m =? 4) || (m =? 6) || (m =? 9) || (m =? 11) then 30
   else 31)%N.

(** A date of the calendar with a four-digit year; every [Timestamp]
    is one (its years run from 1677 to 2262). *)
Definition valid (d : date) : Prop :=
  (1000 <= year d <= 9999 /\ 1 <= month d <= 12
   /\ 1 <= day d <= days_in_month (year d) (month d))%N.

(** [d.strftime('%Y-%m-%d')] *)
Definition strftime_ymd (d : date) : str :=
  zfill 4 (of_N (year d)) ++ [minus] ++ zfill 2 (of_N (month d))
  ++ [minus] ++ zfill 2 (of_N (day d)).

(** [t.strftime('%Y-%m-%d')]; [NaT] has no [strftime]. *)
Definition strftime (t : timestamp) : result str :=
  match t with
  | NaT => Raise ValueError
  | Timestamp d => Ok (strftime_ymd d)
  end.

(** [t.strftime('%d/%m/%Y')] *)
Definition strftime_dmy (t : timestamp) : result str :=
  match t with
  | NaT => Raise ValueError
  | Timestamp d =>
      Ok (zfill 2 (of_N (day d)) ++ [slash] ++ zfill 2 (of_N (month d))
          ++ [slash] ++ zfill 4 (of_N (year d)))
  end.

(** Chronological order. *)
Definition compare (a b : date) : comparison :=
  match (year a ?= year b)%N with
  | Eq => match (month a ?= month b)%N with
          | Eq => (day a ?= day b)%N
          | c => c
          end
  | c => c
  end.

Definition le (a b : date) : Prop := compare a b <> Gt.

End Date.

Import Date.

(* ================================================================== *)
(** * The transaction store ([database.py]) *)
(* ================================================================== *)

(** A row of the DataFrame handed to the store.  [Concepto] is a cell of
    an object column: a [str], or the missing value [NaN] (a float) that
    [read_csv] leaves for an empty cell, here [None]. *)
Record row : Type := Row {
  Fecha_valor : timestamp;
  Concepto : option str;
  Importe : float;
  Tipo : str;
  Category : str
}.

(** A row of the [transactions] table.  The two timestamp columns hold
    the value of [CURRENT_TIMESTAMP], here a number. *)
Record transaction : Type := Transaction {
  id : Z;
  transaction_hash : str;
  fecha_valor : str;
  concepto : str;
  importe : float;
  tipo : str;
  category : str;
  upload_date : Z;
  last_modified : Z
}.

(** The table, in rowid order. *)
Definition table := list transaction.

Module FinanceDatabase.

(** The text that is hashed, [normalized_data]:
    [f"{fecha_valor}|{concepto.strip()}|{abs(importe):.2f}"]. *)
Definition normalized_data
           (fecha_valor : str) (concepto : str) (importe : float) : str :=
  fecha_valor ++ [pipe] ++ strip concepto ++ [pipe]
              ++ format_2f (Float.abs importe).

(** [hashlib.sha256(s.encode('utf-8')).hexdigest()] *)
Definition sha256_hex (s : str) : result str :=
  match Utf8.encode s with
  | Some bytes => Ok (Sha256.hexdigest (Sha256.sha256 bytes))
  | None => Raise UnicodeEncodeError
  end.

(** [generate_transaction_hash(fecha_valor, concepto, importe)] *)
Definition generate_transaction_hash
           (fecha_valor : str) (concepto : str) (importe : float)
  : result str :=
  sha256_hex (normalized_data fecha_valor concepto importe).

(** [transaction_exists(transaction_hash)] *)
Definition transaction_exists (db : table) (h : str) : bool :=
  existsb (fun t => Str.eqb (transaction_hash t) h) db.

(** The largest rowid of the table. *)
Definition max_id (db : table) : Z :=
  fold_right (fun t m => Z.max (id t) m) 0%Z db.

(** The rowid an [INSERT] takes from the [AUTOINCREMENT] key: one past
    the largest rowid ever given, which the [sqlite_sequence] table
    keeps for [transactions] (here [seq]), and past the largest rowid
    of the table. *)
Definition next_id (seq : Z) (db : table) : Z :=
  (Z.max seq (max_id db) + 1)%Z.

(** [INSERT OR IGNORE INTO transactions ...] at time [now]: the table
    and the sequence afterwards, and the number of rows written
    ([cursor.rowcount]).  The row is ignored when the [UNIQUE] hash is
    taken, and when the amount is NaN, which SQLite binds as NULL into
    a [NOT NULL] column.  The rowid is taken before the constraints are
    checked, so an ignored row uses one up as well. *)
Definition insert_or_ignore (now : Z) (seq : Z) (db : table)
           (h fecha c : str) (imp : float) (tp cat : str)
  : table * Z * nat :=
  let rowid := next_id seq db in
  if is_nan imp || transaction_exists db h then (db, rowid, 0)
  else (db ++ [Transaction rowid h fecha c imp tp cat now now], rowid, 1).

(** The body of the [try] for one row. *)
Definition try_insert (now : Z) (seq : Z) (db : table) (r : row)
  : result (table * Z * nat) :=
  f <- strftime (Fecha_valor r) ;;
  match Concepto r with
  | None => Raise AttributeError
  | Some c =>
      h <- generate_transaction_hash f c (Importe r) ;;
      Ok (insert_or_ignore now seq db h f c (Importe r) (Tipo r)
                           (Category r))
  end.

(** The [except] handler prints [row['Concepto'][:50]], which raises
    in turn when the description is not text. *)
Definition handler (r : row) : result unit :=
  match Concepto r with
  | Some _ => Ok tt
  | None => Raise TypeError
  end.

(** The [for] loop; statement number [i] runs at time [clock i], and
    [seq] is the entry of [sqlite_sequence]. *)
Fixpoint insert_loop (clock : nat -> Z) (i : nat) (seq : Z) (db : table)
         (new_count duplicate_count : nat) (df : list row)
  : result (table * Z * (nat * nat)) :=
  match df with
  | [] => Ok (db, seq, (new_count, duplicate_count))
  | r :: df' =>
      match try_insert (clock i) seq db r with
      | Ok (db', seq', rowcount) =>
          if (0 <? rowcount)%nat
          then insert_loop clock (S i) seq' db' (S new_count)
                           duplicate_count df'
          else insert_loop clock (S i) seq' db' new_count
                           (S duplicate_count) df'
      | Raise _ =>
          _ <- handler r ;;
          insert_loop clock (S i) seq db new_count (S duplicate_count) df'
      end
  end.

(** [insert_transactions(df)] on the table [db] with the sequence at
    [seq]: the table after the call and the pair returned.  An
    exception that leaves the loop leaves the [with] block too, which
    rolls the connection back. *)
Definition insert_transactions (clock : nat -> Z) (seq : Z) (db : table)
           (df : list row) : table * result (nat * nat) :=
  match insert_loop clock 0 seq db 0 0 df with
  | Ok (db', _, counts) => (db', Ok counts)
  | Raise e => (db, Raise e)
  end.

(** The entry of [sqlite_sequence] after the same call; the rollback
    restores it with the table. *)
Definition sequence_after_insert (clock : nat -> Z) (seq : Z) (db : table)
           (df : list row) : Z :=
  match insert_loop clock 0 seq db 0 0 df with
  | Ok (_, seq', _) => seq'
  | Raise _ => seq
  end.

(** SQLite's order on TEXT values (BINARY collation): [memcmp] on the
    UTF-8 bytes, which is the lexicographic order of the code points. *)
Fixpoint text_compare (a b : str) : comparison :=
  match a, b with
  | [], [] => Eq
  | [], _ :: _ => Lt
  | _ :: _, [] => Gt
  | x :: a', y :: b' =>
      match (x ?= y)%N with
      | Eq => text_compare a' b'
      | c => c
      end
  end.

Definition text_ge (a b : str) : Prop := text_compare a b <> Lt.

(** [load_all_transactions()]: the rows of
    [SELECT ... FROM transactions ORDER BY fecha_valor DESC].  The query
    names one sort key; SQL leaves the order of rows with equal keys to
    the engine, so the result is specified as a relation.  The columns
    are converted afterwards, which keeps the rows and their order. *)
Definition load_all_transactions (db : table) (rows : list transaction)
  : Prop :=
  Permutation db rows /\
  StronglySorted (fun a b => text_ge (fecha_valor a) (fecha_valor b)) rows.

Definition set_category (now : Z) (new_category : str) (t : transaction)
  : transaction :=
  Transaction (id t) (transaction_hash t) (fecha_valor t) (concepto t)
              (importe t) (tipo t) new_category (upload_date t) now.

(** [update_transaction_category(transaction_hash, new_category)]:
    [UPDATE ... WHERE transaction_hash = ?] at time [now]. *)
Definition update_transaction_category (now : Z) (db : table)
           (h new_category : str) : table :=
  map (fun t => if Str.eqb (transaction_hash t) h
                then set_category now new_category t else t) db.

(** [update_transactions_by_concept(concepto, new_category)]:
    [UPDATE ... WHERE concepto = ?] at time [now], with
    [cursor.rowcount]. *)
Definition update_transactions_by_concept (now : Z) (db : table)
           (c new_category : str) : table * nat :=
  (map (fun t => if Str.eqb (concepto t) c
                 then set_category now new_category t else t) db,
   List.length (filter (fun t => Str.eqb (concepto t) c) db)).

End FinanceDatabase.

Import FinanceDatabase.

(* ================================================================== *)
(** * The CSV normalizer and the keyword categorizer ([main.py]) *)
(* ================================================================== *)

Definition UNCATEGORIZED_CATEGORY : str := lit "Uncategorized".
Definition Debit : str := lit "Debit".
Definition Credit : str := lit "Credit".

(** The category registry, [st.session_state.categories]: a dict from
    category name to keyword list, in its iteration order. *)
Definition registry := list (str * list str).

(** A cell of the [Importe] column of the frame that [read_csv]
    returns: [NaN] for an empty cell, a [str], or a number.  The column
    holds numbers when [read_csv] could read every cell as one, and
    text otherwise; text and numbers meet in one column only when a
    large file is read in chunks. *)
Inductive amount_cell : Type :=
| Empty
| Text (s : str)
| Number (x : float).

(** A row of the frame that [read_csv] returns.  A cell of the two text
    columns is a [str], or missing ([None]) when it was empty. *)
Record csv_row : Type := CsvRow {
  csv_fecha : option str;
  csv_concepto : option str;
  csv_importe : amount_cell
}.

Definition uncategorized (r : row) : bool :=
  Str.eqb (Category r) UNCATEGORIZED_CATEGORY.

Definition with_category (c : str) (r : row) : row :=
  Row (Fecha_valor r) (Concepto r) (Importe r) (Tipo r) c.

Section Ingestion.

(** [str.lower], whose Unicode case table lies outside this
    repository. *)
Variable lower : str -> str.

(** [pd.to_datetime(s, format='%d/%m/%Y')] on one text cell: a
    [Timestamp], [NaT], or [ValueError] when [s] does not match. *)
Variable to_datetime : str -> result timestamp.

(** [any(keyword in details for keyword in lowered_keywords)] *)
Definition any_keyword_in (lowered_keywords : list str) (details : str)
  : bool :=
  existsb (fun keyword => contains keyword details) lowered_keywords.

(** The inner loop of [categorize_transactions]: one category over all
    rows.  [row['Concepto'].lower()] raises when the cell is missing. *)
Fixpoint categorize_rows (category : str) (lowered_keywords : list str)
         (df : list row) : result (list row) :=
  match df with
  | [] => Ok []
  | r :: df' =>
      match Concepto r with
      | None => Raise AttributeError
      | Some c =>
          let details := strip (lower c) in
          let r' := if any_keyword_in lowered_keywords details
                    then with_category category r else r in
          rest <- categorize_rows category lowered_keywords df' ;;
          Ok (r' :: rest)
      end
  end.

(** The outer loop, over the registry. *)
Fixpoint categorize_loop (categories : registry) (df : list row)
  : result (list row) :=
  match categories with
  | [] => Ok df
  | (category, keywords) :: rest =>
      if Str.eqb category UNCATEGORIZED_CATEGORY
         || match keywords with [] => true | _ => false end
      then categorize_loop rest df
      else
        let lowered_keywords :=
          map (fun keyword => strip (lower keyword)) keywords in
        df' <- categorize_rows category lowered_keywords df ;;
        categorize_loop rest df'
  end.

(** [categorize_transactions(df)] *)
Definition categorize_transactions (categories : registry)
           (df : list row) : result (list row) :=
  categorize_loop categories (map (with_category UNCATEGORIZED_CATEGORY) df).

(** The three replacements applied to the [Importe] column. *)
Definition clean_importe (s : str) : str :=
  replace euro [] (replace comma [dot] (replace dot [] s)).

(** The [.str] accessor is there for a column of text, and for an empty
    column; on a column without a single [str], which [read_csv] gives
    the type of its numbers, it raises [AttributeError]. *)
Definition is_text (cell : amount_cell) : bool :=
  match cell with Text _ => true | _ => false end.

Definition str_accessor (column : list amount_cell) : result unit :=
  match column with
  | [] => Ok tt
  | _ :: _ => if existsb is_text column then Ok tt else Raise AttributeError
  end.

(** The three [.str.replace] and [.astype(float)] on one cell: the
    replacements leave [NaN] where the cell is not a [str]. *)
Definition parse_importe (cell : amount_cell) : result float :=
  match cell with
  | Empty | Number _ => Ok nan
  | Text s =>
      match float_of_str (clean_importe s) with
      | Some x => Ok x
      | None => Raise ValueError
      end
  end.

(** [lambda x: 'Debit' if x < 0 else 'Credit'] *)
Definition tipo_of (x : float) : str :=
  if Float.ltb x zero then Debit else Credit.

Definition parse_fecha (cell : option str) : result timestamp :=
  match cell with
  | None => Ok NaT
  | Some s => to_datetime s
  end.

(** The frame after the column operations of [load_transactions], the
    date parsing included: each step runs over the whole column before
    the next one starts. *)
Definition normalize (csv : list csv_row) : result (list row) :=
  _ <- str_accessor (map csv_importe csv) ;;
  importes <- mapM (fun r => parse_importe (csv_importe r)) csv ;;
  fechas <- mapM (fun r => parse_fecha (csv_fecha r)) csv ;;
  Ok (map (fun '(r, x, t) =>
             Row t (csv_concepto r) (Float.abs x) (tipo_of x)
                 UNCATEGORIZED_CATEGORY)
          (combine (combine csv importes) fechas)).

(** [pd.to_datetime] on the date column of the table, as
    [load_all_transactions] calls it when the table is not empty: it
    reads the column ([true]) or raises. *)
Variable read_dates : list str -> bool.

Definition reload (db : table) : result unit :=
  match db with
  | [] => Ok tt
  | _ :: _ => if read_dates (map fecha_valor db) then Ok tt
              else Raise ValueError
  end.

(** The console listing of the uncategorized rows: for each row the
    description is cut at 70 characters and the date is printed with
    [strftime('%d/%m/%Y')], which [NaT] does not have. *)
Fixpoint list_uncategorized (rows : list row) : result unit :=
  match rows with
  | [] => Ok tt
  | r :: rows' =>
      _ <- match Concepto r with
           | Some _ => Ok tt
           | None => Raise TypeError
           end ;;
      _ <- strftime_dmy (Fecha_valor r) ;;
      list_uncategorized rows'
  end.

(** [load_transactions(file)] from the frame read on, with the
    "AI Categorize" button not pressed: the [transactions] table
    afterwards, and the value returned, which is the frame, here with
    the pair [(new_count, duplicate_count)] shown to the user, or
    [None] when an exception reached the outer [except].  The sequence
    of the table starts at [seq].  After the insertion the function
    reloads the table, shows the counts, syncs the registry to the
    [categories] table, which is not part of this state, and lists the
    uncategorized rows; an exception there comes after the commit. *)
Definition load_transactions (categories : registry) (clock : nat -> Z)
           (seq : Z) (db : table) (csv : list csv_row)
  : table * option (list row * (nat * nat)) :=
  match (df <- normalize csv ;; categorize_transactions categories df) with
  | Raise _ => (db, None)
  | Ok df =>
      match insert_transactions clock seq db df with
      | (db', Ok counts) =>
          match (_ <- reload db' ;;
                 list_uncategorized (filter uncategorized df)) with
          | Ok _ => (db', Some (df, counts))
          | Raise _ => (db', None)
          end
      | (db', Raise _) => (db', None)
      end
  end.

End Ingestion.

(* ================================================================== *)
(** * Notions used by the statements *)
(* ================================================================== *)

(** The hash column of the table. *)
Definition hashes (db : table) : list str := map transaction_hash db.

(** The content hash the store computes for a row of the frame. *)
Definition content_hash (r : row) : result str :=
  f <- strftime (Fecha_valor r) ;;
  match Concepto r with
  | None => Raise AttributeError
  | Some c => generate_transaction_hash f c (Importe r)
  end.

(** A record the store can take: it has a content hash and its amount is
    a number. *)
Definition well_formed (r : row) : Prop :=
  (exists h, content_hash r = Ok h) /\ is_nan (Importe r) = false.

(** The rows whose description is text. *)
Definition described (r : row) : Prop := Concepto r <> None.


(** [t'] is [t] with its category set to [c] and its modification time
    set to [now], every other column as it was. *)
Definition recategorized (now : Z) (c : str) (t t' : transaction) : Prop :=
  category t' = c /\ last_modified t' = now /\
  id t' = id t /\ transaction_hash t' = transaction_hash t /\
  fecha_valor t' = fecha_valor t /\ concepto t' = concepto t /\
  importe t' = importe t /\ tipo t' = tipo t /\
  upload_date t' = upload_date t.

Definition str_eq_dec : forall a b : str, {a = b} + {a <> b} :=
  list_eq_dec N.eq_dec.


(** Sample data for the closed statements. *)
Module Sample.

(** 12.5 and the binary64 value nearest to 1234.56. *)
Definition f12_50 : float := S754_finite false 7036874417766400 (-49).
Definition f1234_56 : float := S754_finite false 5429652300748554 (-42).

Definition coffee : row :=
  Row (Timestamp (Date 2024 1 15)) (Some (lit " CAFE CENTRAL "))
      f12_50 Debit UNCATEGORIZED_CATEGORY.

Definition rent : row :=
  Row (Timestamp (Date 2024 11 5)) (Some (lit "ALQUILER"))
      f1234_56 Debit UNCATEGORIZED_CATEGORY.

(** A row read from a CSV line whose description cell was empty. *)
Definition blank : row :=
  Row (Timestamp (Date 2024 1 15)) None f12_50 Debit
      UNCATEGORIZED_CATEGORY.

Definition coffee_hash : str :=
  lit "f343b700d7f87ce9fd69164d1cc98c0d477196675e5c13bfd597fb350c7c8ec4".
Definition rent_hash : str :=
  lit "128416f1d1cb7ab4c2592239c4a6220bf0ffedc043edb10df144adfd571a06c6".

(** The coffee purchase as stored by an earlier upload and filed under
    a category since. *)
Definition stored_coffee : transaction :=
  Transaction 1 coffee_hash (lit "2024-01-15") (lit " CAFE CENTRAL ")
              f12_50 Debit (lit "Restaurants") 100 250.

Definition noon : nat -> Z := fun _ => 1000%Z.

Definition new_year : date := Date 2024 1 1.

(** A registry in which two categories have a keyword for the same
    description. *)
Definition shops : registry :=
  [ (UNCATEGORIZED_CATEGORY, []);
    (lit "Food", [lit "MARKET"]);
    (lit "Shops", [lit "Super"]) ].

(** The rent as stored, and a second payment of the same day stored
    after it. *)
Definition stored_rent : transaction :=
  Transaction 2 rent_hash (lit "2024-11-05") (lit "ALQUILER")
              f1234_56 Debit UNCATEGORIZED_CATEGORY 100 100.

Definition stored_garage : transaction :=
  Transaction 3 (lit "00") (lit "2024-11-05") (lit "GARAJE")
              f12_50 Debit UNCATEGORIZED_CATEGORY 100 100.

(** Two lines of a statement, and a line whose amount is not a
    number. *)
Definition coffee_line : csv_row :=
  CsvRow (Some (lit "15/01/2024")) (Some (lit " CAFE CENTRAL "))
         (Text (lit "-12,50" ++ [euro])).

Definition rent_line : csv_row :=
  CsvRow (Some (lit "05/11/2024")) (Some (lit "ALQUILER"))
         (Text (lit "-1.234,56" ++ [euro])).


(** A row of the frame whose date cell was empty. *)
Definition undated : row :=
  Row NaT (Some (lit "PARKING")) f12_50 Debit UNCATEGORIZED_CATEGORY.

Definition supermarket : row :=
  Row (Timestamp (Date 2024 3 2)) (Some (lit "SuperMarket 24h"))
      f12_50 Debit UNCATEGORIZED_CATEGORY.

End Sample.


Section CategorizerNotions.

Variable lower : str -> str.

(** Some keyword of the list, lowercased and trimmed, occurs in the
    lowercased, trimmed description. *)
Definition keyword_hits (keywords : list str) (description : str) : Prop :=
  exists k before after,
    In k keywords /\
    strip (lower description) = before ++ strip (lower k) ++ after.

(** An entry of the registry that takes part in the matching and hits
    the description: its name is not the sentinel and it has
    keywords. *)
Definition entry_hits (description : str) (entry : str * list str)
  : Prop :=
  fst entry <> UNCATEGORIZED_CATEGORY /\ snd entry <> []
  /\ keyword_hits (snd entry) description.

(** [c] is the category of the last entry that hits, or the sentinel
    when none does. *)
Definition assigned (categories : registry) (description c : str)
  : Prop :=
  (exists earlier keywords later,
      categories = earlier ++ (c, keywords) :: later
      /\ entry_hits description (c, keywords)
      /\ Forall (fun e => ~ entry_hits description e) later)
  \/ (Forall (fun e => ~ entry_hits description e) categories
      /\ c = UNCATEGORIZED_CATEGORY).

(** The category of one description under the loops of
    [categorize_transactions], starting from [current]. *)
Fixpoint last_match (categories : registry) (details current : str)
  : str :=
  match categories with
  | [] => current
  | (category, keywords) :: rest =>
      if Str.eqb category UNCATEGORIZED_CATEGORY
         || match keywords with [] => true | _ => false end
      then last_match rest details current
      else
        last_match rest details
          (if any_keyword_in
                (map (fun keyword => strip (lower keyword)) keywords)
                details
           then category else current)
  end.

(** The categorizer in the words of the specification: the first
    category, in registry order, one of whose keywords is
    case-insensitively a substring of the trimmed, lowercased
    description; the sentinel when there is none. *)
Fixpoint spec_first_match (categories : registry) (description : str)
  : str :=
  match categories with
  | [] => UNCATEGORIZED_CATEGORY
  | (category, keywords) :: rest =>
      if existsb (fun keyword =>
                    contains (lower keyword) (strip (lower description)))
                 keywords
      then category
      else spec_first_match rest description
  end.

End CategorizerNotions.



(** What the three replacements do to one character. *)
Definition clean_char (c : N) : str :=
  if (c =? dot)%N then []
  else if (c =? comma)%N then [dot]
  else if (c =? euro)%N then []
  else [c].


Definition digits (s : str) : Prop := Forall (fun c => isdigit c = true) s.







(** An instance of [to_datetime] for the closed statements: a text
    that matches the directives [%d/%m/%Y] as [strptime] reads them (a
    day [3[0-1]|[1-2]\d|0[1-9]|[1-9]| [1-9]], a month
    [1[0-2]|0[1-9]|[1-9]], a year [\d\d\d\d], where [\d] is any
    decimal digit), names a day of the calendar and lies in the range
    of [Timestamp], 1677-09-22 to 2262-04-11. *)
Fixpoint until_slash (s : str) : str * option str :=
  match s with
  | [] => ([], None)
  | c :: s' =>
      if (c =? slash)%N then ([], Some s')
      else let (field, rest) := until_slash s' in (c :: field, rest)
  end.

Definition between (lo hi c : N) : bool := ((lo <=? c) && (c <=? hi))%N.

Definition any_digit (c : N) : option N :=
  if isdigit c then Some (c - 48)%N else decimal c.

Definition day_field (s : str) : option N :=
  match s with
  | [a] => if between 49 57 a then Some (a - 48)%N else None
  | [a; b] =>
      if (a =? 51)%N && between 48 49 b then Some (30 + (b - 48))%N
      else if between 49 50 a
      then option_map (fun v => 10 * (a - 48) + v)%N (any_digit b)
      else if ((a =? 48) || (a =? 32))%N && between 49 57 b
      then Some (b - 48)%N
      else None
  | _ => None
  end.

Definition month_field (s : str) : option N :=
  match s with
  | [a] => if between 49 57 a then Some (a - 48)%N else None
  | [a; b] =>
      if (a =? 49)%N && between 48 50 b then Some (10 + (b - 48))%N
      else if (a =? 48)%N && between 49 57 b then Some (b - 48)%N
      else None
  | _ => None
  end.

Definition year_field (s : str) : option N :=
  match s with
  | [a; b; c; d] =>
      match any_digit a, any_digit b, any_digit c, any_digit d with
      | Some a', Some b', Some c', Some d' =>
          Some (1000 * a' + 100 * b' + 10 * c' + d')%N
      | _, _, _, _ => None
      end
  | _ => None
  end.

Definition in_timestamp_range (d : date) : bool :=
  match Date.compare (Date 1677 9 22) d, Date.compare d (Date 2262 4 11) with
  | Gt, _ | _, Gt => false
  | _, _ => true
  end.

Definition to_datetime_dmy (s : str) : result timestamp :=
  match until_slash s with
  | (days, Some rest) =>
      match until_slash rest with
      | (months, Some years) =>
          match day_field days, month_field months, year_field years with
          | Some d, Some m, Some y =>
              if (d <=? days_in_month y m)%N
                 && in_timestamp_range (Date y m d)
              then Ok (Timestamp (Date y m d))
              else Raise ValueError
          | _, _, _ => Raise ValueError
          end
      | (_, None) => Raise ValueError
      end
  | (_, None) => Raise ValueError
  end.

(** An instance of [read_dates] for the closed statements:
    [pd.to_datetime] reads a column of texts [YYYY-MM-DD] that name
    days of the calendar, the texts that [insert_transactions]
    writes. *)
Definition iso_date_text (s : str) : bool :=
  match s with
  | [y1; y2; y3; y4; h1; m1; m2; h2; d1; d2] =>
      let y := digits_value [y1; y2; y3; y4] in
      let m := digits_value [m1; m2] in
      let d := digits_value [d1; d2] in
      forallb isdigit [y1; y2; y3; y4; m1; m2; d1; d2]
      && (h1 =? minus)%N && (h2 =? minus)%N
      && (1 <=? m)%N && (m <=? 12)%N && (1 <=? d)%N
      && (d <=? days_in_month y m)%N
      && in_timestamp_range (Date y m d)
  | _ => false
  end.

Definition read_iso_dates (column : list str) : bool :=
  forallb iso_date_text column.


(** The digits of a number below 10000 on four places, and of a number
    below 100 on two. *)
Definition dig4 (y : N) : str :=
  [48 + y / 1000; 48 + (y / 100) mod 10; 48 + (y / 10) mod 10;
   48 + y mod 10]%N.
Definition dig2 (m : N) : str := [48 + m / 10; 48 + m mod 10]%N.

(** Insertion of a row in front of the first row that is not later than
    it, and the stable sort it gives: date descending, rows of one date
    in the order of the table.  This is the result the specification
    describes for [loadAll]. *)
Fixpoint insert_desc (t : transaction) (rows : list transaction)
  : list transaction :=
  match rows with
  | [] => [t]
  | u :: rows' =>
      match text_compare (fecha_valor t) (fecha_valor u) with
      | Lt => u :: insert_desc t rows'
      | _ => t :: rows
      end
  end.

Definition spec_load_all (db : table) : list transaction :=
  fold_right insert_desc [] db.

(** The date a stored row was written with is not earlier than that of
    [b]. *)
Definition not_earlier (a b : transaction) : Prop :=
  forall da db,
    Date.valid da -> Date.valid db ->
    fecha_valor a = strftime_ymd da -> fecha_valor b = strftime_ymd db ->
    Date.le db da.


(** The key the specification gives to the content hash: the date, the
    trimmed description and the hundredths of the magnitude. *)
Definition same_key (d1 : date) (c1 : str) (x1 : float)
           (d2 : date) (c2 : str) (x2 : float) : Prop :=
  d1 = d2 /\ strip c1 = strip c2 /\ cents x1 = cents x2.

Definition hexchars : str := lit "0123456789abcdef".

(** All the texts of [n] characters over an alphabet. *)
Fixpoint words_over (alphabet : list N) (n : nat) : list str :=
  match n with
  | O => [[]]
  | S n' => flat_map (fun c => map (cons c) (words_over alphabet n'))
                     alphabet
  end.

(* ================================================================== *)
(** * The rest of the store ([database.py]) *)
(* ================================================================== *)

(** The five columns that [load_all_transactions] selects. *)
Definition columns (t : transaction) : str * str * float * str * str :=
  (fecha_valor t, concepto t, importe t, tipo t, category t).

(** The values [insert_transactions] binds to those columns for a row of
    the frame that has a date and a text description. *)
Definition frame_columns (r : row)
  : option (str * str * float * str * str) :=
  match Fecha_valor r, Concepto r with
  | Timestamp d, Some c =>
      Some (strftime_ymd d, c, Importe r, Tipo r, Category r)
  | _, _ => None
  end.

(** A stored row carries the hash of its own columns, and a number for
    an amount. *)
Definition consistent (t : transaction) : Prop :=
  generate_transaction_hash (fecha_valor t) (concepto t) (importe t)
  = Ok (transaction_hash t)
  /\ is_nan (importe t) = false.

(** A stored row as the normalizer shapes it: an unsigned amount, a kind
    that is Debit or Credit, and for a date the text [YYYY-MM-DD] of a
    day of the calendar. *)
Definition from_statement (t : transaction) : Prop :=
  signbit (importe t) = false
  /\ (tipo t = Debit \/ tipo t = Credit)
  /\ exists d, Date.valid d /\ fecha_valor t = strftime_ymd d.

Module Stats.

(** [MIN] and [MAX] of two TEXT values. *)
Definition text_min (a b : str) : str :=
  match text_compare b a with Lt => b | _ => a end.

Definition text_max (a b : str) : str :=
  match text_compare b a with Gt => b | _ => a end.

(** [SELECT MIN(x)] and [SELECT MAX(x)] over a column: NULL, here
    [None], when the table is empty. *)
Definition min_text (column : list str) : option str :=
  match column with
  | [] => None
  | x :: rest => Some (fold_left text_min rest x)
  end.

Definition max_text (column : list str) : option str :=
  match column with
  | [] => None
  | x :: rest => Some (fold_left text_max rest x)
  end.

(** [SELECT COUNT( * ) ... WHERE category = c] *)
Definition count_category (db : table) (c : str) : nat :=
  List.length (filter (fun t => Str.eqb (category t) c) db).

(** The dict returned by [get_database_stats]; [category_counts] lists
    the items of the inner dict in iteration order. *)
Record database_stats : Type := DatabaseStats {
  total_transactions : nat;
  category_counts : list (str * nat);
  date_range : option str * option str
}.

(** [get_database_stats()].  The second query groups the rows by
    category and orders the groups by size, largest first; groups of one
    size come in the order the engine chooses, so the result is a
    relation. *)
Definition get_database_stats (db : table) (stats : database_stats)
  : Prop :=
  total_transactions stats = List.length db
  /\ NoDup (map fst (category_counts stats))
  /\ (forall c n,
        In (c, n) (category_counts stats)
        <-> n = count_category db c /\ 0 < n)
  /\ StronglySorted (fun a b => snd b <= snd a) (category_counts stats)
  /\ date_range stats
     = (min_text (map fecha_valor db), max_text (map fecha_valor db)).

(** One admissible grouping: the categories in the order of their first
    row, sorted by size with a stable insertion. *)
Fixpoint distinct (seen : list str) (l : list str) : list str :=
  match l with
  | [] => []
  | c :: l' =>
      if existsb (Str.eqb c) seen then distinct seen l'
      else c :: distinct (c :: seen) l'
  end.

Fixpoint insert_by_count (g : str * nat) (groups : list (str * nat))
  : list (str * nat) :=
  match groups with
  | [] => [g]
  | h :: groups' =>
      if (snd h <? snd g)%nat then g :: groups
      else h :: insert_by_count g groups'
  end.

Definition grouped (db : table) : list (str * nat) :=
  fold_right insert_by_count []
             (map (fun c => (c, count_category db c))
                  (distinct [] (map category db))).

Definition stats_of (db : table) : database_stats :=
  DatabaseStats (List.length db) (grouped db)
                (min_text (map fecha_valor db),
                 max_text (map fecha_valor db)).

End Stats.

Module CategoryTable.

(** A row of the [categories] table. *)
Record category_row : Type := CategoryRow {
  id : Z;
  category_name : str;
  keywords : str;
  created_date : Z;
  last_modified : Z
}.

(** The table in rowid order, with the largest rowid ever given
    ([sqlite_sequence], kept for the [AUTOINCREMENT] key). *)
Record categories_table : Type := Categories {
  rows : list category_row;
  sequence : Z
}.

Definition max_id (l : list category_row) : Z :=
  fold_right (fun r m => Z.max (id r) m) 0%Z l.

(** [INSERT OR REPLACE INTO categories (category_name, keywords,
    last_modified) VALUES (?, ?, CURRENT_TIMESTAMP)] at time [now]: a row
    that holds the [UNIQUE] name is deleted, and the new row is inserted
    with a fresh rowid and the default [created_date]. *)
Definition insert_or_replace (now : Z) (t : categories_table)
           (name keywords_json : str) : categories_table :=
  let new_id := (Z.max (sequence t) (max_id (rows t)) + 1)%Z in
  Categories
    (filter (fun r => negb (Str.eqb (category_name r) name)) (rows t)
     ++ [CategoryRow new_id name keywords_json now now])
    new_id.

Section Sync.

(** [json.dumps] on a list of strings. *)
Variable dumps : list str -> str.

(** The loop of [sync_categories]; statement [i] runs at [clock i]. *)
Fixpoint sync_loop (clock : nat -> Z) (i : nat) (t : categories_table)
         (items : registry) : categories_table :=
  match items with
  | [] => t
  | (name, keywords) :: rest =>
      sync_loop clock (S i)
                (insert_or_replace (clock i) t name (dumps keywords)) rest
  end.

(** [sync_categories(categories_dict)] *)
Definition sync_categories (clock : nat -> Z) (t : categories_table)
           (categories_dict : registry) : categories_table :=
  sync_loop clock 0 t categories_dict.

End Sync.

End CategoryTable.

(* ================================================================== *)
(** * The registry ([main.py], [open_ai_service.py]) *)
(* ================================================================== *)

(** [d[k]] on the registry, [None] when the key is missing. *)
Fixpoint dict_get (d : registry) (k : str) : option (list str) :=
  match d with
  | [] => None
  | (k', v) :: d' => if Str.eqb k' k then Some v else dict_get d' k
  end.

(** [d[k] = v]: in place when the key is there, at the end otherwise. *)
Fixpoint dict_set (d : registry) (k : str) (v : list str) : registry :=
  match d with
  | [] => [(k, v)]
  | (k', v') :: d' =>
      if Str.eqb k' k then (k', v) :: d' else (k', v') :: dict_set d' k v
  end.

(** [k in l] for a list of strings. *)
Definition list_mem (k : str) (l : list str) : bool :=
  existsb (Str.eqb k) l.

(** The keys of the registry. *)
Definition keys (d : registry) : list str := map fst d.

(** [add_keywords_to_category(category, keywords)]: the registry
    afterwards and the value returned; [None] is the [KeyError] of
    [categories[category]]. *)
Definition add_keywords_to_category (categories : registry)
           (category keywords : str) : option (registry * bool) :=
  let keyword := strip keywords in
  match keywords with
  | [] => Some (categories, false)
  | _ :: _ =>
      match dict_get categories category with
      | None => None
      | Some current =>
          if list_mem keywords current then Some (categories, false)
          else Some (dict_set categories category (current ++ [keyword]),
                     true)
      end
  end.

(** The registry after the "Add Category" button of
    [render_category_management] with [new_category] typed in. *)
Definition add_category (categories : registry) (new_category : str)
  : registry :=
  match new_category with
  | [] => categories
  | _ :: _ =>
      match dict_get categories new_category with
      | Some _ => categories
      | None => dict_set categories new_category []
      end
  end.

(** Equality of two cells of an object column; all missing values count
    as one value. *)
Definition cell_eqb (x y : option str) : bool :=
  match x, y with
  | None, None => true
  | Some a, Some b => Str.eqb a b
  | _, _ => false
  end.

(** [Series.unique()]: the values in the order of their first
    appearance. *)
Fixpoint unique_from (seen l : list (option str)) : list (option str) :=
  match l with
  | [] => []
  | x :: l' =>
      if existsb (cell_eqb x) seen then unique_from seen l'
      else x :: unique_from (x :: seen) l'
  end.

Definition unique (l : list (option str)) : list (option str) :=
  unique_from [] l.

(** The descriptions that [ai_categorize_uncategorized_transactions]
    sends out: [uncategorized_df['Concepto'].unique()[:20]]. *)
Definition uncategorized_descriptions (df : list row)
  : list (option str) :=
  firstn 20 (unique (map Concepto (filter uncategorized df))).

(** The inner loop of the merge in [categorize_transactions_ai]: every
    keyword that is not in the list yet goes to its end. *)
Fixpoint append_new (existing_keywords new_keywords : list str)
  : list str :=
  match new_keywords with
  | [] => existing_keywords
  | keyword :: rest =>
      append_new (if list_mem keyword existing_keywords
                  then existing_keywords
                  else existing_keywords ++ [keyword]) rest
  end.

(** [categorize_transactions_ai] from the two parsed JSON objects on:
    the categories sent and the answer, both mappings from a name to a
    list of strings.  A name of the answer that is not a category is
    skipped. *)
Definition merge_new_keywords (original_categories new_keywords_only : registry)
  : registry :=
  fold_left (fun updated_categories entry =>
               match dict_get updated_categories (fst entry) with
               | Some existing_keywords =>
                   dict_set updated_categories (fst entry)
                            (append_new existing_keywords (snd entry))
               | None => updated_categories
               end)
            new_keywords_only original_categories.

(** [sum(len(keywords) for keywords in categories.values())] *)
Definition keyword_count (categories : registry) : nat :=
  list_sum (map (fun e => List.length (snd e)) categories).

(** An entry that takes part in the matching. *)
Definition active (entry : str * list str) : Prop :=
  fst entry <> UNCATEGORIZED_CATEGORY /\ snd entry <> [].

(** [later] has the names of [earlier], in the same order, and every
    keyword of [earlier]. *)
Definition extends (earlier later : registry) : Prop :=
  Forall2 (fun e e' => fst e = fst e' /\ incl (snd e) (snd e'))
          earlier later.

(** [r'] is [r] with, possibly, another category. *)
Definition same_but_category (r r' : row) : Prop :=
  Fecha_valor r' = Fecha_valor r /\ Concepto r' = Concepto r
  /\ Importe r' = Importe r /\ Tipo r' = Tipo r.

Module Uploads.

(** A statement of three lines, the last one without an amount, and
    the outcome of its first upload to a new database. *)
Definition statement : list csv_row :=
  [ Sample.coffee_line; Sample.rent_line;
    CsvRow (Some (lit "16/01/2024")) (Some (lit "PARKING")) Empty ].

Definition first_upload : table * option (list row * (nat * nat)) :=
  Eval vm_compute in
    load_transactions ascii_lower to_datetime_dmy read_iso_dates
                      Sample.shops Sample.noon 0 [] statement.


End Uploads.

(** [later] is [earlier] with keywords appended: the same name, the
    former keywords in place, and behind them keywords that were not
    there, each once. *)
Definition grown (earlier later : str * list str) : Prop :=
  fst later = fst earlier
  /\ exists added,
      snd later = snd earlier ++ added
      /\ NoDup added
      /\ forall k, In k added -> ~ In k (snd earlier).

Module Registry.

(** A table of categories written by an earlier session: one category
    that is still in use, and one that has been dropped since. *)
Definition earlier_table : CategoryTable.categories_table :=
  CategoryTable.Categories
    [ CategoryTable.CategoryRow 1 (lit "Food") (lit "[]") 10 10;
      CategoryTable.CategoryRow 2 (lit "Travel") (lit "[]") 10 10 ]
    2.

(** A stand-in for [json.dumps] on a list of strings: the keywords
    between brackets, separated by commas. *)
Definition join_keywords (keywords : list str) : str :=
  lit "[" ++ List.concat (map (fun k => k ++ [comma]) keywords) ++ lit "]".

End Registry.

(** A code point that UTF-8 cannot carry: a surrogate, or a value past
    U+10FFFF. *)
Definition unencodable (c : N) : Prop :=
  (55296 <= c <= 57343 \/ 1114112 <= c)%N.

(** Comparison of fixed-width numerals: split on every comparison of two
    digits and close the impossible cases by arithmetic on quotients and
    remainders. *)
Ltac by_digits :=
  repeat match goal with
         | |- context [(?a ?= ?b)%N] =>
             destruct (N.compare_spec a b); try reflexivity
         end;
  try (exfalso; zify; Z.to_euclidean_division_equations; lia).

(* ================================================================== *)
(** * Properties *)
(* ================================================================== *)

(* ================================================================== *)
(** * Text lemmas *)
(* ================================================================== *)

Lemma eqb_eq (a b : str) : Str.eqb a b = true <-> a = b.
Proof.
  unfold Str.eqb. destruct (list_eq_dec N.eq_dec a b); split; congruence.
Qed.

Lemma eqb_neq (a b : str) : Str.eqb a b = false <-> a <> b.
Proof.
  unfold Str.eqb. destruct (list_eq_dec N.eq_dec a b); split; congruence.
Qed.

Lemma eqb_refl (a : str) : Str.eqb a a = true.
Proof. now apply eqb_eq. Qed.

(* ================================================================== *)
(** * Category updates *)
(* ================================================================== *)

Lemma set_category_recategorized now c t :
  recategorized now c t (set_category now c t).
Proof. unfold recategorized; cbn; repeat split. Qed.

(** C7: [update_transactions_by_concept] rewrites the category and the
    modification time of exactly the rows whose description equals the
    argument, returns how many there are, and leaves every other row as it
    was, its modification time included. *)
Theorem update_by_concept_exact_match (now : Z) (db : table) (d c : str) :
  Forall2 (fun t t' =>
             (concepto t = d /\ recategorized now c t t')
             \/ (concepto t <> d /\ t' = t))
          db (fst (update_transactions_by_concept now db d c))
  /\ snd (update_transactions_by_concept now db d c)
     = count_occ str_eq_dec (map concepto db) d.
Proof.
  unfold update_transactions_by_concept; cbn [fst snd].
  induction db as [|t db [IHrows IHcount]]; cbn [map filter count_occ].
  - split; [constructor | reflexivity].
  - split.
    + constructor; [|exact IHrows].
      destruct (Str.eqb (concepto t) d) eqn:E.
      * left. apply eqb_eq in E.
        split; [exact E | apply set_category_recategorized].
      * right. apply eqb_neq in E. now split.
    + destruct (Str.eqb (concepto t) d) eqn:E.
      * apply eqb_eq in E.
        destruct (str_eq_dec (concepto t) d) as [_|n]; [|contradiction].
        cbn [List.length]. now f_equal.
      * apply eqb_neq in E.
        destruct (str_eq_dec (concepto t) d) as [e|_]; [contradiction|].
        exact IHcount.
Qed.

Lemma update_category_absent now db h c :
  ~ In h (hashes db) -> update_transaction_category now db h c = db.
Proof.
  unfold update_transaction_category, hashes.
  induction db as [|t db IH]; cbn [map In]; intros Hn; [reflexivity|].
  destruct (Str.eqb (transaction_hash t) h) eqn:E.
  - apply eqb_eq in E. exfalso. apply Hn. now left.
  - f_equal. apply IH. intros Hin. apply Hn. now right.
Qed.

(** C8: with the hash column unique, [update_transaction_category]
    rewrites the category and the modification time of the one row that
    carries the hash and leaves the others alone; when no row carries it
    the table is unchanged and nothing is raised. *)
Theorem update_category_one_or_none (now : Z) (db : table) (h c : str) :
  NoDup (hashes db) ->
  (In h (hashes db) ->
   exists pre t post,
     db = pre ++ t :: post /\ transaction_hash t = h /\
     update_transaction_category now db h c
     = pre ++ set_category now c t :: post /\
     recategorized now c t (set_category now c t))
  /\ (~ In h (hashes db) -> update_transaction_category now db h c = db).
Proof.
  intros Hnd. split; [|apply update_category_absent].
  induction db as [|t db IH]; cbn [hashes map In]; [intros []|].
  intros Hin. inversion Hnd as [|? ? Hfresh Hnd']; subst.
  destruct (str_eq_dec (transaction_hash t) h) as [e|n].
  - exists [], t, db. repeat split; try assumption.
    cbn [app]. unfold update_transaction_category at 1. cbn [map].
    rewrite (proj2 (eqb_eq _ _) e). f_equal.
    apply update_category_absent. now rewrite <- e.
  - destruct Hin as [e|Hin]; [contradiction|].
    destruct (IH Hnd' Hin) as (pre & u & post & -> & Hu & Hupd & Hrec).
    exists (t :: pre), u, post. repeat split; try assumption.
    unfold update_transaction_category at 1. cbn [map app].
    rewrite (proj2 (eqb_neq _ _) n). f_equal. exact Hupd.
Qed.

Lemma update_category_one_or_none_witness :
  (In Sample.coffee_hash (hashes [Sample.stored_coffee; Sample.stored_rent]) ->
   exists pre t post,
     [Sample.stored_coffee; Sample.stored_rent] = pre ++ t :: post
     /\ transaction_hash t = Sample.coffee_hash
     /\ update_transaction_category
          2000 [Sample.stored_coffee; Sample.stored_rent]
          Sample.coffee_hash (lit "Food")
        = pre ++ set_category 2000 (lit "Food") t :: post
     /\ recategorized 2000 (lit "Food") t (set_category 2000 (lit "Food") t))
  /\ (~ In Sample.coffee_hash
          (hashes [Sample.stored_coffee; Sample.stored_rent]) ->
      update_transaction_category
        2000 [Sample.stored_coffee; Sample.stored_rent]
        Sample.coffee_hash (lit "Food")
      = [Sample.stored_coffee; Sample.stored_rent]).
Proof.
  refine (@update_category_one_or_none
            2000 [Sample.stored_coffee; Sample.stored_rent]
            Sample.coffee_hash (lit "Food") _).
  repeat constructor; cbn; intuition discriminate.
Defined.

(* ================================================================== *)
(** * Insertion *)
(* ================================================================== *)

Lemma transaction_exists_In db h :
  transaction_exists db h = true <-> In h (hashes db).
Proof.
  unfold transaction_exists, hashes. rewrite existsb_exists, in_map_iff.
  split; intros (t & H1 & H2); exists t.
  - apply eqb_eq in H2. now split.
  - split; [assumption | now apply eqb_eq].
Qed.

Lemma transaction_exists_not_In db h :
  transaction_exists db h = false <-> ~ In h (hashes db).
Proof.
  rewrite <- transaction_exists_In.
  destruct (transaction_exists db h); split; congruence.
Qed.

Lemma hashes_app db1 db2 : hashes (db1 ++ db2) = hashes db1 ++ hashes db2.
Proof. apply map_app. Qed.

(** A row with a content hash goes through the [try] without raising. *)
Lemma try_insert_hashed now seq db r h :
  content_hash r = Ok h ->
  exists f c,
    Concepto r = Some c /\
    try_insert now seq db r
    = Ok (insert_or_ignore now seq db h f c (Importe r) (Tipo r)
                           (Category r)).
Proof.
  unfold content_hash, try_insert.
  destruct (strftime (Fecha_valor r)) as [f|e]; cbn [bind]; [|discriminate].
  destruct (Concepto r) as [c|]; [|discriminate].
  intros ->. cbn [bind]. now exists f, c.
Qed.

(** What one [INSERT OR IGNORE] does to the table. *)
Lemma insert_or_ignore_cases now seq db h f c x tp cat :
  (insert_or_ignore now seq db h f c x tp cat = (db, next_id seq db, 0)
   /\ (is_nan x = true \/ In h (hashes db)))
  \/ (exists t,
        insert_or_ignore now seq db h f c x tp cat
        = (db ++ [t], next_id seq db, 1)
        /\ transaction_hash t = h /\ ~ In h (hashes db)
        /\ is_nan x = false).
Proof.
  unfold insert_or_ignore.
  destruct (is_nan x) eqn:Ex; cbn [orb]; [left; auto|].
  destruct (transaction_exists db h) eqn:Eh.
  - left. apply transaction_exists_In in Eh. auto.
  - right. apply transaction_exists_not_In in Eh.
    eexists. repeat split; auto.
Qed.

Lemma try_insert_cases now seq db r db' seq' rowcount :
  try_insert now seq db r = Ok (db', seq', rowcount) ->
  (db' = db /\ rowcount = 0)
  \/ (exists t, db' = db ++ [t] /\ rowcount = 1
      /\ ~ In (transaction_hash t) (hashes db)).
Proof.
  unfold try_insert.
  destruct (strftime (Fecha_valor r)) as [f|e]; cbn [bind]; [|discriminate].
  destruct (Concepto r) as [c|]; [|discriminate].
  destruct (generate_transaction_hash f c (Importe r)) as [h|e];
    cbn [bind]; [|discriminate].
  intros H.
  destruct (insert_or_ignore_cases now seq db h f c (Importe r) (Tipo r)
                                   (Category r))
    as [[E _]|(t & E & Ht & Hn & _)]; rewrite E in H; inversion H; subst.
  - now left.
  - right. exists t. now repeat split.
Qed.

Lemma NoDup_hashes_snoc db t :
  NoDup (hashes db) -> ~ In (transaction_hash t) (hashes db) ->
  NoDup (hashes (db ++ [t])).
Proof.
  intros Hnd Hn. rewrite hashes_app. cbn.
  apply NoDup_app.
  repeat split; auto.
  - constructor; [intros []|constructor].
  - intros x Hx [<-|[]]. contradiction.
Qed.

(** The loop invariant: whenever the loop returns, the table has only
    grown at its end, each row of the batch went to one of the two
    counters, [new_count] grew by the number of rows written, and the
    hash column stayed free of repetitions. *)
Lemma insert_loop_invariant df :
  forall clock i seq db n d db' seq' n' d',
    insert_loop clock i seq db n d df = Ok (db', seq', (n', d')) ->
    exists added,
      db' = db ++ added
      /\ n' = n + List.length added
      /\ n' + d' = n + d + List.length df
      /\ (NoDup (hashes db) -> NoDup (hashes db')).
Proof.
  induction df as [|r df IH]; intros clock i seq db n d db' seq' n' d';
    cbn [insert_loop].
  - intros H; inversion H; subst. exists []. rewrite app_nil_r. cbn.
    repeat split; auto; lia.
  - destruct (try_insert (clock i) seq db r) as [[[db1 seq1] rc]|e] eqn:Et.
    + apply try_insert_cases in Et.
      destruct Et as [[-> ->]|(t & -> & -> & Hfresh)]; cbn [Nat.ltb Nat.leb];
        intros H; apply IH in H; destruct H as (added & -> & -> & Hs & Hnd).
      * exists added. cbn [List.length]. repeat split; auto; lia.
      * exists (t :: added). cbn [List.length].
        split; [now rewrite <- app_assoc|].
        repeat split; auto; try lia.
        intros H0. apply Hnd. now apply NoDup_hashes_snoc.
    + destruct (handler r); cbn [bind]; [|discriminate].
      intros H; apply IH in H; destruct H as (added & -> & -> & Hs & Hnd).
      exists added. cbn [List.length]. repeat split; auto; lia.
Qed.

(** With text in every description the handler never raises, so the loop
    runs to its end. *)
Lemma insert_loop_returns df :
  Forall described df ->
  forall clock i seq db n d,
  exists out, insert_loop clock i seq db n d df = Ok out.
Proof.
  induction 1 as [|r df Hr _ IH]; intros clock i seq db n d;
    cbn [insert_loop].
  - eauto.
  - destruct (try_insert (clock i) seq db r) as [[[db1 seq1] rc]|e].
    + destruct (0 <? rc)%nat; apply IH.
    + unfold handler. unfold described in Hr.
      destruct (Concepto r); [|contradiction]. cbn [bind]. apply IH.
Qed.

(** A description that is not text makes the handler raise: the loop is
    left with [TypeError] wherever the row stands in the batch. *)
Lemma insert_loop_missing_description df :
  Exists (fun r => Concepto r = None) df ->
  forall clock i seq db n d,
    insert_loop clock i seq db n d df = Raise TypeError.
Proof.
  induction df as [|r df IH]; intros Hex clock i seq db n d;
    [inversion Hex|]; cbn [insert_loop].
  assert (Hrest : Concepto r <> None ->
                  forall i seq db n d,
                    insert_loop clock i seq db n d df = Raise TypeError).
  { intros Hr. inversion Hex; subst; [contradiction|]. intros; now apply IH. }
  destruct (try_insert (clock i) seq db r) as [[[db1 seq1] rc]|e] eqn:Et.
  - assert (Hr : Concepto r <> None).
    { unfold try_insert in Et.
      destruct (strftime (Fecha_valor r)); cbn [bind] in Et; [|discriminate].
      destruct (Concepto r); [discriminate|discriminate]. }
    destruct (0 <? rc)%nat; now apply Hrest.
  - unfold handler. destruct (Concepto r) eqn:Ec; cbn [bind]; [|reflexivity].
    apply Hrest. discriminate.
Qed.

(** Rows whose hashes are all in the table already: nothing is written
    and each one is counted as a duplicate. *)
Lemma insert_loop_all_known df :
  forall hs clock i seq db n d,
    Forall2 (fun r h => content_hash r = Ok h) df hs ->
    (forall h, In h hs -> In h (hashes db)) ->
    exists seq',
      insert_loop clock i seq db n d df
      = Ok (db, seq', (n, d + List.length df)).
Proof.
  induction df as [|r df IH]; intros hs clock i seq db n d Hh Hin;
    inversion Hh as [|? h ? hs' Hr Hrest]; subst; cbn [insert_loop List.length].
  - exists seq. now rewrite Nat.add_0_r.
  - destruct (try_insert_hashed (clock i) seq db r Hr) as (f & c & _ & ->).
    destruct (insert_or_ignore_cases (clock i) seq db h f c (Importe r)
                                     (Tipo r) (Category r))
      as [[-> _]|(t & _ & _ & Hn & _)].
    + cbn [Nat.ltb Nat.leb].
      destruct (IH hs' clock (S i) (next_id seq db) db n (S d) Hrest)
        as (seq' & ->).
      * intros; apply Hin; now right.
      * exists seq'. do 3 f_equal. lia.
    + exfalso. apply Hn, Hin. now left.
Qed.

(** Rows with pairwise distinct hashes, none of them in the table, and
    amounts that are numbers: every one is written, in order. *)
Lemma insert_loop_all_new df :
  forall hs clock i seq db n d,
    Forall2 (fun r h => content_hash r = Ok h) df hs ->
    Forall (fun r => is_nan (Importe r) = false) df ->
    NoDup hs ->
    (forall h, In h hs -> ~ In h (hashes db)) ->
    exists added seq',
      insert_loop clock i seq db n d df
      = Ok (db ++ added, seq', (n + List.length df, d))
      /\ hashes added = hs.
Proof.
  induction df as [|r df IH]; intros hs clock i seq db n d Hh Hnum Hnd Hout;
    inversion Hh as [|? h ? hs' Hr Hrest]; subst; cbn [insert_loop List.length].
  - exists [], seq. rewrite app_nil_r, Nat.add_0_r. now split.
  - inversion Hnum as [|? ? Hx Hnum']; subst.
    inversion Hnd as [|? ? Hfresh Hnd']; subst.
    destruct (try_insert_hashed (clock i) seq db r Hr) as (f & c & _ & ->).
    destruct (insert_or_ignore_cases (clock i) seq db h f c (Importe r)
                                     (Tipo r) (Category r))
      as [[_ [Hnan|Hin]]|(t & -> & Ht & _ & _)].
    + congruence.
    + exfalso. apply (Hout h); [now left | assumption].
    + cbn [Nat.ltb Nat.leb].
      destruct (IH hs' clock (S i) (next_id seq db) (db ++ [t]) (S n) d
                   Hrest Hnum' Hnd')
        as (added & seq' & -> & Hadded).
      * intros h' Hh'. rewrite hashes_app. cbn. rewrite in_app_iff.
        intros [Hdb|[<-|[]]].
        -- apply (Hout h'); [now right | assumption].
        -- rewrite Ht in Hh'. contradiction.
      * exists (t :: added), seq'. rewrite <- app_assoc. cbn [app].
        split; [do 3 f_equal; lia|].
        cbn [hashes map]. unfold hashes in Hadded. now rewrite Hadded, Ht.
Qed.

Lemma insert_transactions_grows clock seq db df :
  exists added, fst (insert_transactions clock seq db df) = db ++ added.
Proof.
  unfold insert_transactions.
  destruct (insert_loop clock 0 seq db 0 0 df) as [[[db' seq'] [n d]]|e] eqn:E.
  - apply insert_loop_invariant in E. destruct E as (added & -> & _).
    now exists added.
  - exists []. now rewrite app_nil_r.
Qed.

Lemma insert_transactions_unique clock seq db df :
  NoDup (hashes db) ->
  NoDup (hashes (fst (insert_transactions clock seq db df))).
Proof.
  unfold insert_transactions. intros Hnd.
  destruct (insert_loop clock 0 seq db 0 0 df) as [[[db' seq'] [n d]]|e] eqn:E;
    [|exact Hnd].
  apply insert_loop_invariant in E. destruct E as (added & _ & _ & _ & H).
  now apply H.
Qed.

(** Whenever [insert_transactions] returns its pair, the two counters
    add up to the size of the batch and [new_count] is the number of rows
    the table gained. *)
Lemma insert_transactions_accounting clock seq db df db' n d :
  insert_transactions clock seq db df = (db', Ok (n, d)) ->
  n + d = List.length df /\ List.length db' = List.length db + n.
Proof.
  unfold insert_transactions.
  destruct (insert_loop clock 0 seq db 0 0 df) as [[[db1 seq1] [n1 d1]]|e] eqn:E;
    [|discriminate].
  intros H; inversion H; subst.
  apply insert_loop_invariant in E. destruct E as (added & -> & -> & Hs & _).
  rewrite length_app. split; lia.
Qed.

(** C2: a record whose content hash is already in the table is not
    written.  Alone in a batch it leaves the table as it was and is
    reported as [(0, 1)]; the ignored [INSERT] still takes a rowid from
    the [AUTOINCREMENT] sequence, and this is all it changes: at any
    point of a loop the rest of the batch runs as it would without the
    record from a sequence one step further, with one more unit on the
    duplicate counter.  Whatever the batch, the rows that were in the
    table stay in place unchanged and a hash column free of repetitions
    stays so. *)
Theorem insert_existing_hash_is_noop
        (clock : nat -> Z) (seq : Z) (db : table) (r : row) (h : str) :
  content_hash r = Ok h ->
  In h (hashes db) ->
  insert_transactions clock seq db [r] = (db, Ok (0, 1))
  /\ sequence_after_insert clock seq db [r] = next_id seq db
  /\ (forall i n d rest,
        insert_loop clock i seq db n d (r :: rest)
        = insert_loop clock (S i) (next_id seq db) db n (S d) rest)
  /\ (forall df, exists added,
        fst (insert_transactions clock seq db df) = db ++ added)
  /\ (NoDup (hashes db) ->
      forall df, NoDup (hashes (fst (insert_transactions clock seq db df)))).
Proof.
  intros Hr Hin.
  assert (Hstep : forall i,
             try_insert (clock i) seq db r = Ok (db, next_id seq db, 0)).
  { intros i.
    destruct (try_insert_hashed (clock i) seq db r Hr) as (f & c & _ & ->).
    destruct (insert_or_ignore_cases (clock i) seq db h f c (Importe r)
                                     (Tipo r) (Category r))
      as [[-> _]|(t & _ & _ & Hn & _)]; [reflexivity | contradiction]. }
  split; [|split; [|split; [|split]]].
  - unfold insert_transactions. cbn [insert_loop]. now rewrite Hstep.
  - unfold sequence_after_insert. cbn [insert_loop]. now rewrite Hstep.
  - intros i n d rest. cbn [insert_loop]. now rewrite Hstep.
  - intros df. apply insert_transactions_grows.
  - intros Hnd df. now apply insert_transactions_unique.
Qed.

Lemma insert_existing_hash_is_noop_witness :
  insert_transactions Sample.noon 1 [Sample.stored_coffee] [Sample.coffee]
  = ([Sample.stored_coffee], Ok (0, 1))
  /\ sequence_after_insert Sample.noon 1 [Sample.stored_coffee]
                           [Sample.coffee] = 2%Z.
Proof.
  refine ((fun H => conj (proj1 H) (proj1 (proj2 H)))
            (@insert_existing_hash_is_noop
               Sample.noon 1%Z [Sample.stored_coffee] Sample.coffee
               Sample.coffee_hash _ _)).
  - vm_compute. reflexivity.
  - left. reflexivity.
Defined.

(** On a new database the batch coffee, coffee, rent is stored under
    the ids 1 and 3: the ignored second row took the rowid 2. *)
Example ignored_insert_takes_rowid :
  map id (fst (insert_transactions Sample.noon 0 []
                 [Sample.coffee; Sample.coffee; Sample.rent]))
  = [1; 3]%Z
  /\ snd (insert_transactions Sample.noon 0 []
            [Sample.coffee; Sample.coffee; Sample.rent])
     = Ok (2, 1).
Proof. split; vm_compute; reflexivity. Qed.

(** C3, amended: for a batch of [N] well-formed records with pairwise
    distinct content hashes, none of them in the table, a first
    [insert_transactions] returns [(N, 0)], and a second one on the
    resulting table returns [(0, N)] and leaves that table as it is. *)
Theorem insert_batch_twice
        (clock1 clock2 : nat -> Z) (seq1 seq2 : Z) (db : table)
        (df : list row) (hs : list str) :
  Forall2 (fun r h => content_hash r = Ok h) df hs ->
  Forall (fun r => is_nan (Importe r) = false) df ->
  NoDup hs ->
  (forall h, In h hs -> ~ In h (hashes db)) ->
  exists db1,
    insert_transactions clock1 seq1 db df = (db1, Ok (List.length df, 0))
    /\ insert_transactions clock2 seq2 db1 df = (db1, Ok (0, List.length df))
    /\ List.length db1 = List.length db + List.length df.
Proof.
  intros Hh Hnum Hnd Hout.
  destruct (insert_loop_all_new clock1 0 seq1 db 0 0 Hh Hnum Hnd Hout)
    as (added & seq' & E1 & Hadded).
  exists (db ++ added). unfold insert_transactions. rewrite E1.
  destruct (insert_loop_all_known clock2 0 seq2 (db ++ added) 0 0 Hh)
    as (seq'' & ->).
  - intros h Hin. rewrite hashes_app, in_app_iff. right. now rewrite Hadded.
  - repeat split. rewrite length_app. f_equal.
    rewrite (Forall2_length Hh), <- Hadded. unfold hashes.
    now rewrite length_map.
Qed.

Lemma insert_batch_twice_witness :
  exists db1,
    insert_transactions Sample.noon 0 [] [Sample.coffee; Sample.rent]
    = (db1, Ok (2, 0))
    /\ insert_transactions Sample.noon 2 db1 [Sample.coffee; Sample.rent]
       = (db1, Ok (0, 2))
    /\ List.length db1 = 2.
Proof.
  refine (@insert_batch_twice Sample.noon Sample.noon 0%Z 2%Z []
            [Sample.coffee; Sample.rent]
            [Sample.coffee_hash; Sample.rent_hash] _ _ _ _).
  - repeat constructor; vm_compute; reflexivity.
  - repeat constructor.
  - repeat constructor; cbn; intuition discriminate.
  - intros h _ [].
Defined.

(** C3 as stated fails on a batch that holds the same record twice: on
    the empty table the first call returns [(1, 1)], not [(2, 0)]. *)
Lemma insert_batch_repeated_record :
  well_formed Sample.coffee
  /\ snd (insert_transactions Sample.noon 0 [] [Sample.coffee; Sample.coffee])
     = Ok (1, 1)
  /\ snd (insert_transactions Sample.noon 0 [] [Sample.coffee; Sample.coffee])
     <> Ok (List.length [Sample.coffee; Sample.coffee], 0).
Proof.
  split; [|split].
  - split; [exists Sample.coffee_hash; vm_compute; reflexivity | reflexivity].
  - vm_compute. reflexivity.
  - vm_compute. discriminate.
Qed.

(** C10 at the failing input: a batch that holds a row with no
    description does not return a pair at all; the handler raises, the
    call ends with [TypeError] and the table is rolled back. *)
Theorem insert_batch_missing_description_raises :
  insert_transactions Sample.noon 0 []
                      [Sample.coffee; Sample.blank; Sample.rent]
  = ([], Raise TypeError).
Proof.
  unfold insert_transactions.
  rewrite insert_loop_missing_description; [reflexivity|].
  apply Exists_cons_tl, Exists_cons_hd. reflexivity.
Qed.

(* ================================================================== *)
(** * The keyword categorizer *)
(* ================================================================== *)

Lemma startswith_prefix p s :
  startswith p s = true <-> exists rest, s = p ++ rest.
Proof.
  revert s. induction p as [|a p IH]; intros s; cbn [startswith].
  - split; [intros _; now exists s | reflexivity].
  - destruct s as [|b s].
    + split; [discriminate | intros (rest & H); discriminate H].
    + rewrite andb_true_iff, N.eqb_eq, IH. split.
      * intros (-> & rest & ->). now exists rest.
      * intros (rest & H). inversion H; subst. split; [reflexivity|].
        now exists rest.
Qed.

(** [p in s] holds exactly when [p] occurs in [s]. *)
Lemma contains_substring p s :
  contains p s = true <-> exists before after, s = before ++ p ++ after.
Proof.
  induction s as [|b s IH].
  - cbn [contains]. rewrite orb_false_r, startswith_prefix. split.
    + intros (rest & H). now exists [], rest.
    + intros (before & after & H). destruct before; [|discriminate H].
      now exists after.
  - change (contains p (b :: s))
      with (startswith p (b :: s) || contains p s).
    rewrite orb_true_iff, startswith_prefix, IH. split.
    + intros [(rest & ->)|(before & after & ->)].
      * now exists [], rest.
      * now exists (b :: before), after.
    + intros (before & after & H). destruct before as [|c before].
      * left. now exists after.
      * right. inversion H; subst. now exists before, after.
Qed.

Section CategorizerFacts.

Variable lower : str -> str.

Lemma any_keyword_in_hits keywords description :
  any_keyword_in (map (fun k => strip (lower k)) keywords)
                 (strip (lower description)) = true
  <-> keyword_hits lower keywords description.
Proof.
  unfold any_keyword_in, keyword_hits. rewrite existsb_exists. split.
  - intros (k' & Hin & Hc). apply in_map_iff in Hin.
    destruct Hin as (k & <- & Hin). apply contains_substring in Hc.
    destruct Hc as (before & after & Hc). now exists k, before, after.
  - intros (k & before & after & Hin & Hc).
    exists (strip (lower k)). split.
    + apply in_map_iff. now exists k.
    + apply contains_substring. now exists before, after.
Qed.

(** The inner loop touches the category of the rows that match and of
    no other. *)
Lemma categorize_rows_map category keywords df :
  Forall described df ->
  categorize_rows lower category
                  (map (fun k => strip (lower k)) keywords) df
  = Ok (map (fun r =>
               match Concepto r with
               | Some c =>
                   if any_keyword_in (map (fun k => strip (lower k)) keywords)
                                     (strip (lower c))
                   then with_category category r else r
               | None => r
               end) df).
Proof.
  induction 1 as [|r df Hr _ IH]; cbn [categorize_rows map]; [reflexivity|].
  unfold described in Hr. destruct (Concepto r); [|contradiction].
  rewrite IH. reflexivity.
Qed.

Lemma categorize_loop_map categories :
  forall df,
    Forall described df ->
    categorize_loop lower categories df
    = Ok (map (fun r =>
                 match Concepto r with
                 | Some c =>
                     with_category
                       (last_match lower categories (strip (lower c))
                                   (Category r)) r
                 | None => r
                 end) df).
Proof.
  induction categories as [|[category keywords] rest IH]; intros df Hdf;
    cbn [categorize_loop last_match].
  - f_equal. rewrite <- (map_id df) at 1. apply map_ext_in.
    intros r _. destruct r as [f [c|] x tp cat]; reflexivity.
  - destruct (Str.eqb category UNCATEGORIZED_CATEGORY
              || match keywords with [] => true | _ => false end).
    + now apply IH.
    + rewrite categorize_rows_map by assumption. cbn [bind].
      rewrite IH.
      * f_equal. rewrite map_map. apply map_ext_in. intros r _.
        destruct r as [f [c|] x tp cat]; cbn; [|reflexivity].
        destruct (any_keyword_in _ _); reflexivity.
      * apply Forall_forall. intros r' Hin. apply in_map_iff in Hin.
        destruct Hin as (r & <- & Hin).
        rewrite Forall_forall in Hdf. specialize (Hdf r Hin).
        unfold described in *. destruct (Concepto r) eqn:E; [|contradiction].
        destruct (any_keyword_in _ _); cbn; congruence.
Qed.

Lemma entry_hits_dec description category keywords :
  (Str.eqb category UNCATEGORIZED_CATEGORY
   || match keywords with [] => true | _ => false end = false
   /\ any_keyword_in (map (fun k => strip (lower k)) keywords)
                     (strip (lower description)) = true)
  <-> entry_hits lower description (category, keywords).
Proof.
  unfold entry_hits. cbn [fst snd].
  rewrite orb_false_iff, eqb_neq, any_keyword_in_hits.
  destruct keywords; intuition congruence.
Qed.

Lemma last_match_no_hit description categories :
  Forall (fun e => ~ entry_hits lower description e) categories ->
  forall current,
    last_match lower categories (strip (lower description)) current
    = current.
Proof.
  induction 1 as [|[category keywords] rest Hno _ IH]; intros current;
    cbn [last_match]; [reflexivity|].
  destruct (Str.eqb category UNCATEGORIZED_CATEGORY
            || match keywords with [] => true | _ => false end) eqn:Eskip;
    [apply IH|].
  destruct (any_keyword_in _ _) eqn:Eany; [|apply IH].
  exfalso. apply Hno. apply entry_hits_dec. now split.
Qed.

(** The loops give a description the category of the last entry that
    hits it, and leave [current] when no entry does. *)
Lemma last_match_assigned description categories :
  forall current,
    (exists earlier keywords later,
        categories
        = earlier
            ++ (last_match lower categories (strip (lower description))
                           current, keywords) :: later
        /\ entry_hits lower description
                      (last_match lower categories
                                  (strip (lower description)) current,
                       keywords)
        /\ Forall (fun e => ~ entry_hits lower description e) later)
    \/ (Forall (fun e => ~ entry_hits lower description e) categories
        /\ last_match lower categories (strip (lower description)) current
           = current).
Proof.
  induction categories as [|[category keywords] rest IH]; intros current.
  - right. split; [constructor | reflexivity].
  - cbn [last_match].
    destruct (Str.eqb category UNCATEGORIZED_CATEGORY
              || match keywords with [] => true | _ => false end) eqn:Eskip.
    + assert (Hno : ~ entry_hits lower description (category, keywords)).
      { intros Hh. apply entry_hits_dec in Hh. destruct Hh; congruence. }
      destruct (IH current)
        as [(earlier & kws & later & Hsplit & Hh & Hlater)|[Hall Hcur]].
      * left. exists ((category, keywords) :: earlier), kws, later.
        split; [cbn [app]; now f_equal|]. now split.
      * right. split; [now constructor | assumption].
    + destruct (any_keyword_in _ _) eqn:Eany.
      * destruct (IH category)
          as [(earlier & kws & later & Hsplit & Hh & Hlater)|[Hall Hcur]].
        -- left. exists ((category, keywords) :: earlier), kws, later.
           split; [cbn [app]; now f_equal|]. now split.
        -- left. exists [], keywords, rest. rewrite Hcur.
           split; [reflexivity|]. split; [|assumption].
           apply entry_hits_dec. now split.
      * assert (Hno : ~ entry_hits lower description (category, keywords)).
        { intros Hh. apply entry_hits_dec in Hh. destruct Hh; congruence. }
        destruct (IH current)
          as [(earlier & kws & later & Hsplit & Hh & Hlater)|[Hall Hcur]].
        -- left. exists ((category, keywords) :: earlier), kws, later.
           split; [cbn [app]; now f_equal|]. now split.
        -- right. split; [now constructor | assumption].
Qed.

End CategorizerFacts.

(** C4, amended: every row whose description is text gets the category
    of the LAST entry of the registry, in iteration order, that is not
    the sentinel, has keywords, and has a keyword whose lowercased,
    trimmed form occurs in the lowercased, trimmed description; it gets
    [Uncategorized] when there is no such entry. *)
Theorem categorize_last_match_wins
        (lower : str -> str) (categories : registry) (df : list row) :
  Forall described df ->
  exists df',
    categorize_transactions lower categories df = Ok df'
    /\ Forall2 (fun r r' =>
                  exists description c,
                    Concepto r = Some description
                    /\ assigned lower categories description c
                    /\ r' = with_category c r) df df'.
Proof.
  intros Hdf. unfold categorize_transactions.
  rewrite categorize_loop_map.
  2:{ apply Forall_forall. intros r' Hin. apply in_map_iff in Hin.
      destruct Hin as (r & <- & Hin). rewrite Forall_forall in Hdf.
      exact (Hdf r Hin). }
  eexists. split; [reflexivity|].
  rewrite map_map. induction Hdf as [|r df Hr _ IH]; cbn [map]; constructor;
    [|exact IH].
  unfold described in Hr. destruct r as [f [description|] x tp cat];
    cbn in *; [|contradiction].
  exists description. eexists. split; [reflexivity|]. split; [|reflexivity].
  unfold assigned.
  destruct (last_match_assigned lower description categories
                                UNCATEGORIZED_CATEGORY) as [H|[H1 H2]].
  - left. exact H.
  - right. now split.
Qed.

Lemma categorize_last_match_wins_witness :
  exists df',
    categorize_transactions ascii_lower Sample.shops [Sample.supermarket]
    = Ok df'
    /\ Forall2 (fun r r' =>
                  exists description c,
                    Concepto r = Some description
                    /\ assigned ascii_lower Sample.shops description c
                    /\ r' = with_category c r) [Sample.supermarket] df'.
Proof.
  refine (@categorize_last_match_wins ascii_lower Sample.shops
                                      [Sample.supermarket] _).
  repeat constructor. discriminate.
Defined.

(** C4 as stated fails where two categories have a keyword for one
    description: the first of them in registry order is [Food], and the
    code files the row under [Shops]. *)
Lemma categorize_not_first_match :
  spec_first_match ascii_lower Sample.shops (lit "SuperMarket 24h")
  = lit "Food"
  /\ categorize_transactions ascii_lower Sample.shops [Sample.supermarket]
     = Ok [with_category (lit "Shops") Sample.supermarket]
  /\ lit "Shops" <> lit "Food".
Proof.
  split; [|split].
  - vm_compute. reflexivity.
  - vm_compute. reflexivity.
  - discriminate.
Qed.

(* ================================================================== *)
(** * Amounts *)
(* ================================================================== *)

(** The model of [format(x, '.2f')] and of [float(s)] on values whose
    Python results are known: 2.675 and 0.125 lie at or below the
    midpoint and print rounded down, 0.005 lies above it; [1e23] prints
    all the digits of the binary value. *)
Example format_2_675 :
  format_2f (S754_finite false 6023564501608038 (-51)) = lit "2.67".
Proof. vm_compute. reflexivity. Qed.

Example format_0_125 :
  format_2f (S754_finite false 4503599627370496 (-55)) = lit "0.12".
Proof. vm_compute. reflexivity. Qed.

Example format_0_005 :
  format_2f (S754_finite false 5764607523034235 (-60)) = lit "0.01".
Proof. vm_compute. reflexivity. Qed.

Example format_1e23 :
  format_2f (S754_finite false 5960464477539062 24)
  = lit "99999999999999991611392.00".
Proof. vm_compute. reflexivity. Qed.

Example float_of_2_675 :
  float_of_str (lit " 2.675 ")
  = Some (S754_finite false 6023564501608038 (-51)).
Proof. vm_compute. reflexivity. Qed.

Example float_of_separators :
  float_of_str (lit "1_000.5e-1")
  = Some (S754_finite false 7040392854975283 (-46))
  /\ float_of_str (lit "1__0") = None
  /\ float_of_str (lit "-Infinity") = Some (S754_infinity true)
  /\ float_of_str (lit "1e400") = Some (S754_infinity false)
  /\ float_of_str (lit "12,5") = None
  /\ float_of_str [] = None.
Proof. repeat split; vm_compute; reflexivity. Qed.

Lemma replace_app old new a b :
  replace old new (a ++ b) = replace old new a ++ replace old new b.
Proof. apply flat_map_app. Qed.

(** The three replacements amount to one pass over the text. *)
Lemma clean_importe_one_pass s : clean_importe s = flat_map clean_char s.
Proof.
  unfold clean_importe, replace.
  induction s as [|c s IH]; [reflexivity|].
  cbn [flat_map]. rewrite !flat_map_app, IH. f_equal.
  unfold clean_char, dot, comma, euro.
  destruct (c =? 46)%N eqn:E1; [reflexivity|].
  cbn [flat_map app].
  destruct (c =? 44)%N eqn:E2; cbn [flat_map app]; [reflexivity|].
  now destruct (c =? 8364)%N.
Qed.


Lemma isdigit_range c : isdigit c = true <-> (48 <= c <= 57)%N.
Proof. unfold isdigit. rewrite andb_true_iff, !N.leb_le. tauto. Qed.



Lemma lstrip_by_head f c s : f c = false -> lstrip_by f (c :: s) = c :: s.
Proof. intros H. cbn. now rewrite H. Qed.












Lemma clean_keeps s :
  Forall (fun c => c <> dot /\ c <> comma /\ c <> euro) s ->
  clean_importe s = s.
Proof.
  rewrite clean_importe_one_pass.
  induction 1 as [|c s (H1 & H2 & H3) _ IH]; [reflexivity|].
  cbn [flat_map]. rewrite IH. unfold clean_char.
  now rewrite (proj2 (N.eqb_neq _ _) H1), (proj2 (N.eqb_neq _ _) H2),
              (proj2 (N.eqb_neq _ _) H3).
Qed.

(** ** The texts that [float] refuses *)
















(** ** The frame *)

Lemma mapM_Forall2 {A B : Type} (f : A -> result B) l :
  forall l', mapM f l = Ok l' -> Forall2 (fun a b => f a = Ok b) l l'.
Proof.
  induction l as [|a l IH]; intros l'; cbn [mapM].
  - intros H; inversion H. constructor.
  - destruct (f a) as [b|e] eqn:Ea; cbn [bind]; [|discriminate].
    destruct (mapM f l) as [bs|e]; cbn [bind]; [|discriminate].
    intros H; inversion H; subst. constructor; [assumption | now apply IH].
Qed.


Lemma abs_unsigned x : signbit (Float.abs x) = false.
Proof. now destruct x. Qed.

Lemma tipo_of_cases x : tipo_of x = Debit \/ tipo_of x = Credit.
Proof. unfold tipo_of. destruct (Float.ltb x zero); auto. Qed.


Section FrameFacts.

Variable to_datetime : str -> result timestamp.

(** The rows of the normalized frame, line by line. *)
Lemma normalize_rows csv df :
  normalize to_datetime csv = Ok df ->
  Forall2 (fun line r =>
             Concepto r = csv_concepto line
             /\ parse_fecha to_datetime (csv_fecha line) = Ok (Fecha_valor r)
             /\ Category r = UNCATEGORIZED_CATEGORY
             /\ exists x, parse_importe (csv_importe line) = Ok x
                          /\ Importe r = Float.abs x
                          /\ Tipo r = tipo_of x) csv df.
Proof.
  unfold normalize.
  destruct (str_accessor (map csv_importe csv)); cbn [bind]; [|discriminate].
  destruct (mapM (fun r => parse_importe (csv_importe r)) csv)
    as [importes|e] eqn:Ei; cbn [bind]; [|discriminate].
  destruct (mapM (fun r => parse_fecha to_datetime (csv_fecha r)) csv)
    as [fechas|e] eqn:Ef; cbn [bind]; [|discriminate].
  intros H; inversion H; subst; clear H.
  apply mapM_Forall2 in Ei. apply mapM_Forall2 in Ef.
  revert fechas Ef.
  induction Ei as [|line x csv importes Hx _ IH]; intros fechas Ef;
    inversion Ef; subst; cbn [combine map]; constructor.
  - cbn. repeat split; try assumption. exists x. now repeat split.
  - now apply IH.
Qed.


End FrameFacts.




(* ================================================================== *)
(** * Rows that fail *)
(* ================================================================== *)






Section RejectedLoads.

Variable lower : str -> str.
Variable to_datetime : str -> result timestamp.
Variable read_dates : list str -> bool.





End RejectedLoads.




(* ================================================================== *)
(** * Loading the table *)
(* ================================================================== *)

Lemma text_compare_refl a : text_compare a a = Eq.
Proof.
  induction a as [|x a IH]; cbn; [reflexivity|]. now rewrite N.compare_refl.
Qed.

Lemma text_compare_antisym a :
  forall b, text_compare b a = CompOpp (text_compare a b).
Proof.
  induction a as [|x a IH]; intros [|y b]; cbn; try reflexivity.
  rewrite (N.compare_antisym x y).
  destruct (x ?= y)%N; cbn; auto.
Qed.

Lemma text_ge_trans a :
  forall b c, text_ge a b -> text_ge b c -> text_ge a c.
Proof.
  unfold text_ge.
  induction a as [|x a IH]; intros [|y b] [|z c]; cbn;
    try congruence; try tauto.
  destruct (N.compare_spec x y), (N.compare_spec y z), (N.compare_spec x z);
    try congruence; try lia; try tauto.
  apply IH.
Qed.

Lemma text_ge_total a b : text_compare a b = Lt -> text_ge b a.
Proof.
  unfold text_ge. rewrite (text_compare_antisym a b). intros ->. discriminate.
Qed.

Lemma insert_desc_perm t rows : Permutation (t :: rows) (insert_desc t rows).
Proof.
  induction rows as [|u rows IH]; cbn [insert_desc]; [reflexivity|].
  destruct (text_compare (fecha_valor t) (fecha_valor u)); try reflexivity.
  rewrite perm_swap. now constructor.
Qed.

Lemma insert_desc_sorted t rows :
  StronglySorted (fun a b => text_ge (fecha_valor a) (fecha_valor b)) rows ->
  StronglySorted (fun a b => text_ge (fecha_valor a) (fecha_valor b))
                 (insert_desc t rows).
Proof.
  induction 1 as [|u rows Hs IH Hu]; cbn [insert_desc].
  - repeat constructor.
  - destruct (text_compare (fecha_valor t) (fecha_valor u)) eqn:E.
    + constructor; [now constructor|]. constructor.
      * unfold text_ge. now rewrite E.
      * eapply Forall_impl; [|exact Hu]. intros v Hv.
        eapply text_ge_trans; [|exact Hv]. unfold text_ge. now rewrite E.
    + constructor; [exact IH|].
      apply (Permutation_Forall (insert_desc_perm t rows)).
      constructor; [now apply text_ge_total | exact Hu].
    + constructor; [now constructor|]. constructor.
      * unfold text_ge. now rewrite E.
      * eapply Forall_impl; [|exact Hu]. intros v Hv.
        eapply text_ge_trans; [|exact Hv]. unfold text_ge. now rewrite E.
Qed.

(** The query has a result for every table: the stable sort is one. *)
Lemma spec_load_all_admissible db :
  load_all_transactions db (spec_load_all db).
Proof.
  unfold load_all_transactions, spec_load_all.
  induction db as [|t db [IHp IHs]]; cbn [fold_right].
  - split; constructor.
  - split.
    + rewrite <- insert_desc_perm. now constructor.
    + now apply insert_desc_sorted.
Qed.

(** Zero-padded decimal numerals, checked value by value. *)
Lemma below_checked (P : N -> bool) (bound : nat) :
  forallb P (map N.of_nat (seq 0 bound)) = true ->
  forall n, (n < N.of_nat bound)%N -> P n = true.
Proof.
  intros H n Hn. rewrite forallb_forall in H. apply H.
  apply in_map_iff. exists (N.to_nat n). split; [apply N2Nat.id|].
  apply in_seq. lia.
Qed.

Lemma zfill4_dig4 y : (y < 10000)%N -> zfill 4 (of_N y) = dig4 y.
Proof.
  intros Hy. apply eqb_eq.
  apply (below_checked (fun y => Str.eqb (zfill 4 (of_N y)) (dig4 y)) 10000);
    [vm_compute; reflexivity | exact Hy].
Qed.

Lemma zfill2_dig2 m : (m < 100)%N -> zfill 2 (of_N m) = dig2 m.
Proof.
  intros Hm. apply eqb_eq.
  apply (below_checked (fun m => Str.eqb (zfill 2 (of_N m)) (dig2 m)) 100);
    [vm_compute; reflexivity | exact Hm].
Qed.

Lemma compare_shift a b : (48 + a ?= 48 + b)%N = (a ?= b)%N.
Proof.
  destruct (N.compare_spec a b) as [->|H|H].
  - apply N.compare_refl.
  - apply N.compare_lt_iff. lia.
  - apply N.compare_gt_iff. lia.
Qed.

(** Numerals of one width compare as the numbers they denote. *)
Lemma dig2_compare m1 m2 r1 r2 :
  (m1 < 100)%N -> (m2 < 100)%N ->
  text_compare (dig2 m1 ++ r1) (dig2 m2 ++ r2)
  = match (m1 ?= m2)%N with
    | Eq => text_compare r1 r2
    | c => c
    end.
Proof.
  intros H1 H2. unfold dig2. cbn [app text_compare].
  rewrite !compare_shift. by_digits.
Qed.

Lemma dig4_compare y1 y2 r1 r2 :
  (y1 < 10000)%N -> (y2 < 10000)%N ->
  text_compare (dig4 y1 ++ r1) (dig4 y2 ++ r2)
  = match (y1 ?= y2)%N with
    | Eq => text_compare r1 r2
    | c => c
    end.
Proof.
  intros H1 H2. unfold dig4. cbn [app text_compare].
  rewrite !compare_shift. by_digits.
Qed.

Lemma valid_bounds d :
  Date.valid d -> (year d < 10000 /\ month d < 100 /\ day d < 100)%N.
Proof.
  unfold Date.valid, days_in_month. intros (Hy & Hm & Hd).
  repeat split; try lia.
  destruct (month d =? 2)%N; [destruct (is_leap (year d))|
    destruct ((month d =? 4) || (month d =? 6) || (month d =? 9)
              || (month d =? 11))%N]; lia.
Qed.

Lemma strftime_ymd_digits d :
  Date.valid d ->
  strftime_ymd d
  = dig4 (year d) ++ minus :: dig2 (month d) ++ minus :: dig2 (day d) ++ [].
Proof.
  intros Hv. destruct (valid_bounds Hv) as (Hy & Hm & Hd).
  unfold strftime_ymd.
  rewrite (zfill4_dig4 Hy), (zfill2_dig2 Hm), (zfill2_dig2 Hd).
  now rewrite app_nil_r.
Qed.

(** The ISO text of dates orders them as the calendar does. *)
Lemma strftime_ymd_compare a b :
  Date.valid a -> Date.valid b ->
  text_compare (strftime_ymd a) (strftime_ymd b) = Date.compare a b.
Proof.
  intros Ha Hb.
  destruct (valid_bounds Ha) as (Hya & Hma & Hda).
  destruct (valid_bounds Hb) as (Hyb & Hmb & Hdb).
  rewrite (strftime_ymd_digits Ha), (strftime_ymd_digits Hb).
  rewrite dig4_compare by assumption. unfold Date.compare.
  destruct (year a ?= year b)%N; try reflexivity.
  cbn [text_compare]. rewrite N.compare_refl.
  rewrite dig2_compare by assumption.
  destruct (month a ?= month b)%N; try reflexivity.
  cbn [text_compare]. rewrite N.compare_refl.
  rewrite dig2_compare by assumption.
  destruct (day a ?= day b)%N; reflexivity.
Qed.

Lemma text_ge_not_earlier a b :
  text_ge (fecha_valor a) (fecha_valor b) -> not_earlier a b.
Proof.
  unfold text_ge, not_earlier, Date.le. intros H da db Hva Hvb Ea Eb.
  rewrite Ea, Eb in H. rewrite (strftime_ymd_compare Hva Hvb) in H.
  rewrite <- (strftime_ymd_compare Hvb Hva).
  rewrite text_compare_antisym, (strftime_ymd_compare Hva Hvb).
  destruct (Date.compare da db); cbn; congruence.
Qed.

(** C6, amended: [load_all_transactions] has a result for every table;
    each result holds every stored row exactly once, and lists the rows
    by date, latest first.  The query fixes no order among rows of one
    date. *)
Theorem load_all_by_date_descending (db : table) :
  (exists rows, load_all_transactions db rows)
  /\ (forall rows,
        load_all_transactions db rows ->
        Permutation db rows /\ StronglySorted not_earlier rows).
Proof.
  split.
  - exists (spec_load_all db). apply spec_load_all_admissible.
  - intros rows [Hp Hs]. split; [exact Hp|].
    clear Hp. induction Hs as [|t rows _ IH Ht]; [constructor|].
    constructor; [exact IH|].
    eapply Forall_impl; [|exact Ht]. intros u. apply text_ge_not_earlier.
Qed.

Lemma load_all_by_date_descending_witness :
  Permutation [Sample.stored_coffee; Sample.stored_rent]
              [Sample.stored_rent; Sample.stored_coffee]
  /\ StronglySorted not_earlier [Sample.stored_rent; Sample.stored_coffee].
Proof.
  refine (proj2 (load_all_by_date_descending
                   [Sample.stored_coffee; Sample.stored_rent]) _ _).
  split.
  - apply perm_swap.
  - repeat constructor; unfold text_ge; vm_compute; discriminate.
Defined.

(** C6 as stated fails on two rows of one date: the query admits the
    result that lists the row stored last first, which is not the stable
    order. *)
Lemma load_all_ties_not_fixed :
  fecha_valor Sample.stored_rent = fecha_valor Sample.stored_garage
  /\ (id Sample.stored_rent < id Sample.stored_garage)%Z
  /\ spec_load_all [Sample.stored_rent; Sample.stored_garage]
     = [Sample.stored_rent; Sample.stored_garage]
  /\ load_all_transactions [Sample.stored_rent; Sample.stored_garage]
                           [Sample.stored_garage; Sample.stored_rent]
  /\ [Sample.stored_garage; Sample.stored_rent]
     <> spec_load_all [Sample.stored_rent; Sample.stored_garage].
Proof.
  repeat split; try reflexivity.
  - apply perm_swap.
  - repeat constructor; unfold text_ge; vm_compute; discriminate.
  - vm_compute. intros H. inversion H.
Qed.

(* ================================================================== *)
(** * The content hash *)
(* ================================================================== *)

(** The model of [hashlib.sha256] on the test vectors of FIPS 180-4,
    one and two blocks long, and on the empty message. *)
Example sha256_abc :
  sha256_hex (lit "abc")
  = Ok (lit "ba7816bf8f01cfea414140de5dae2223b00361a396177a9cb410ff61f20015ad").
Proof. vm_compute. reflexivity. Qed.

Example sha256_empty :
  sha256_hex []
  = Ok (lit "e3b0c44298fc1c149afbf4c8996fb92427ae41e4649b934ca495991b7852b855").
Proof. vm_compute. reflexivity. Qed.

Example sha256_two_blocks :
  sha256_hex (lit "abcdbcdecdefdefgefghfghighijhijkijkljklmklmnlmnomnopnopq")
  = Ok (lit "248d6a61d20638b8e5c026930c3e6039a33ce45964ff2167f6ecedd419db06c1").
Proof. vm_compute. reflexivity. Qed.

Example utf8_euro : Utf8.encode [euro; 233; 128512]%N
                    = Some [226; 130; 172; 195; 169; 240; 159; 152; 128]%N.
Proof. reflexivity. Qed.

Lemma split_first (sep : N) (a1 : str) :
  forall a2 r1 r2,
    ~ In sep a1 -> ~ In sep a2 ->
    a1 ++ sep :: r1 = a2 ++ sep :: r2 -> a1 = a2 /\ r1 = r2.
Proof.
  induction a1 as [|x a1 IH]; intros [|y a2] r1 r2 H1 H2 E; cbn in *.
  - inversion E. now split.
  - inversion E; subst. exfalso. apply H2. now left.
  - inversion E; subst. exfalso. apply H1. now left.
  - inversion E; subst.
    destruct (IH a2 r1 r2) as [-> ->]; auto.
Qed.

Lemma split_last (sep : N) (a1 a2 r1 r2 : str) :
  ~ In sep r1 -> ~ In sep r2 ->
  a1 ++ sep :: r1 = a2 ++ sep :: r2 -> a1 = a2 /\ r1 = r2.
Proof.
  intros H1 H2 E. apply (f_equal (@rev N)) in E.
  rewrite !rev_app_distr in E. cbn [rev] in E. rewrite <- !app_assoc in E.
  cbn [app] in E.
  apply split_first in E; try (rewrite <- in_rev; assumption).
  destruct E as [E1 E2].
  apply (f_equal (@rev N)) in E1, E2. rewrite !rev_involutive in E1, E2.
  now split.
Qed.

Lemma uint_codes_digits d : digits (uint_codes d).
Proof. induction d; cbn; constructor; auto. Qed.

Lemma uint_codes_inj d1 :
  forall d2, uint_codes d1 = uint_codes d2 -> d1 = d2.
Proof.
  induction d1; intros d2 H; destruct d2; cbn in H;
    try discriminate H; try reflexivity;
    injection H as H; f_equal; now apply IHd1.
Qed.

Lemma of_N_inj a b : of_N a = of_N b -> a = b.
Proof.
  unfold of_N. intros H. apply uint_codes_inj in H.
  now apply DecimalN.Unsigned.to_uint_inj.
Qed.

Lemma digits_without c s : isdigit c = false -> digits s -> ~ In c s.
Proof.
  intros Hc Hs Hin. unfold digits in Hs. rewrite Forall_forall in Hs.
  specialize (Hs c Hin). congruence.
Qed.

Lemma dig2_inj a b : (a < 100)%N -> (b < 100)%N -> dig2 a = dig2 b -> a = b.
Proof.
  unfold dig2. intros Ha Hb H.
  pose proof (f_equal (fun l => nth 0 l 0%N) H) as H1.
  pose proof (f_equal (fun l => nth 1 l 0%N) H) as H2.
  cbn [nth] in H1, H2. clear H.
  zify. Z.to_euclidean_division_equations. lia.
Qed.

Lemma fixed2_inj a b : fixed2 a = fixed2 b -> a = b.
Proof.
  unfold fixed2. cbn [app]. intros H.
  apply split_first in H;
    try (apply digits_without; [reflexivity | apply uint_codes_digits]).
  destruct H as [Hq Hr]. apply of_N_inj in Hq.
  assert (Ha : (a mod 100 < 100)%N) by (apply N.mod_lt; discriminate).
  assert (Hb : (b mod 100 < 100)%N) by (apply N.mod_lt; discriminate).
  rewrite (zfill2_dig2 Ha), (zfill2_dig2 Hb) in Hr.
  apply dig2_inj in Hr; try assumption.
  rewrite (N.div_mod a 100), (N.div_mod b 100) by discriminate.
  now rewrite Hq, Hr.
Qed.

Lemma fixed2_no_pipe c : ~ In pipe (fixed2 c).
Proof.
  unfold fixed2, zfill. rewrite !in_app_iff. cbn [In].
  intros [H|[[H|[]]|[H|H]]].
  - revert H. apply digits_without; [reflexivity | apply uint_codes_digits].
  - discriminate H.
  - apply repeat_spec in H. discriminate H.
  - revert H. apply digits_without; [reflexivity | apply uint_codes_digits].
Qed.

(** For a number, [format(abs(x), '.2f')] prints the hundredths of the
    magnitude. *)
Lemma format_abs_finite x :
  is_finite x = true -> format_2f (Float.abs x) = fixed2 (cents x).
Proof. destruct x; cbn; try discriminate; reflexivity. Qed.

Lemma strftime_ymd_no_pipe d : Date.valid d -> ~ In pipe (strftime_ymd d).
Proof.
  intros Hv. rewrite (strftime_ymd_digits Hv).
  destruct (valid_bounds Hv) as (Hy & Hm & Hd).
  unfold dig4, dig2, pipe, minus. cbn [In app].
  intros H. repeat (destruct H as [H|H]; [try discriminate H|]);
    try contradiction;
    zify; Z.to_euclidean_division_equations; lia.
Qed.

Lemma date_compare_eq a b : Date.compare a b = Eq -> a = b.
Proof.
  unfold Date.compare. destruct a as [y1 m1 d1], b as [y2 m2 d2]. cbn.
  destruct (N.compare_spec y1 y2); try discriminate.
  destruct (N.compare_spec m1 m2); try discriminate.
  destruct (N.compare_spec d1 d2); try discriminate.
  intros _. congruence.
Qed.

Lemma strftime_ymd_inj a b :
  Date.valid a -> Date.valid b -> strftime_ymd a = strftime_ymd b -> a = b.
Proof.
  intros Ha Hb E. apply date_compare_eq.
  rewrite <- (strftime_ymd_compare Ha Hb), E. apply text_compare_refl.
Qed.

(** The normalized text determines the key, and the key the text. *)
Lemma normalized_data_key d1 c1 x1 d2 c2 x2 :
  Date.valid d1 -> Date.valid d2 ->
  is_finite x1 = true -> is_finite x2 = true ->
  normalized_data (strftime_ymd d1) c1 x1
  = normalized_data (strftime_ymd d2) c2 x2
  <-> same_key d1 c1 x1 d2 c2 x2.
Proof.
  intros Hd1 Hd2 Hx1 Hx2. unfold normalized_data, same_key.
  rewrite (format_abs_finite _ Hx1), (format_abs_finite _ Hx2).
  cbn [app]. split.
  - intros E. apply split_first in E; try now apply strftime_ymd_no_pipe.
    destruct E as [Ed E]. apply split_last in E; try apply fixed2_no_pipe.
    destruct E as [Ec Ex].
    split; [now apply strftime_ymd_inj|]. split; [assumption|].
    now apply fixed2_inj.
  - intros (-> & -> & ->). reflexivity.
Qed.

(** ** Counting texts *)

Lemma words_over_length alphabet n :
  List.length (words_over alphabet n) = List.length alphabet ^ n.
Proof.
  induction n as [|n IH]; [reflexivity|].
  cbn [words_over].
  rewrite (flat_map_constant_length
             (c := List.length (words_over alphabet n))).
  - rewrite IH. now rewrite Nat.pow_succ_r'.
  - intros x _. apply length_map.
Qed.

Lemma words_over_In alphabet n w :
  List.length w = n -> Forall (fun c => In c alphabet) w ->
  In w (words_over alphabet n).
Proof.
  revert w. induction n as [|n IH]; intros [|c w] Hl Hw;
    try discriminate Hl.
  - now left.
  - inversion Hw; subst. cbn [words_over]. apply in_flat_map.
    exists c. split; [assumption|]. apply in_map. apply IH; auto.
Qed.

Lemma words_over_spec alphabet n w :
  In w (words_over alphabet n) ->
  List.length w = n /\ Forall (fun c => In c alphabet) w.
Proof.
  revert w. induction n as [|n IH]; intros w; cbn [words_over].
  - intros [<-|[]]. now split.
  - rewrite in_flat_map. intros (c & Hc & Hw). apply in_map_iff in Hw.
    destruct Hw as (w' & <- & Hw'). destruct (IH w' Hw') as [Hl Hf].
    split; [cbn; now f_equal | now constructor].
Qed.

Lemma NoDup_map_cons (c : N) (l : list str) :
  NoDup l -> NoDup (map (cons c) l).
Proof.
  induction 1 as [|w l Hw _ IH]; cbn [map]; constructor; [|exact IH].
  rewrite in_map_iff. intros (w' & E & Hin). inversion E; subst.
  contradiction.
Qed.

Lemma NoDup_prepend_each (alphabet : list N) (l : list str) :
  NoDup alphabet -> NoDup l ->
  NoDup (flat_map (fun c => map (cons c) l) alphabet).
Proof.
  intros Ha Hl.
  induction Ha as [|c alphabet Hc _ IHa]; cbn [flat_map]; [constructor|].
  apply NoDup_app; [now apply NoDup_map_cons | exact IHa|].
  intros w Hw Hw'. apply in_map_iff in Hw. destruct Hw as (w1 & <- & _).
  apply in_flat_map in Hw'. destruct Hw' as (c' & Hc' & Hw').
  apply in_map_iff in Hw'. destruct Hw' as (w2 & E & _).
  inversion E; subst. contradiction.
Qed.

Lemma words_over_NoDup alphabet n :
  NoDup alphabet -> NoDup (words_over alphabet n).
Proof.
  intros Ha. induction n as [|n IH]; cbn [words_over].
  - constructor; [intros []|constructor].
  - now apply NoDup_prepend_each.
Qed.

(** A map that is one-to-one on a list without repetitions cannot send
    it into a shorter list. *)
Lemma pigeonhole_into {A B : Type} (f : A -> B) (l : list A) (l' : list B) :
  NoDup l ->
  (forall x y, In x l -> In y l -> f x = f y -> x = y) ->
  (forall x, In x l -> In (f x) l') ->
  List.length l <= List.length l'.
Proof.
  intros Hnd Hinj Hinto.
  rewrite <- (length_map f l). apply NoDup_incl_length.
  - clear Hinto. induction Hnd as [|x l Hx _ IH]; cbn [map]; constructor.
    + rewrite in_map_iff. intros (y & E & Hy).
      assert (y = x) by (apply Hinj; [now right | now left | exact E]).
      subst. contradiction.
    + apply IH. intros a b Ha Hb. apply Hinj; now right.
  - intros y Hy. apply in_map_iff in Hy. destruct Hy as (x & <- & Hx).
    now apply Hinto.
Qed.

(** ** The shape of a digest *)

Lemma hexdigit_hex d : (d < 16)%N -> In (Sha256.hexdigit d) hexchars.
Proof.
  intros Hd.
  assert (H : existsb (N.eqb (Sha256.hexdigit d)) hexchars = true).
  { apply (below_checked
             (fun d => existsb (N.eqb (Sha256.hexdigit d)) hexchars) 16);
      [vm_compute; reflexivity | exact Hd]. }
  apply existsb_exists in H. destruct H as (c & Hin & E).
  apply N.eqb_eq in E. now rewrite E.
Qed.

Lemma hex_word_hex w : Forall (fun c => In c hexchars) (Sha256.hex_word w).
Proof.
  unfold Sha256.hex_word. apply Forall_forall. intros c Hc.
  apply in_map_iff in Hc. destruct Hc as (i & <- & _).
  apply hexdigit_hex. apply N.mod_lt. discriminate.
Qed.

(** A digest is 64 lowercase hexadecimal digits. *)
Lemma hexdigest_shape r :
  List.length (Sha256.hexdigest r) = 64
  /\ Forall (fun c => In c hexchars) (Sha256.hexdigest r).
Proof.
  split; [reflexivity|].
  unfold Sha256.hexdigest. repeat (apply Forall_app; split);
    apply hex_word_hex.
Qed.

(** ** Plain text *)

Lemma encode_ascii s :
  Forall (fun c => (c < 128)%N) s -> Utf8.encode s = Some s.
Proof.
  induction 1 as [|c s Hc _ IH]; cbn [Utf8.encode]; [reflexivity|].
  unfold Utf8.encode_char. rewrite (proj2 (N.ltb_lt _ _) Hc), IH. reflexivity.
Qed.

Lemma lstrip_keeps s :
  match s with [] => True | c :: _ => isspace c = false end ->
  lstrip s = s.
Proof. destruct s as [|c s]; [reflexivity|]. cbn. now intros ->. Qed.

Lemma strip_no_space s :
  Forall (fun c => isspace c = false) s -> strip s = s.
Proof.
  intros H. unfold strip, rstrip.
  rewrite (lstrip_keeps s) by (destruct H; auto).
  rewrite lstrip_keeps; [apply rev_involutive|].
  apply Forall_rev in H. destruct H; auto.
Qed.

(** The content hash of a description of letters [a] and [b], dated on
    New Year's Day with a null amount. *)
Lemma hash_of_letters w :
  Forall (fun c => In c [97; 98]%N) w ->
  generate_transaction_hash (strftime_ymd Sample.new_year) w zero
  = Ok (Sha256.hexdigest
          (Sha256.sha256
             (lit "2024-01-01" ++ [pipe] ++ w ++ [pipe] ++ lit "0.00")))
  /\ strip w = w.
Proof.
  intros Hw.
  assert (Hs : strip w = w).
  { apply strip_no_space. eapply Forall_impl; [|exact Hw].
    intros c [<-|[<-|[]]]; reflexivity. }
  split; [|exact Hs].
  unfold generate_transaction_hash, sha256_hex, normalized_data.
  rewrite Hs.
  change (strftime_ymd Sample.new_year) with (lit "2024-01-01").
  change (format_2f (Float.abs zero)) with (lit "0.00").
  rewrite encode_ascii; [reflexivity|].
  repeat (apply Forall_app; split);
    try (repeat constructor; fail).
  eapply Forall_impl; [|exact Hw].
  intros c [<-|[<-|[]]]; reflexivity.
Qed.

Lemma more_texts_than_digests :
  List.length (words_over hexchars 64)
  < List.length (words_over [97; 98]%N 257).
Proof.
  rewrite !words_over_length.
  change (List.length hexchars) with (2 ^ 4).
  change (List.length [97; 98]%N) with 2.
  rewrite <- Nat.pow_mul_r.
  apply Nat.pow_lt_mono_r; [repeat constructor|].
  change (4 * 64) with 256. apply Nat.lt_succ_diag_r.
Qed.

Lemma new_year_valid : Date.valid Sample.new_year.
Proof. unfold Date.valid. cbn. lia. Qed.

(** C1, amended: the content hash is the SHA-256 digest, as 64 lowercase
    hexadecimal digits, of the UTF-8 bytes of
    [{ISO date}|{trimmed description}|{magnitude with two decimals}].
    For valid records this text is the same exactly when the records
    agree on the date, on the trimmed description and on the hundredths
    of the magnitude; so records that agree have the same hash, whatever
    their sign, kind and category, and records with the same hash agree
    unless their two different texts have the same SHA-256 digest. *)
Theorem content_hash_key
        (d1 : date) (c1 : str) (x1 : float)
        (d2 : date) (c2 : str) (x2 : float) :
  Date.valid d1 -> Date.valid d2 ->
  is_finite x1 = true -> is_finite x2 = true ->
  generate_transaction_hash (strftime_ymd d1) c1 x1
  = sha256_hex (strftime_ymd d1 ++ [pipe] ++ strip c1 ++ [pipe]
                             ++ fixed2 (cents x1))
  /\ (forall h,
        generate_transaction_hash (strftime_ymd d1) c1 x1 = Ok h ->
        List.length h = 64 /\ Forall (fun c => In c hexchars) h)
  /\ (normalized_data (strftime_ymd d1) c1 x1
      = normalized_data (strftime_ymd d2) c2 x2
      <-> same_key d1 c1 x1 d2 c2 x2)
  /\ (same_key d1 c1 x1 d2 c2 x2 ->
      forall tp1 cat1 tp2 cat2,
        content_hash (Row (Timestamp d1) (Some c1) x1 tp1 cat1)
        = content_hash (Row (Timestamp d2) (Some c2) x2 tp2 cat2))
  /\ generate_transaction_hash (strftime_ymd d1) c1 (SFopp x1)
     = generate_transaction_hash (strftime_ymd d1) c1 x1
  /\ (forall h1 h2,
        generate_transaction_hash (strftime_ymd d1) c1 x1 = Ok h1 ->
        generate_transaction_hash (strftime_ymd d2) c2 x2 = Ok h2 ->
        h1 = h2 ->
        same_key d1 c1 x1 d2 c2 x2
        \/ (normalized_data (strftime_ymd d1) c1 x1
            <> normalized_data (strftime_ymd d2) c2 x2
            /\ sha256_hex (normalized_data (strftime_ymd d1) c1 x1)
               = sha256_hex (normalized_data (strftime_ymd d2) c2 x2))).
Proof.
  intros Hd1 Hd2 Hx1 Hx2.
  pose proof (@normalized_data_key d1 c1 x1 d2 c2 x2 Hd1 Hd2 Hx1 Hx2) as Hkey.
  split; [|split; [|split; [|split; [|split]]]].
  - unfold generate_transaction_hash, normalized_data.
    now rewrite (format_abs_finite _ Hx1).
  - unfold generate_transaction_hash, sha256_hex. intros h.
    destruct (Utf8.encode _); [|discriminate].
    intros E; inversion E; subst. apply hexdigest_shape.
  - exact Hkey.
  - intros Hsame tp1 cat1 tp2 cat2. unfold content_hash.
    cbn [Fecha_valor Concepto Importe strftime bind].
    unfold generate_transaction_hash. rewrite (proj2 Hkey Hsame).
    destruct Hsame as (-> & _). reflexivity.
  - unfold generate_transaction_hash, normalized_data.
    now destruct x1.
  - intros h1 h2 E1 E2 Eh.
    destruct (str_eq_dec (normalized_data (strftime_ymd d1) c1 x1)
                         (normalized_data (strftime_ymd d2) c2 x2))
      as [En|Hn].
    + left. now apply Hkey.
    + right. split; [exact Hn|].
      unfold generate_transaction_hash in E1, E2. congruence.
Qed.

Lemma content_hash_key_witness :
  content_hash (Row (Timestamp (Date 2024 1 15))
                    (Some (lit " CAFE CENTRAL ")) Sample.f12_50
                    Credit (lit "Restaurants"))
  = content_hash (Row (Timestamp (Date 2024 1 15))
                      (Some (lit "CAFE CENTRAL"))
                      (SFopp Sample.f12_50) Debit UNCATEGORIZED_CATEGORY).
Proof.
  refine (proj1 (proj2 (proj2 (proj2
            (@content_hash_key (Date 2024 1 15) (lit " CAFE CENTRAL ")
                               Sample.f12_50
                               (Date 2024 1 15) (lit "CAFE CENTRAL")
                               (SFopp Sample.f12_50) _ _ _ _)))) _
                Credit (lit "Restaurants") Debit UNCATEGORIZED_CATEGORY).
  - unfold Date.valid. cbn. lia.
  - unfold Date.valid. cbn. lia.
  - reflexivity.
  - reflexivity.
  - repeat split.
Defined.

(** C1 as stated, with hashes equal only for records that agree, cannot
    hold: the descriptions of 257 letters [a] and [b] alone are more
    than the digests of 64 hexadecimal digits, so two of them, which do
    not agree, have the same hash. *)
Lemma content_hash_not_injective :
  ~ (forall d1 c1 x1 d2 c2 x2 h1 h2,
        Date.valid d1 -> Date.valid d2 ->
        is_finite x1 = true -> is_finite x2 = true ->
        generate_transaction_hash (strftime_ymd d1) c1 x1 = Ok h1 ->
        generate_transaction_hash (strftime_ymd d2) c2 x2 = Ok h2 ->
        (h1 = h2 <-> same_key d1 c1 x1 d2 c2 x2)).
Proof.
  intros Hclaim.
  apply (Nat.lt_irrefl (List.length (words_over hexchars 64))).
  eapply Nat.lt_le_trans; [apply more_texts_than_digests|].
  apply (pigeonhole_into
           (fun w => Sha256.hexdigest
                       (Sha256.sha256
                          (lit "2024-01-01" ++ [pipe] ++ w ++ [pipe]
                               ++ lit "0.00")))).
  - apply words_over_NoDup. repeat constructor; cbn; intuition discriminate.
  - intros w1 w2 H1 H2 E.
    apply words_over_spec in H1, H2. destruct H1 as [_ H1], H2 as [_ H2].
    destruct (hash_of_letters H1) as [E1 S1].
    destruct (hash_of_letters H2) as [E2 S2].
    destruct (proj1 (Hclaim Sample.new_year w1 zero Sample.new_year w2 zero
                            _ _ new_year_valid new_year_valid
                            eq_refl eq_refl E1 E2) E) as (_ & Hs & _).
    congruence.
  - intros w Hw. apply words_over_In; apply hexdigest_shape.
Qed.

(* ================================================================== *)
(** * More on insertion *)
(* ================================================================== *)

(** What the [try] does with a row, in full: it raises, or ignores the
    row, or appends the row's own columns under its hash; a statement
    that runs takes the next rowid either way. *)
Lemma try_insert_appends now seq db r db' seq' rowcount :
  try_insert now seq db r = Ok (db', seq', rowcount) ->
  exists d c h,
    Fecha_valor r = Timestamp d /\ Concepto r = Some c
    /\ generate_transaction_hash (strftime_ymd d) c (Importe r) = Ok h
    /\ seq' = next_id seq db
    /\ ((db' = db /\ rowcount = 0
         /\ (is_nan (Importe r) = true \/ In h (hashes db)))
        \/ (db' = db ++ [Transaction (next_id seq db) h (strftime_ymd d) c
                                     (Importe r) (Tipo r) (Category r)
                                     now now]
            /\ rowcount = 1
            /\ is_nan (Importe r) = false /\ ~ In h (hashes db))).
Proof.
  unfold try_insert, strftime.
  destruct (Fecha_valor r) as [|d]; cbn [bind]; [discriminate|].
  destruct (Concepto r) as [c|]; [|discriminate].
  destruct (generate_transaction_hash (strftime_ymd d) c (Importe r))
    as [h|e] eqn:Eh; cbn [bind]; [|discriminate].
  intros H. exists d, c, h.
  split; [reflexivity|]. split; [reflexivity|]. split; [exact Eh|].
  unfold insert_or_ignore in H.
  destruct (is_nan (Importe r)) eqn:Ex; cbn [orb] in H.
  - inversion H; subst. split; [reflexivity|]. left. auto.
  - destruct (transaction_exists db h) eqn:Et; inversion H; subst;
      (split; [reflexivity|]).
    + left. apply transaction_exists_In in Et. auto.
    + right. apply transaction_exists_not_In in Et. auto.
Qed.

(** Whether the [try] raises depends on the date, the description and
    the amount of the row alone. *)
Lemma try_insert_raises now seq db r e :
  try_insert now seq db r = Raise e ->
  forall r2 now' seq2 db',
    same_but_category r r2 -> try_insert now' seq2 db' r2 = Raise e.
Proof.
  unfold try_insert. intros H r2 now' seq2 db' (-> & -> & -> & _).
  destruct (strftime (Fecha_valor r)) as [f|e']; cbn [bind] in *;
    [|exact H].
  destruct (Concepto r) as [c|]; [|exact H].
  destruct (generate_transaction_hash f c (Importe r)) as [h|e'];
    cbn [bind] in *; [discriminate | exact H].
Qed.

Lemma same_but_category_hash r r2 :
  same_but_category r r2 -> content_hash r2 = content_hash r.
Proof. unfold content_hash. now intros (-> & -> & -> & _). Qed.

Lemma same_but_category_refl df : Forall2 same_but_category df df.
Proof. induction df; constructor; [now repeat split | assumption]. Qed.

(** A row that cannot be written to a table cannot be written to a
    table that has all its hashes. *)
Lemma try_insert_skips now seq db r h :
  content_hash r = Ok h ->
  is_nan (Importe r) = true \/ In h (hashes db) ->
  try_insert now seq db r = Ok (db, next_id seq db, 0).
Proof.
  intros Hh Hskip.
  destruct (try_insert_hashed now seq db r Hh) as (f & c & _ & ->).
  destruct (insert_or_ignore_cases now seq db h f c (Importe r) (Tipo r)
                                   (Category r))
    as [[-> _]|(t & _ & _ & Hn & Hx)]; [reflexivity|].
  destruct Hskip; [congruence | contradiction].
Qed.

Lemma content_hash_of_parts r d c h :
  Fecha_valor r = Timestamp d -> Concepto r = Some c ->
  generate_transaction_hash (strftime_ymd d) c (Importe r) = Ok h ->
  content_hash r = Ok h.
Proof.
  intros Hd Hc Hh. unfold content_hash. rewrite Hd, Hc. exact Hh.
Qed.

(** Every row the loop appends is a row of the batch, stored under its
    hash with its own columns. *)
Lemma insert_loop_stores df :
  forall clock i seq db n d db' seq' n' d',
    insert_loop clock i seq db n d df = Ok (db', seq', (n', d')) ->
    exists added,
      db' = db ++ added
      /\ Forall (fun t =>
                   exists r, In r df
                             /\ content_hash r = Ok (transaction_hash t)
                             /\ is_nan (Importe r) = false
                             /\ frame_columns r = Some (columns t)) added
      /\ (forall r h, In r df -> content_hash r = Ok h ->
                      is_nan (Importe r) = false -> In h (hashes db')).
Proof.
  induction df as [|r df IH]; intros clock i seq db n d db' seq' n' d';
    cbn [insert_loop].
  - intros H; inversion H; subst. exists []. rewrite app_nil_r.
    repeat split; [constructor | intros r h []].
  - destruct (try_insert (clock i) seq db r) as [[[db1 seq1] rc]|e] eqn:Et.
    + destruct (try_insert_appends _ _ _ _ Et)
        as (dt & c & h & Hd & Hc & Hh & _ & Hcase).
      pose proof (content_hash_of_parts r Hd Hc Hh) as Hr.
      assert (Hrest : insert_loop clock (S i) seq1 db1
                                  (if (0 <? rc)%nat then S n else n)
                                  (if (0 <? rc)%nat then d else S d) df
                      = Ok (db', seq', (n', d')) ->
                      exists added,
                        db' = db1 ++ added
                        /\ Forall (fun t =>
                                     exists r0, In r0 df
                                       /\ content_hash r0
                                          = Ok (transaction_hash t)
                                       /\ is_nan (Importe r0) = false
                                       /\ frame_columns r0
                                          = Some (columns t)) added
                        /\ (forall r0 h0, In r0 df ->
                                          content_hash r0 = Ok h0 ->
                                          is_nan (Importe r0) = false ->
                                          In h0 (hashes db'))) by apply IH.
      destruct (0 <? rc)%nat eqn:Erc; intros H;
        destruct (Hrest H) as (added & -> & Hadded & Hin);
        destruct Hcase as [(-> & -> & Hskip)|(-> & -> & Hx & Hfresh)];
        try discriminate Erc.
      * eexists (_ :: added).
        split; [rewrite <- app_assoc; reflexivity|].
        split.
        -- constructor.
           ++ exists r. cbn. repeat split; auto.
              unfold frame_columns. now rewrite Hd, Hc.
           ++ eapply Forall_impl; [|exact Hadded].
              intros t (r0 & ? & ?). exists r0. split; [now right|assumption].
        -- intros r0 h0 [<-|Hr0] Hh0 Hx0; [|now apply (Hin r0)].
           rewrite Hr in Hh0. inversion Hh0; subst.
           rewrite !hashes_app, !in_app_iff. left. right. now left.
      * exists added. split; [reflexivity|]. split.
        -- eapply Forall_impl; [|exact Hadded].
           intros t (r0 & ? & ?). exists r0. split; [now right|assumption].
        -- intros r0 h0 [<-|Hr0] Hh0 Hx0; [|now apply (Hin r0)].
           rewrite Hr in Hh0. inversion Hh0; subst.
           destruct Hskip as [Hnan|Hdb]; [congruence|].
           rewrite hashes_app, in_app_iff. now left.
    + destruct (handler r); cbn [bind]; [|discriminate].
      intros H.
      destruct (IH _ _ _ _ _ _ _ _ _ _ H) as (added & -> & Hadded & Hin).
      exists added. split; [reflexivity|]. split.
      * eapply Forall_impl; [|exact Hadded].
        intros t (r0 & ? & ?). exists r0. split; [now right|assumption].
      * intros r0 h0 [<-|Hr0] Hh0 Hx0; [|now apply (Hin r0)].
        exfalso. unfold content_hash in Hh0. unfold try_insert in Et.
        destruct (strftime (Fecha_valor r)); cbn [bind] in *;
          [|discriminate].
        destruct (Concepto r); [|discriminate].
        rewrite Hh0 in Et. discriminate.
Qed.

(** X1: after [insert_transactions] has returned, [transaction_exists]
    finds the hash of every row of the batch that has one and whose
    amount is a number, and still finds every hash it found before. *)
Theorem inserted_hashes_exist
        (clock : nat -> Z) (seq : Z) (db db' : table) (df : list row)
        (n d : nat) :
  insert_transactions clock seq db df = (db', Ok (n, d)) ->
  (forall r h, In r df -> content_hash r = Ok h ->
               is_nan (Importe r) = false ->
               transaction_exists db' h = true)
  /\ (forall h, transaction_exists db h = true ->
                transaction_exists db' h = true).
Proof.
  unfold insert_transactions.
  destruct (insert_loop clock 0 seq db 0 0 df) as [[[db1 seq1] [n1 d1]]|e]
    eqn:E; [|discriminate].
  intros H; inversion H; subst.
  destruct (insert_loop_stores _ _ _ _ _ _ _ E) as (added & -> & _ & Hin).
  split.
  - intros r h Hr Hh Hx. apply transaction_exists_In. now apply (Hin r).
  - intros h Hh. apply transaction_exists_In in Hh.
    apply transaction_exists_In. rewrite hashes_app, in_app_iff. now left.
Qed.

Lemma inserted_hashes_exist_witness :
  transaction_exists
    (fst (insert_transactions Sample.noon 0 [] [Sample.coffee; Sample.rent]))
    Sample.rent_hash = true.
Proof.
  refine (proj1 (@inserted_hashes_exist
                   Sample.noon 0%Z []
                   (fst (insert_transactions Sample.noon 0 []
                                             [Sample.coffee; Sample.rent]))
                   [Sample.coffee; Sample.rent] 2 0 _)
                Sample.rent Sample.rent_hash _ _ _).
  - vm_compute. reflexivity.
  - right. left. reflexivity.
  - vm_compute. reflexivity.
  - reflexivity.
Defined.

(** A second pass over a batch, with other categories or the same, on
    any table that has the hashes the first pass left, writes
    nothing. *)
Lemma insert_loop_again df :
  forall df2 clock i seq db n d db' seq' n' d',
    Forall2 same_but_category df df2 ->
    insert_loop clock i seq db n d df = Ok (db', seq', (n', d')) ->
    forall clock2 j seq2 T m e,
      incl (hashes db') (hashes T) ->
      exists seq2',
        insert_loop clock2 j seq2 T m e df2
        = Ok (T, seq2', (m, e + List.length df)).
Proof.
  induction df as [|r df IH];
    intros df2 clock i seq db n d db' seq' n' d' Hsame H clock2 j seq2 T m e
           Hincl;
    inversion Hsame as [|? r2 ? df2' Hr2 Hrest]; subst;
    cbn [insert_loop List.length] in *.
  - rewrite Nat.add_0_r. now exists seq2.
  - replace (e + S (List.length df)) with (S e + List.length df) by lia.
    destruct (try_insert (clock i) seq db r) as [[[db1 seq1] rc]|ex] eqn:Et.
    + destruct (try_insert_appends _ _ _ _ Et)
        as (dt & c & h & Hd & Hc & Hh & _ & Hcase).
      pose proof (content_hash_of_parts r Hd Hc Hh) as Hr.
      rewrite <- (same_but_category_hash Hr2) in Hr.
      assert (Hx2 : Importe r2 = Importe r) by apply Hr2.
      assert (Hloop : exists n1 d1,
                 insert_loop clock (S i) seq1 db1 n1 d1 df
                 = Ok (db', seq', (n', d'))).
      { destruct (0 <? rc)%nat; eauto. }
      destruct Hloop as (n1 & d1 & Hloop).
      destruct (insert_loop_invariant _ _ _ _ _ _ _ Hloop)
        as (added & Hdb' & _).
      rewrite (@try_insert_skips (clock2 j) seq2 T r2 h Hr).
      * cbn [Nat.ltb Nat.leb]. eapply IH; eassumption.
      * rewrite Hx2.
        destruct Hcase as [(-> & _ & [Hnan|Hin])|(-> & _ & _ & _)].
        -- now left.
        -- right. apply Hincl. rewrite Hdb', hashes_app, in_app_iff.
           now left.
        -- right. apply Hincl. rewrite Hdb', !hashes_app, !in_app_iff.
           left. right. now left.
    + rewrite (@try_insert_raises _ _ _ _ _ Et r2 (clock2 j) seq2 T Hr2).
      assert (Hh : handler r2 = handler r).
      { unfold handler. destruct Hr2 as (_ & -> & _). reflexivity. }
      rewrite Hh.
      destruct (handler r); cbn [bind] in *; [|discriminate].
      eapply IH; eassumption.
Qed.

Lemma insert_transactions_again clock clock2 seq seq2 db db' df df2 T n d :
  insert_transactions clock seq db df = (db', Ok (n, d)) ->
  Forall2 same_but_category df df2 ->
  incl (hashes db') (hashes T) ->
  insert_transactions clock2 seq2 T df2 = (T, Ok (0, n + d)).
Proof.
  unfold insert_transactions.
  destruct (insert_loop clock 0 seq db 0 0 df) as [[[db1 seq1] [n1 d1]]|e]
    eqn:E; [|discriminate].
  intros H Hsame Hincl; inversion H; subst.
  destruct (insert_loop_again _ _ _ _ _ _ Hsame E clock2 0 seq2 T 0 0 Hincl)
    as (seq2' & ->).
  destruct (insert_loop_invariant _ _ _ _ _ _ _ E) as (_ & _ & _ & Hs & _).
  cbn [Nat.add] in *. now rewrite Hs.
Qed.

(** X2: [insert_transactions] is idempotent on every batch on which it
    returns, whatever the batch holds (repeated records, amounts that
    are not numbers, rows without a date): a second call on the
    resulting table writes nothing and reports every row as a
    duplicate. *)
Theorem insert_transactions_idempotent
        (clock clock2 : nat -> Z) (seq seq2 : Z) (db db' : table)
        (df : list row) (n d : nat) :
  insert_transactions clock seq db df = (db', Ok (n, d)) ->
  insert_transactions clock2 seq2 db' df = (db', Ok (0, n + d)).
Proof.
  intros H.
  exact (@insert_transactions_again clock clock2 seq seq2 db db' df df db'
                                    n d H (same_but_category_refl df)
                                    (incl_refl _)).
Qed.

Lemma insert_transactions_idempotent_witness :
  insert_transactions
    Sample.noon 3
    (fst (insert_transactions Sample.noon 0 []
            [Sample.coffee; Sample.undated; Sample.coffee; Sample.rent]))
    [Sample.coffee; Sample.undated; Sample.coffee; Sample.rent]
  = (fst (insert_transactions Sample.noon 0 []
            [Sample.coffee; Sample.undated; Sample.coffee; Sample.rent]),
     Ok (0, 2 + 2)).
Proof.
  refine (@insert_transactions_idempotent
            Sample.noon Sample.noon 0%Z 3%Z [] _
            [Sample.coffee; Sample.undated; Sample.coffee; Sample.rent]
            2 2 _).
  vm_compute. reflexivity.
Defined.

(** X3: a batch in which every description is text is always taken:
    [insert_transactions] returns its pair, the two counters add up to
    the size of the batch, the table grows by [new_count] rows at its
    end, and the hashes stay unique. *)
Theorem insert_transactions_described
        (clock : nat -> Z) (seq : Z) (db : table) (df : list row) :
  Forall described df ->
  exists added n d,
    insert_transactions clock seq db df = (db ++ added, Ok (n, d))
    /\ n = List.length added
    /\ n + d = List.length df
    /\ (NoDup (hashes db) -> NoDup (hashes (db ++ added))).
Proof.
  intros Hdf. unfold insert_transactions.
  destruct (insert_loop_returns Hdf clock 0 seq db 0 0)
    as ([[db' seq'] [n d]] & E).
  rewrite E.
  destruct (insert_loop_invariant _ _ _ _ _ _ _ E)
    as (added & -> & Hn & Hs & Hnd).
  exists added, n, d. cbn [Nat.add] in *. auto.
Qed.

Lemma insert_transactions_described_witness :
  exists added n d,
    insert_transactions Sample.noon 1 [Sample.stored_coffee]
                        [Sample.coffee; Sample.undated; Sample.rent]
    = ([Sample.stored_coffee] ++ added, Ok (n, d))
    /\ n = List.length added
    /\ n + d = 3
    /\ (NoDup (hashes [Sample.stored_coffee])
        -> NoDup (hashes ([Sample.stored_coffee] ++ added))).
Proof.
  apply (@insert_transactions_described
           Sample.noon 1%Z [Sample.stored_coffee]
           [Sample.coffee; Sample.undated; Sample.rent]).
  repeat constructor; discriminate.
Defined.

Lemma frame_columns_consistent r t :
  frame_columns r = Some (columns t) ->
  content_hash r = Ok (transaction_hash t) ->
  is_nan (Importe r) = false ->
  consistent t.
Proof.
  unfold frame_columns, content_hash, strftime, columns, consistent.
  destruct (Fecha_valor r) as [|d]; [discriminate|].
  destruct (Concepto r) as [c|]; [|discriminate]. cbn [bind].
  intros H. inversion H as [[Hf Hc Hx Ht Hcat]]. now intros -> ->.
Qed.

Lemma set_category_consistent now c t :
  consistent t -> consistent (set_category now c t).
Proof. exact (fun H => H). Qed.

(** X4: every stored row carries the hash of its own date, description
    and amount, and an amount that is a number: [insert_transactions]
    and the two updates keep a table like that. *)
Theorem stored_hash_invariant (db : table) :
  Forall consistent db ->
  (forall clock seq df,
      Forall consistent (fst (insert_transactions clock seq db df)))
  /\ (forall now h new_category,
         Forall consistent (update_transaction_category now db h new_category))
  /\ (forall now c new_category,
         Forall consistent
                (fst (update_transactions_by_concept now db c new_category))).
Proof.
  intros Hdb. split; [|split].
  - intros clock seq df. unfold insert_transactions.
    destruct (insert_loop clock 0 seq db 0 0 df) as [[[db' seq'] [n d]]|e]
      eqn:E; cbn [fst]; [|exact Hdb].
    destruct (insert_loop_stores _ _ _ _ _ _ _ E)
      as (added & -> & Hadded & _).
    apply Forall_app. split; [exact Hdb|].
    eapply Forall_impl; [|exact Hadded].
    intros t (r & _ & Hh & Hx & Hcols).
    now apply (@frame_columns_consistent r t).
  - intros now h c. unfold update_transaction_category.
    apply Forall_map. eapply Forall_impl; [|exact Hdb].
    intros t Ht. destruct (Str.eqb _ _); [|exact Ht].
    now apply set_category_consistent.
  - intros now d c. unfold update_transactions_by_concept. cbn [fst].
    apply Forall_map. eapply Forall_impl; [|exact Hdb].
    intros t Ht. destruct (Str.eqb _ _); [|exact Ht].
    now apply set_category_consistent.
Qed.

Lemma stored_hash_invariant_witness :
  Forall consistent
         (fst (update_transactions_by_concept
                 7 [Sample.stored_coffee; Sample.stored_rent]
                 (lit "ALQUILER") (lit "Housing"))).
Proof.
  refine (proj2 (proj2 (@stored_hash_invariant
                          [Sample.stored_coffee; Sample.stored_rent] _))
                7%Z (lit "ALQUILER") (lit "Housing")).
  repeat constructor; vm_compute; reflexivity.
Defined.

(** A batch of new, distinct records is stored in its order, each row
    with its own columns. *)
Lemma insert_loop_all_new_columns df :
  forall hs clock i seq db n d,
    Forall2 (fun r h => content_hash r = Ok h) df hs ->
    Forall (fun r => is_nan (Importe r) = false) df ->
    NoDup hs ->
    (forall h, In h hs -> ~ In h (hashes db)) ->
    exists added seq',
      insert_loop clock i seq db n d df
      = Ok (db ++ added, seq', (n + List.length df, d))
      /\ hashes added = hs
      /\ map (fun t => Some (columns t)) added = map frame_columns df.
Proof.
  induction df as [|r df IH]; intros hs clock i seq db n d Hh Hnum Hnd Hout;
    inversion Hh as [|? h ? hs' Hr Hrest]; subst; cbn [insert_loop List.length].
  - exists [], seq. rewrite app_nil_r, Nat.add_0_r. now repeat split.
  - inversion Hnum as [|? ? Hx Hnum']; subst.
    inversion Hnd as [|? ? Hfresh Hnd']; subst.
    destruct (try_insert (clock i) seq db r) as [[[db1 seq1] rc]|e] eqn:Et.
    + destruct (try_insert_appends _ _ _ _ Et)
        as (dt & c & h' & Hd & Hc & Hh' & -> & Hcase).
      pose proof (content_hash_of_parts r Hd Hc Hh') as Hr'.
      rewrite Hr in Hr'. inversion Hr'; subst h'.
      destruct Hcase as [(-> & -> & [Hnan|Hin])|(-> & -> & _ & _)].
      * congruence.
      * exfalso. apply (Hout h); [now left | assumption].
      * cbn [Nat.ltb Nat.leb].
        destruct (IH hs' clock (S i) (next_id seq db)
                     (db ++ [Transaction (next_id seq db) h (strftime_ymd dt)
                                         c (Importe r) (Tipo r) (Category r)
                                         (clock i) (clock i)])
                     (S n) d Hrest Hnum' Hnd')
          as (added & seq' & -> & Hadded & Hcols).
        { intros h0 Hh0. rewrite hashes_app, in_app_iff.
          intros [Hin|[<-|[]]].
          - apply (Hout h0); [now right | assumption].
          - contradiction. }
        eexists (_ :: added), seq'. split; [|split].
        -- rewrite <- app_assoc. cbn [app]. f_equal. f_equal. f_equal. lia.
        -- cbn. now rewrite <- Hadded.
        -- cbn [map]. rewrite Hcols. f_equal.
           unfold frame_columns. now rewrite Hd, Hc.
    + exfalso. unfold content_hash in Hr. unfold try_insert in Et.
      destruct (strftime (Fecha_valor r)); cbn [bind] in *; [|discriminate].
      destruct (Concepto r); [|discriminate].
      rewrite Hr in Et. discriminate.
Qed.

(** X5: storing and loading is a round trip.  A batch of records that
    are new to the table and differ from one another is stored whole,
    in its order, each row with the date text, the description as it
    is (untrimmed), the amount, the kind and the category of the frame;
    and every answer of [load_all_transactions] afterwards lists these
    rows and the former ones, in some order. *)
Theorem insert_then_load_all
        (clock : nat -> Z) (seq : Z) (db : table) (df : list row)
        (hs : list str) :
  Forall2 (fun r h => content_hash r = Ok h) df hs ->
  Forall (fun r => is_nan (Importe r) = false) df ->
  NoDup hs ->
  (forall h, In h hs -> ~ In h (hashes db)) ->
  exists added,
    insert_transactions clock seq db df
    = (db ++ added, Ok (List.length df, 0))
    /\ map (fun t => Some (columns t)) added = map frame_columns df
    /\ forall rows,
        load_all_transactions (db ++ added) rows ->
        Permutation (map columns db ++ map columns added)
                    (map columns rows).
Proof.
  intros Hh Hnum Hnd Hout. unfold insert_transactions.
  destruct (insert_loop_all_new_columns clock 0 seq db 0 0 Hh Hnum Hnd Hout)
    as (added & seq' & -> & _ & Hcols).
  exists added. split; [reflexivity|]. split; [exact Hcols|].
  intros rows [Hperm _]. rewrite <- map_app. now apply Permutation_map.
Qed.

Lemma insert_then_load_all_witness :
  exists added,
    insert_transactions Sample.noon 1 [Sample.stored_garage]
                        [Sample.coffee; Sample.rent]
    = ([Sample.stored_garage] ++ added, Ok (2, 0))
    /\ map (fun t => Some (columns t)) added
       = map frame_columns [Sample.coffee; Sample.rent]
    /\ forall rows,
        load_all_transactions ([Sample.stored_garage] ++ added) rows ->
        Permutation (map columns [Sample.stored_garage] ++ map columns added)
                    (map columns rows).
Proof.
  apply (@insert_then_load_all
           Sample.noon 1%Z [Sample.stored_garage] [Sample.coffee; Sample.rent]
           [Sample.coffee_hash; Sample.rent_hash]).
  - repeat constructor; vm_compute; reflexivity.
  - repeat constructor.
  - repeat constructor; cbn; intuition discriminate.
  - cbn. intros h [<-|[<-|[]]] [H|[]]; discriminate H.
Defined.

(** X6: a batch that was stored and comes back with other categories,
    as the frame does after the AI categorization, writes nothing: the
    table keeps every row as it was, its category included, and the
    call reports every row as a duplicate. *)
Theorem resubmitted_categories_not_stored
        (clock clock2 : nat -> Z) (seq seq2 : Z) (db db' : table)
        (df df2 : list row) (n d : nat) :
  insert_transactions clock seq db df = (db', Ok (n, d)) ->
  Forall2 same_but_category df df2 ->
  insert_transactions clock2 seq2 db' df2 = (db', Ok (0, n + d)).
Proof.
  intros H Hsame.
  exact (@insert_transactions_again clock clock2 seq seq2 db db' df df2 db'
                                    n d H Hsame (incl_refl _)).
Qed.

Lemma resubmitted_categories_not_stored_witness :
  insert_transactions
    Sample.noon 2
    (fst (insert_transactions Sample.noon 0 [] [Sample.coffee; Sample.rent]))
    [with_category (lit "Restaurants") Sample.coffee;
     with_category (lit "Housing") Sample.rent]
  = (fst (insert_transactions Sample.noon 0 [] [Sample.coffee; Sample.rent]),
     Ok (0, 2 + 0)).
Proof.
  refine (@resubmitted_categories_not_stored
            Sample.noon Sample.noon 0%Z 2%Z [] _ [Sample.coffee; Sample.rent]
            [with_category (lit "Restaurants") Sample.coffee;
             with_category (lit "Housing") Sample.rent] 2 0 _ _).
  - vm_compute. reflexivity.
  - repeat constructor.
Defined.

Lemma update_transaction_category_hashes now db h c :
  hashes (update_transaction_category now db h c) = hashes db.
Proof.
  unfold hashes, update_transaction_category. rewrite map_map.
  apply map_ext. intros t. now destruct (Str.eqb _ _).
Qed.

Lemma update_transactions_by_concept_hashes now db concept c :
  hashes (fst (update_transactions_by_concept now db concept c)) = hashes db.
Proof.
  unfold hashes, update_transactions_by_concept. cbn [fst]. rewrite map_map.
  apply map_ext. intros t. now destruct (Str.eqb _ _).
Qed.

(** X7: a category set by hand survives the next upload of the same
    statement.  After either update of a stored batch, inserting the
    batch again writes nothing: the table stays as the update left it
    and every row is reported as a duplicate. *)
Theorem manual_category_survives_reupload
        (clock clock2 : nat -> Z) (seq seq2 : Z) (now : Z) (db db' : table)
        (df : list row) (n d : nat) :
  insert_transactions clock seq db df = (db', Ok (n, d)) ->
  (forall h c,
      insert_transactions clock2 seq2
                          (update_transaction_category now db' h c) df
      = (update_transaction_category now db' h c, Ok (0, n + d)))
  /\ (forall concept c,
         insert_transactions
           clock2 seq2
           (fst (update_transactions_by_concept now db' concept c)) df
         = (fst (update_transactions_by_concept now db' concept c),
            Ok (0, n + d))).
Proof.
  intros H. split.
  - intros h c.
    apply (@insert_transactions_again clock clock2 seq seq2 db db' df df _
                                      n d H (same_but_category_refl df)).
    rewrite update_transaction_category_hashes. apply incl_refl.
  - intros concept c.
    apply (@insert_transactions_again clock clock2 seq seq2 db db' df df _
                                      n d H (same_but_category_refl df)).
    rewrite update_transactions_by_concept_hashes. apply incl_refl.
Qed.

Lemma manual_category_survives_reupload_witness :
  insert_transactions
    Sample.noon 2
    (fst (update_transactions_by_concept
            7 (fst (insert_transactions Sample.noon 0 []
                                        [Sample.coffee; Sample.rent]))
            (lit "ALQUILER") (lit "Housing")))
    [Sample.coffee; Sample.rent]
  = (fst (update_transactions_by_concept
            7 (fst (insert_transactions Sample.noon 0 []
                                        [Sample.coffee; Sample.rent]))
            (lit "ALQUILER") (lit "Housing")),
     Ok (0, 2 + 0)).
Proof.
  refine (proj2 (@manual_category_survives_reupload
                   Sample.noon Sample.noon 0%Z 2%Z 7%Z [] _
                   [Sample.coffee; Sample.rent] 2 0 _)
                (lit "ALQUILER") (lit "Housing")).
  vm_compute. reflexivity.
Defined.

(* ================================================================== *)
(** * More on the normalizer and the categorizer *)
(* ================================================================== *)

Lemma same_but_category_trans r1 r2 r3 :
  same_but_category r1 r2 -> same_but_category r2 r3 ->
  same_but_category r1 r3.
Proof.
  unfold same_but_category. intros (? & ? & ? & ?) (? & ? & ? & ?).
  repeat split; congruence.
Qed.

Lemma Forall2_same_but_category_trans l1 :
  forall l2 l3,
    Forall2 same_but_category l1 l2 -> Forall2 same_but_category l2 l3 ->
    Forall2 same_but_category l1 l3.
Proof.
  induction l1 as [|r l1 IH]; intros l2 l3 H12 H23;
    inversion H12; subst; inversion H23; subst; constructor.
  - eapply same_but_category_trans; eassumption.
  - eapply IH; eassumption.
Qed.

Lemma with_category_same c r : same_but_category r (with_category c r).
Proof. now repeat split. Qed.

Lemma Forall2_In_r {A B : Type} (R : A -> B -> Prop) l l' b :
  Forall2 R l l' -> In b l' -> exists a, In a l /\ R a b.
Proof.
  induction 1 as [|a b' l l' Hab _ IH]; intros Hin; [destruct Hin|].
  destruct Hin as [->|Hin].
  - exists a. split; [now left | assumption].
  - destruct (IH Hin) as (a' & Ha' & HR). exists a'. split; [now right|exact HR].
Qed.

(** Whether the loop is left by an exception depends on the rows alone,
    not on the table, the sequence or the clock. *)
Lemma insert_loop_raises df :
  forall clock i seq db n d e,
    insert_loop clock i seq db n d df = Raise e ->
    forall clock2 j seq2 T m k,
      insert_loop clock2 j seq2 T m k df = Raise e.
Proof.
  induction df as [|r df IH]; intros clock i seq db n d e;
    cbn [insert_loop]; [discriminate|].
  intros H clock2 j seq2 T m k.
  destruct (try_insert (clock i) seq db r) as [[[db1 seq1] rc]|ex] eqn:Et.
  - destruct (try_insert_appends _ _ _ _ Et)
      as (dt & c & h & Hd & Hc & Hh & _ & _).
    pose proof (content_hash_of_parts r Hd Hc Hh) as Hr.
    destruct (try_insert_hashed (clock2 j) seq2 T r Hr) as (f & c' & _ & ->).
    destruct (insert_or_ignore (clock2 j) seq2 T h f c' (Importe r) (Tipo r)
                               (Category r)) as [[T1 s1] rc1].
    destruct (0 <? rc)%nat; destruct (0 <? rc1)%nat;
      eapply IH; eassumption.
  - rewrite (@try_insert_raises _ _ _ _ _ Et r (clock2 j) seq2 T).
    + destruct (handler r); cbn [bind] in *; [|exact H].
      eapply IH; eassumption.
    + now repeat split.
Qed.

Lemma Some_eq {A : Type} (x y : A) : Some x = Some y -> x = y.
Proof. congruence. Qed.

Lemma day_field_positive s d : day_field s = Some d -> (1 <= d)%N.
Proof.
  unfold day_field, between.
  destruct s as [|a [|b [|? ?]]]; try discriminate.
  - destruct ((49 <=? a) && (a <=? 57))%N eqn:E; [|discriminate].
    intros H; apply Some_eq in H; subst.
    apply andb_true_iff in E. destruct E as [E1 E2].
    apply N.leb_le in E1. lia.
  - destruct ((a =? 51)%N && ((48 <=? b) && (b <=? 49))%N);
      [intros H; apply Some_eq in H; subst; lia|].
    destruct ((49 <=? a) && (a <=? 50))%N eqn:E.
    + destruct (any_digit b) as [v|]; [|discriminate].
      cbn [option_map]. intros H; apply Some_eq in H; subst.
      apply andb_true_iff in E. destruct E as [E1 E2].
      apply N.leb_le in E1. lia.
    + destruct (((a =? 48) || (a =? 32))%N && ((49 <=? b) && (b <=? 57))%N)
        eqn:E'; [|discriminate].
      intros H; apply Some_eq in H; subst.
      apply andb_true_iff in E'. destruct E' as [_ E'].
      apply andb_true_iff in E'. destruct E' as [E1 E2].
      apply N.leb_le in E1. lia.
Qed.

Lemma month_field_range s m : month_field s = Some m -> (1 <= m <= 12)%N.
Proof.
  unfold month_field, between.
  destruct s as [|a [|b [|? ?]]]; try discriminate.
  - destruct ((49 <=? a) && (a <=? 57))%N eqn:E; [|discriminate].
    intros H; apply Some_eq in H; subst.
    apply andb_true_iff in E. destruct E as [E1 E2].
    apply N.leb_le in E1. apply N.leb_le in E2. lia.
  - destruct ((a =? 49)%N && ((48 <=? b) && (b <=? 50))%N) eqn:E.
    + intros H; apply Some_eq in H; subst.
      apply andb_true_iff in E. destruct E as [_ E].
      apply andb_true_iff in E. destruct E as [E1 E2].
      apply N.leb_le in E1. apply N.leb_le in E2. lia.
    + destruct ((a =? 48)%N && ((49 <=? b) && (b <=? 57))%N) eqn:E';
        [|discriminate].
      intros H; apply Some_eq in H; subst.
      apply andb_true_iff in E'. destruct E' as [_ E'].
      apply andb_true_iff in E'. destruct E' as [E1 E2].
      apply N.leb_le in E1. apply N.leb_le in E2. lia.
Qed.

Lemma in_timestamp_range_year d :
  in_timestamp_range d = true -> (1677 <= year d <= 2262)%N.
Proof.
  unfold in_timestamp_range, Date.compare. cbn [year month day].
  destruct (N.compare_spec 1677 (year d)) as [E1|E1|E1];
    destruct (N.compare_spec (year d) 2262) as [E2|E2|E2];
    try lia; intros H; discriminate H.
Qed.

(** The dates [to_datetime_dmy] returns are days of the calendar. *)
Lemma to_datetime_dmy_valid s d :
  to_datetime_dmy s = Ok (Timestamp d) -> Date.valid d.
Proof.
  unfold to_datetime_dmy.
  destruct (until_slash s) as [days [rest|]]; [|discriminate].
  destruct (until_slash rest) as [months [years|]]; [|discriminate].
  destruct (day_field days) as [dd|] eqn:Ed; [|discriminate].
  destruct (month_field months) as [mm|] eqn:Em; [|discriminate].
  destruct (year_field years) as [yy|]; [|discriminate].
  destruct (dd <=? days_in_month yy mm)%N eqn:El; cbn [andb];
    [|discriminate].
  destruct (in_timestamp_range (Date yy mm dd)) eqn:Er; [|discriminate].
  intros H; inversion H; subst. unfold Date.valid. cbn [year month day].
  apply day_field_positive in Ed. apply month_field_range in Em.
  apply in_timestamp_range_year in Er. cbn [year] in Er.
  apply N.leb_le in El. lia.
Qed.

Section PipelineFacts.

Variable lower : str -> str.
Variable to_datetime : str -> result timestamp.
Variable read_dates : list str -> bool.

Lemma categorize_rows_fields category lowered_keywords df :
  forall df',
    categorize_rows lower category lowered_keywords df = Ok df' ->
    Forall2 same_but_category df df'.
Proof.
  induction df as [|r df IH]; intros df'; cbn [categorize_rows].
  - intros H; inversion H. constructor.
  - destruct (Concepto r) as [c|]; [|discriminate].
    destruct (categorize_rows lower category lowered_keywords df)
      as [rest|e]; cbn [bind]; [|discriminate].
    intros H; inversion H; subst. constructor; [|now apply IH].
    destruct (any_keyword_in _ _); [apply with_category_same|].
    now repeat split.
Qed.

Lemma categorize_loop_fields categories :
  forall df df',
    categorize_loop lower categories df = Ok df' ->
    Forall2 same_but_category df df'.
Proof.
  induction categories as [|[category keywords] rest IH]; intros df df';
    cbn [categorize_loop].
  - intros H; inversion H; subst. apply same_but_category_refl.
  - destruct (Str.eqb category UNCATEGORIZED_CATEGORY
              || match keywords with [] => true | _ => false end);
      [apply IH|].
    destruct (categorize_rows lower category _ df) as [df1|e] eqn:E1;
      cbn [bind]; [|discriminate].
    intros H. eapply Forall2_same_but_category_trans.
    + eapply categorize_rows_fields; eassumption.
    + now apply IH.
Qed.

Lemma categorize_transactions_fields categories df df' :
  categorize_transactions lower categories df = Ok df' ->
  Forall2 same_but_category df df'.
Proof.
  unfold categorize_transactions. intros H.
  apply categorize_loop_fields in H.
  eapply Forall2_same_but_category_trans; [|exact H].
  clear. induction df; constructor; [apply with_category_same|assumption].
Qed.

(** X8: uploading a statement twice.  Loading the same file again on
    the table the first call left writes nothing.  When the first call
    returned the frame with the counts [(n, d)], the second returns the
    same frame with [(0, n + d)]; when the first call failed, before or
    after it stored its rows, the second fails too. *)
Theorem load_transactions_twice
        (categories : registry) (clock : nat -> Z) (seq : Z)
        (db db' : table) (csv : list csv_row)
        (out : option (list row * (nat * nat))) :
  load_transactions lower to_datetime read_dates categories clock seq db csv
  = (db', out) ->
  forall (clock2 : nat -> Z) (seq2 : Z),
    load_transactions lower to_datetime read_dates categories clock2 seq2
                      db' csv
    = (db', match out with
            | Some (df, (n, d)) => Some (df, (0, n + d))
            | None => None
            end).
Proof.
  unfold load_transactions.
  destruct (df <- normalize to_datetime csv ;;
            categorize_transactions lower categories df) as [df|e].
  2:{ intros H clock2 seq2; inversion H; subst. reflexivity. }
  destruct (insert_transactions clock seq db df) as [db1 [[n d]|e]] eqn:E.
  - intros H clock2 seq2.
    assert (Hdb : db' = db1).
    { destruct (_ <- reload read_dates db1 ;;
                list_uncategorized (filter uncategorized df));
        now inversion H. }
    subst db'.
    rewrite (@insert_transactions_again clock clock2 seq seq2 db db1 df df
                                        db1 n d E (same_but_category_refl df)
                                        (incl_refl _)).
    destruct (_ <- reload read_dates db1 ;;
              list_uncategorized (filter uncategorized df));
      inversion H; subst; reflexivity.
  - intros H clock2 seq2; inversion H; subst; clear H.
    unfold insert_transactions in E |- *.
    destruct (insert_loop clock 0 seq db 0 0 df) as [[[? ?] ?]|e0] eqn:El;
      inversion E; subst.
    rewrite (@insert_loop_raises df clock 0 seq db' 0 0 e El
                                 clock2 0 seq2 db' 0 0).
    reflexivity.
Qed.

(** X9: what a statement leaves in the table.  With a [to_datetime]
    that returns days of the calendar: if the stored amounts are
    unsigned, the kinds [Debit] or [Credit] and the dates the ISO text
    of a day of the calendar, they still are after
    [load_transactions], whatever the file holds. *)
Theorem load_transactions_stores_normalized
        (categories : registry) (clock : nat -> Z) (seq : Z)
        (db db' : table) (csv : list csv_row)
        (out : option (list row * (nat * nat))) :
  (forall s d, to_datetime s = Ok (Timestamp d) -> Date.valid d) ->
  Forall from_statement db ->
  load_transactions lower to_datetime read_dates categories clock seq db csv
  = (db', out) ->
  Forall from_statement db'.
Proof.
  intros Hvalid Hdb. unfold load_transactions.
  destruct (normalize to_datetime csv) as [df0|e] eqn:En; cbn [bind].
  2:{ intros H; inversion H; subst. exact Hdb. }
  destruct (categorize_transactions lower categories df0) as [df|e] eqn:Ec.
  2:{ intros H; inversion H; subst. exact Hdb. }
  assert (Hstored : Forall from_statement
                           (fst (insert_transactions clock seq db df))).
  { unfold insert_transactions.
    destruct (insert_loop clock 0 seq db 0 0 df) as [[[db1 seq1] [n d]]|e]
      eqn:E; cbn [fst]; [|exact Hdb].
    destruct (insert_loop_stores _ _ _ _ _ _ _ E)
      as (added & -> & Hadded & _).
    apply Forall_app. split; [exact Hdb|].
    eapply Forall_impl; [|exact Hadded].
    intros t (r & Hin & _ & _ & Hcols).
    destruct (@Forall2_In_r _ _ _ _ _ _
                            (@categorize_transactions_fields _ _ _ Ec) Hin)
      as (r0 & Hin0 & Hf & Hc & Hx & Ht).
    pose proof (@normalize_rows to_datetime csv df0 En) as Hn.
    destruct (@Forall2_In_r _ _ _ _ _ _ Hn Hin0)
      as (line & _ & _ & Hdate & _ & x & _ & Hi & Hk).
    unfold frame_columns in Hcols.
    destruct (Fecha_valor r) as [|dt] eqn:Edt; [discriminate|].
    destruct (Concepto r); [|discriminate].
    inversion Hcols as [[Hfv Hco Him Hti Hca]].
    unfold from_statement. rewrite <- Hfv, <- Him, <- Hti, Hx, Ht, Hi, Hk.
    split; [apply abs_unsigned|]. split; [apply tipo_of_cases|].
    exists dt. split; [|reflexivity].
    rewrite <- Hf in Hdate. unfold parse_fecha in Hdate.
    destruct (csv_fecha line) as [txt|]; [|discriminate].
    exact (Hvalid txt dt Hdate). }
  destruct (insert_transactions clock seq db df) as [db1 [counts|e]];
    cbn [fst] in Hstored.
  - destruct (_ <- reload read_dates db1 ;;
              list_uncategorized (filter uncategorized df));
      intros H; inversion H; subst; exact Hstored.
  - intros H; inversion H; subst; exact Hstored.
Qed.

End PipelineFacts.

Lemma load_transactions_twice_witness :
  load_transactions ascii_lower to_datetime_dmy read_iso_dates Sample.shops
                    Sample.noon 3 (fst Uploads.first_upload) Uploads.statement
  = (fst Uploads.first_upload,
     match snd Uploads.first_upload with
     | Some (df, (n, d)) => Some (df, (0, n + d))
     | None => None
     end).
Proof.
  apply (@load_transactions_twice
           ascii_lower to_datetime_dmy read_iso_dates Sample.shops Sample.noon
           0%Z [] (fst Uploads.first_upload) Uploads.statement
           (snd Uploads.first_upload)).
  vm_compute. reflexivity.
Defined.

Lemma load_transactions_stores_normalized_witness :
  Forall from_statement (fst Uploads.first_upload).
Proof.
  apply (@load_transactions_stores_normalized
           ascii_lower to_datetime_dmy read_iso_dates Sample.shops Sample.noon
           0%Z [] (fst Uploads.first_upload) Uploads.statement
           (snd Uploads.first_upload)).
  - exact to_datetime_dmy_valid.
  - constructor.
  - vm_compute. reflexivity.
Defined.

Section CategorizerMore.

Variable lower : str -> str.

Lemma active_dec (e : str * list str) :
  Str.eqb (fst e) UNCATEGORIZED_CATEGORY
  || match snd e with [] => true | _ => false end = false
  <-> active e.
Proof.
  unfold active. rewrite orb_false_iff, eqb_neq.
  destruct (snd e); intuition congruence.
Qed.

Lemma categorize_loop_inactive categories df :
  Forall (fun e => ~ active e) categories ->
  categorize_loop lower categories df = Ok df.
Proof.
  induction 1 as [|[category keywords] rest Hno _ IH]; cbn [categorize_loop];
    [reflexivity|].
  destruct (Str.eqb category UNCATEGORIZED_CATEGORY
            || match keywords with [] => true | _ => false end) eqn:E;
    [exact IH|].
  exfalso. apply Hno. now apply (active_dec (category, keywords)).
Qed.

Lemma categorize_rows_missing category lowered_keywords df :
  Exists (fun r => Concepto r = None) df ->
  categorize_rows lower category lowered_keywords df = Raise AttributeError.
Proof.
  induction df as [|r df IH]; intros Hex; [inversion Hex|].
  cbn [categorize_rows].
  destruct (Concepto r) as [c|] eqn:Ec; [|reflexivity].
  inversion Hex; subst; [congruence|].
  now rewrite IH.
Qed.

Lemma categorize_loop_missing categories df :
  Exists active categories ->
  Exists (fun r => Concepto r = None) df ->
  categorize_loop lower categories df = Raise AttributeError.
Proof.
  induction categories as [|[category keywords] rest IH]; intros Hact Hex;
    [inversion Hact|].
  cbn [categorize_loop].
  destruct (Str.eqb category UNCATEGORIZED_CATEGORY
            || match keywords with [] => true | _ => false end) eqn:E.
  - inversion Hact as [? ? Ha|]; subst; [|now apply IH].
    apply (active_dec (category, keywords)) in Ha. cbn [fst snd] in Ha.
    congruence.
  - now rewrite categorize_rows_missing.
Qed.

Lemma missing_after_with_category c df :
  Exists (fun r => Concepto r = None) df ->
  Exists (fun r => Concepto r = None) (map (with_category c) df).
Proof.
  induction 1; cbn [map]; [now apply Exists_cons_hd | now apply Exists_cons_tl].
Qed.

(** X10: a frame with a row whose description is missing.  If some
    category other than [Uncategorized] has a keyword,
    [categorize_transactions] is left with [AttributeError]; if none
    has, as with the default registry, it returns the frame with every
    row [Uncategorized]. *)
Theorem categorize_transactions_missing_description
        (categories : registry) (df : list row) :
  Exists (fun r => Concepto r = None) df ->
  (Exists active categories ->
   categorize_transactions lower categories df = Raise AttributeError)
  /\ (Forall (fun e => ~ active e) categories ->
      categorize_transactions lower categories df
      = Ok (map (with_category UNCATEGORIZED_CATEGORY) df)).
Proof.
  intros Hex. unfold categorize_transactions. split.
  - intros Hact. apply categorize_loop_missing; [exact Hact|].
    now apply missing_after_with_category.
  - intros Hno. now apply categorize_loop_inactive.
Qed.

Lemma with_category_ignores c r r2 :
  same_but_category r r2 -> with_category c r2 = with_category c r.
Proof.
  unfold with_category. now intros (-> & -> & -> & ->).
Qed.

(** X12: [categorize_transactions] changes nothing but the category
    column, and its result does not depend on the categories the rows
    come with: any frame with the same dates, descriptions, amounts and
    kinds gets the same result, so categorizing the result again
    returns it unchanged. *)
Theorem categorize_transactions_category_only
        (categories : registry) (df df' : list row) :
  categorize_transactions lower categories df = Ok df' ->
  Forall2 same_but_category df df'
  /\ (forall df2, Forall2 same_but_category df df2 ->
                  categorize_transactions lower categories df2 = Ok df')
  /\ categorize_transactions lower categories df' = Ok df'.
Proof.
  intros H.
  assert (Hany : forall df2, Forall2 same_but_category df df2 ->
                             categorize_transactions lower categories df2
                             = Ok df').
  { intros df2 Hsame. rewrite <- H. unfold categorize_transactions.
    f_equal. clear H. induction Hsame as [|r r2 df df2 Hr _ IH];
      cbn [map]; [reflexivity|].
    now rewrite IH, (with_category_ignores _ Hr). }
  pose proof (categorize_transactions_fields _ _ _ H) as Hf.
  split; [exact Hf|]. split; [exact Hany|]. now apply Hany.
Qed.

Lemma last_match_uncategorized description categories :
  last_match lower categories (strip (lower description))
             UNCATEGORIZED_CATEGORY = UNCATEGORIZED_CATEGORY
  <-> Forall (fun e => ~ entry_hits lower description e) categories.
Proof.
  split.
  - intros H.
    destruct (last_match_assigned lower description categories
                                  UNCATEGORIZED_CATEGORY)
      as [(earlier & kws & later & _ & Hhit & _)|[Hno _]]; [|exact Hno].
    rewrite H in Hhit. destruct Hhit as (Hname & _). now elim Hname.
  - intros Hno. now apply last_match_no_hit.
Qed.

Lemma extends_hits description earlier later :
  extends earlier later ->
  Forall (fun e => ~ entry_hits lower description e) later ->
  Forall (fun e => ~ entry_hits lower description e) earlier.
Proof.
  induction 1 as [|e e' earlier later [Hname Hincl] _ IH]; intros Hno;
    constructor; inversion Hno as [|? ? Hno' Hrest]; subst; [|now apply IH].
  intros (Hn & _ & (k & before & after & Hin & Hk)). apply Hno'.
  split; [now rewrite <- Hname|]. split.
  - intros Hnil. apply Hincl in Hin. rewrite Hnil in Hin. destruct Hin.
  - exists k, before, after. split; [now apply Hincl | exact Hk].
Qed.

Lemma categorize_described categories df :
  Forall described df ->
  categorize_transactions lower categories df
  = Ok (map (fun r =>
               match Concepto r with
               | Some c =>
                   with_category
                     (last_match lower categories (strip (lower c))
                                 UNCATEGORIZED_CATEGORY) r
               | None => r
               end) df).
Proof.
  intros Hdf. unfold categorize_transactions.
  rewrite categorize_loop_map.
  2:{ apply Forall_forall. intros r' Hin. apply in_map_iff in Hin.
      destruct Hin as (r & <- & Hin). rewrite Forall_forall in Hdf.
      exact (Hdf r Hin). }
  rewrite map_map. f_equal. apply map_ext_in. intros r Hin.
  rewrite Forall_forall in Hdf. specialize (Hdf r Hin).
  unfold described in Hdf. cbn [with_category Concepto Category].
  destruct (Concepto r); [reflexivity | contradiction].
Qed.

Lemma extends_fewer_uncategorized
      (earlier later : registry) (df : list row) :
  Forall described df ->
  extends earlier later ->
  exists df1 df2,
    categorize_transactions lower earlier df = Ok df1
    /\ categorize_transactions lower later df = Ok df2
    /\ Forall2 (fun r1 r2 => uncategorized r2 = true ->
                             uncategorized r1 = true) df1 df2
    /\ List.length (filter uncategorized df2)
       <= List.length (filter uncategorized df1).
Proof.
  intros Hdf Hext.
  rewrite !categorize_described by exact Hdf.
  eexists. eexists. split; [reflexivity|]. split; [reflexivity|].
  assert (Hrows : Forall2 (fun r1 r2 => uncategorized r2 = true ->
                                        uncategorized r1 = true)
                    (map (fun r =>
                            match Concepto r with
                            | Some c =>
                                with_category
                                  (last_match lower earlier (strip (lower c))
                                              UNCATEGORIZED_CATEGORY) r
                            | None => r
                            end) df)
                    (map (fun r =>
                            match Concepto r with
                            | Some c =>
                                with_category
                                  (last_match lower later (strip (lower c))
                                              UNCATEGORIZED_CATEGORY) r
                            | None => r
                            end) df)).
  { clear Hdf. induction df as [|r df IH]; cbn [map]; constructor;
      [|exact IH].
    destruct (Concepto r) as [c|]; [|auto].
    unfold uncategorized. cbn [with_category Category].
    rewrite !eqb_eq, !last_match_uncategorized.
    now apply extends_hits. }
  split; [exact Hrows|].
  induction Hrows as [|r1 r2 l1 l2 Hr _ IH]; cbn [filter]; [lia|].
  destruct (uncategorized r2) eqn:E2.
  - rewrite (Hr eq_refl). cbn [List.length]. lia.
  - destruct (uncategorized r1); cbn [List.length]; lia.
Qed.

(** X13: keywords only ever take rows out of [Uncategorized].  When a
    registry has the names of another, in the same order, and all its
    keywords, every row it leaves [Uncategorized] is left
    [Uncategorized] by the other too, so the count of uncategorized
    rows cannot grow. *)
Theorem more_keywords_fewer_uncategorized
        (earlier later : registry) (df : list row) :
  Forall described df ->
  extends earlier later ->
  exists df1 df2,
    categorize_transactions lower earlier df = Ok df1
    /\ categorize_transactions lower later df = Ok df2
    /\ Forall2 (fun r1 r2 => uncategorized r2 = true ->
                             uncategorized r1 = true) df1 df2
    /\ List.length (filter uncategorized df2)
       <= List.length (filter uncategorized df1).
Proof. exact (@extends_fewer_uncategorized earlier later df). Qed.

(** X14: a keyword that is blank once lowercased and trimmed matches
    every description: all the rows whose description is text leave
    [Uncategorized] when a category other than [Uncategorized] holds
    one. *)
Theorem blank_keyword_matches_everything
        (categories : registry) (category : str) (keywords : list str)
        (keyword : str) (df : list row) :
  In (category, keywords) categories ->
  category <> UNCATEGORIZED_CATEGORY ->
  In keyword keywords ->
  strip (lower keyword) = [] ->
  Forall described df ->
  exists df',
    categorize_transactions lower categories df = Ok df'
    /\ Forall (fun r => uncategorized r = false) df'.
Proof.
  intros Hin Hname Hk Hblank Hdf.
  rewrite categorize_described by exact Hdf.
  eexists. split; [reflexivity|].
  apply Forall_map. eapply Forall_impl; [|exact Hdf].
  intros r Hr. unfold described in Hr.
  destruct (Concepto r) as [c|]; [|contradiction].
  unfold uncategorized. cbn [with_category Category].
  apply eqb_neq. rewrite last_match_uncategorized, Forall_forall.
  intros Hno. apply (Hno _ Hin). split; [exact Hname|]. split.
  - cbn [snd]. intros Hnil. rewrite Hnil in Hk. destruct Hk.
  - exists keyword, (strip (lower c)), []. split; [exact Hk|].
    rewrite Hblank. now rewrite !app_nil_r.
Qed.

End CategorizerMore.

Section RejectedStatements.

Variable lower : str -> str.
Variable to_datetime : str -> result timestamp.
Variable read_dates : list str -> bool.

Lemma same_but_category_missing df df' :
  Forall2 same_but_category df df' ->
  Exists (fun r => Concepto r = None) df ->
  Exists (fun r => Concepto r = None) df'.
Proof.
  induction 1 as [|r r' df df' Hr _ IH]; intros Hex; inversion Hex; subst.
  - apply Exists_cons_hd. destruct Hr as (_ & -> & _). assumption.
  - apply Exists_cons_tl. now apply IH.
Qed.

(** X11: a statement with a line whose description cell is empty is
    rejected as a whole by [load_transactions], whatever the registry
    holds: nothing is stored, and the caller gets [None]. *)
Theorem load_transactions_missing_description
        (categories : registry) (clock : nat -> Z) (seq : Z) (db : table)
        (csv : list csv_row) :
  Exists (fun line => csv_concepto line = None) csv ->
  load_transactions lower to_datetime read_dates categories clock seq db csv
  = (db, None).
Proof.
  intros Hex. unfold load_transactions.
  destruct (normalize to_datetime csv) as [df0|e] eqn:En; cbn [bind];
    [|reflexivity].
  destruct (categorize_transactions lower categories df0) as [df|e] eqn:Ec;
    [|reflexivity].
  assert (H0 : Exists (fun r => Concepto r = None) df0).
  { pose proof (@normalize_rows to_datetime csv df0 En) as Hn.
    clear En Ec. induction Hn as [|line r csv df0 Hr _ IH];
      inversion Hex; subst.
    - apply Exists_cons_hd. destruct Hr as (-> & _). assumption.
    - apply Exists_cons_tl. now apply IH. }
  pose proof (same_but_category_missing
                (@categorize_transactions_fields lower _ _ _ Ec) H0) as H1.
  unfold insert_transactions.
  now rewrite (insert_loop_missing_description H1).
Qed.

End RejectedStatements.

Lemma categorize_transactions_missing_description_witness :
  categorize_transactions ascii_lower [(UNCATEGORIZED_CATEGORY, [])]
                          [Sample.coffee; Sample.blank]
  = Ok (map (with_category UNCATEGORIZED_CATEGORY)
            [Sample.coffee; Sample.blank]).
Proof.
  refine (proj2 (@categorize_transactions_missing_description
                   ascii_lower [(UNCATEGORIZED_CATEGORY, [])]
                   [Sample.coffee; Sample.blank] _) _).
  - apply Exists_cons_tl, Exists_cons_hd. reflexivity.
  - repeat constructor. intros [H _]. now apply H.
Defined.

Lemma load_transactions_missing_description_witness :
  load_transactions ascii_lower to_datetime_dmy read_iso_dates Sample.shops
                    Sample.noon 1 [Sample.stored_rent]
                    [Sample.coffee_line;
                     CsvRow (Some (lit "16/01/2024")) None
                            (Text (lit "-3,00"))]
  = ([Sample.stored_rent], None).
Proof.
  apply (@load_transactions_missing_description
           ascii_lower to_datetime_dmy read_iso_dates Sample.shops Sample.noon
           1%Z [Sample.stored_rent]).
  apply Exists_cons_tl, Exists_cons_hd. reflexivity.
Defined.

Lemma categorize_transactions_category_only_witness :
  categorize_transactions
    ascii_lower Sample.shops
    [with_category (lit "Shops") Sample.supermarket;
     with_category (lit "Uncategorized") Sample.rent]
  = Ok [with_category (lit "Shops") Sample.supermarket;
        with_category (lit "Uncategorized") Sample.rent].
Proof.
  refine (proj2 (proj2 (@categorize_transactions_category_only
                          ascii_lower Sample.shops
                          [Sample.supermarket; Sample.rent] _ _))).
  vm_compute. reflexivity.
Defined.

Lemma more_keywords_fewer_uncategorized_witness :
  exists df1 df2,
    categorize_transactions ascii_lower Sample.shops
                            [Sample.supermarket; Sample.rent] = Ok df1
    /\ categorize_transactions
         ascii_lower
         [ (UNCATEGORIZED_CATEGORY, []);
           (lit "Food", [lit "MARKET"; lit "alquiler"]);
           (lit "Shops", [lit "Super"]) ]
         [Sample.supermarket; Sample.rent] = Ok df2
    /\ Forall2 (fun r1 r2 => uncategorized r2 = true ->
                             uncategorized r1 = true) df1 df2
    /\ List.length (filter uncategorized df2)
       <= List.length (filter uncategorized df1).
Proof.
  apply (@more_keywords_fewer_uncategorized
           ascii_lower Sample.shops
           [ (UNCATEGORIZED_CATEGORY, []);
             (lit "Food", [lit "MARKET"; lit "alquiler"]);
             (lit "Shops", [lit "Super"]) ]
           [Sample.supermarket; Sample.rent]).
  - repeat constructor; discriminate.
  - unfold extends, Sample.shops.
    constructor; [split; [reflexivity | apply incl_refl]|].
    constructor; [split; [reflexivity | intros k [<-|[]]; now left]|].
    constructor; [split; [reflexivity | apply incl_refl] | constructor].
Defined.

Lemma blank_keyword_matches_everything_witness :
  exists df',
    categorize_transactions ascii_lower
                            [(lit "Food", [lit "MARKET"; lit "  "])]
                            [Sample.supermarket; Sample.rent] = Ok df'
    /\ Forall (fun r => uncategorized r = false) df'.
Proof.
  apply (@blank_keyword_matches_everything
           ascii_lower [(lit "Food", [lit "MARKET"; lit "  "])]
           (lit "Food") [lit "MARKET"; lit "  "] (lit "  ")
           [Sample.supermarket; Sample.rent]).
  - now left.
  - discriminate.
  - right. now left.
  - reflexivity.
  - repeat constructor; discriminate.
Defined.

(* ================================================================== *)
(** * The registry *)
(* ================================================================== *)

Lemma list_mem_In k l : list_mem k l = true <-> In k l.
Proof.
  unfold list_mem. rewrite existsb_exists. split.
  - intros (x & Hin & Hx). apply eqb_eq in Hx. now subst.
  - intros Hin. exists k. split; [exact Hin | apply eqb_refl].
Qed.

Lemma list_mem_not_In k l : list_mem k l = false <-> ~ In k l.
Proof.
  rewrite <- list_mem_In. destruct (list_mem k l); intuition congruence.
Qed.

Lemma dict_get_set_same d k v :
  dict_get (dict_set d k v) k = Some v.
Proof.
  induction d as [|[k' v'] d IH]; cbn [dict_set dict_get].
  - now rewrite eqb_refl.
  - destruct (Str.eqb k' k) eqn:E; cbn [dict_get]; now rewrite E.
Qed.

Lemma dict_get_set_other d k v k' :
  k' <> k -> dict_get (dict_set d k v) k' = dict_get d k'.
Proof.
  intros Hne. induction d as [|[k0 v0] d IH]; cbn [dict_set dict_get].
  - assert (E : Str.eqb k k' = false) by (apply eqb_neq; congruence).
    now rewrite E.
  - destruct (Str.eqb k0 k) eqn:E; cbn [dict_get]; [|now rewrite IH].
    apply eqb_eq in E. subst k0.
    assert (E : Str.eqb k k' = false) by (apply eqb_neq; congruence).
    now rewrite E.
Qed.

Lemma dict_set_keys d k v old :
  dict_get d k = Some old -> keys (dict_set d k v) = keys d.
Proof.
  unfold keys. induction d as [|[k' v'] d IH]; cbn [dict_set dict_get map];
    [discriminate|].
  destruct (Str.eqb k' k); cbn [map fst]; [reflexivity|].
  intros H. now rewrite IH.
Qed.

Lemma dict_set_new d k v :
  dict_get d k = None -> dict_set d k v = d ++ [(k, v)].
Proof.
  induction d as [|[k' v'] d IH]; cbn [dict_set dict_get app];
    [reflexivity|].
  destruct (Str.eqb k' k); [discriminate|]. intros H. now rewrite IH.
Qed.

Lemma dict_get_In d k v : dict_get d k = Some v -> In (k, v) d.
Proof.
  induction d as [|[k' v'] d IH]; cbn [dict_get]; [discriminate|].
  destruct (Str.eqb k' k) eqn:E.
  - intros H; inversion H; subst. apply eqb_eq in E. subst. now left.
  - intros H. right. now apply IH.
Qed.

Lemma dict_get_none d k : dict_get d k = None <-> ~ In k (keys d).
Proof.
  unfold keys. induction d as [|[k' v'] d IH]; cbn [dict_get map In fst].
  - intuition.
  - destruct (Str.eqb k' k) eqn:E.
    + apply eqb_eq in E. split; [discriminate | intros H; elim H; now left].
    + apply eqb_neq in E. rewrite IH. intuition.
Qed.

Lemma grown_refl e : grown e e.
Proof.
  split; [reflexivity|]. exists []. rewrite app_nil_r.
  repeat split; [constructor | intros k []].
Qed.

Lemma grown_trans e1 e2 e3 : grown e1 e2 -> grown e2 e3 -> grown e1 e3.
Proof.
  intros (Hn1 & a1 & H1 & Hd1 & Hf1) (Hn2 & a2 & H2 & Hd2 & Hf2).
  split; [congruence|]. exists (a1 ++ a2).
  split; [now rewrite H2, H1, app_assoc|]. split.
  - apply NoDup_app; [assumption | assumption |].
    intros k Hk1 Hk2. apply (Hf2 k Hk2). rewrite H1, in_app_iff. now right.
  - intros k Hk. apply in_app_iff in Hk. destruct Hk as [Hk|Hk];
      [now apply Hf1|].
    intros Hin. apply (Hf2 k Hk). rewrite H1, in_app_iff. now left.
Qed.

Lemma Forall2_grown_refl d : Forall2 grown d d.
Proof. induction d; constructor; [apply grown_refl | assumption]. Qed.

Lemma Forall2_grown_trans d1 :
  forall d2 d3, Forall2 grown d1 d2 -> Forall2 grown d2 d3 ->
                Forall2 grown d1 d3.
Proof.
  induction d1 as [|e d1 IH]; intros d2 d3 H12 H23;
    inversion H12; subst; inversion H23; subst; constructor.
  - eapply grown_trans; eassumption.
  - eapply IH; eassumption.
Qed.

(** Replacing the keywords of a category by a longer list. *)
Lemma dict_set_grown d k old added :
  dict_get d k = Some old ->
  NoDup added -> (forall x, In x added -> ~ In x old) ->
  Forall2 grown d (dict_set d k (old ++ added)).
Proof.
  intros Hget Hnd Hfresh.
  induction d as [|[k' v'] d IH]; cbn [dict_set dict_get] in *;
    [discriminate|].
  destruct (Str.eqb k' k) eqn:E.
  - inversion Hget; subst. constructor; [|apply Forall2_grown_refl].
    split; [reflexivity|]. now exists added.
  - constructor; [apply grown_refl | now apply IH].
Qed.

Lemma grown_extends d d' : Forall2 grown d d' -> extends d d'.
Proof.
  unfold extends. induction 1 as [|e e' d d' (Hn & a & Ha & _) _ IH];
    constructor; [|exact IH].
  split; [now rewrite Hn|]. rewrite Ha. now apply incl_appl, incl_refl.
Qed.

Lemma grown_keys d d' : Forall2 grown d d' -> keys d' = keys d.
Proof.
  unfold keys. induction 1 as [|e e' d d' (Hn & _) _ IH]; cbn [map];
    [reflexivity|]. now rewrite Hn, IH.
Qed.

(** X15: what [add_keywords_to_category] does to the registry.  With
    an empty text, or one that is in the list of the category as it
    is, it returns [False] and changes nothing.  Otherwise it puts the
    trimmed text at the end of that list, returns [True], and leaves
    the names, their order and every other list as they were; when the
    category is not in the registry the lookup fails ([KeyError]). *)
Theorem add_keywords_to_category_outcome
        (categories : registry) (category keywords : str) :
  match add_keywords_to_category categories category keywords with
  | None => keywords <> [] /\ ~ In category (keys categories)
  | Some (categories', false) =>
      categories' = categories
      /\ (keywords = []
          \/ exists current, dict_get categories category = Some current
                             /\ In keywords current)
  | Some (categories', true) =>
      keywords <> []
      /\ keys categories' = keys categories
      /\ (forall other, other <> category ->
                        dict_get categories' other
                        = dict_get categories other)
      /\ exists current,
          dict_get categories category = Some current
          /\ ~ In keywords current
          /\ dict_get categories' category
             = Some (current ++ [strip keywords])
  end.
Proof.
  unfold add_keywords_to_category.
  destruct keywords as [|ch rest]; [split; [reflexivity | now left]|].
  destruct (dict_get categories category) as [current|] eqn:Eget.
  - destruct (list_mem (ch :: rest) current) eqn:Emem.
    + split; [reflexivity|]. right. exists current.
      split; [reflexivity | now apply list_mem_In].
    + split; [discriminate|]. split; [now apply (@dict_set_keys _ _ _ _ Eget)|].
      split; [intros other Hne; now apply dict_get_set_other|].
      exists current. split; [reflexivity|].
      split; [now apply list_mem_not_In | apply dict_get_set_same].
  - split; [discriminate | now apply dict_get_none].
Qed.

(** X16: calling [add_keywords_to_category] twice with the same text.
    The membership test looks for the text as typed while the trimmed
    text is stored: when trimming changes nothing the second call
    returns [False] and leaves the registry, and when the text has
    blanks around it the second call stores the trimmed keyword a
    second time. *)
Theorem add_keywords_to_category_twice
        (categories categories' : registry) (category keywords : str) :
  add_keywords_to_category categories category keywords
  = Some (categories', true) ->
  (strip keywords = keywords ->
   add_keywords_to_category categories' category keywords
   = Some (categories', false))
  /\ (strip keywords <> keywords ->
      exists current categories'',
        dict_get categories category = Some current
        /\ add_keywords_to_category categories' category keywords
           = Some (categories'', true)
        /\ dict_get categories'' category
           = Some (current ++ [strip keywords; strip keywords])).
Proof.
  unfold add_keywords_to_category.
  destruct keywords as [|ch rest]; [discriminate|].
  destruct (dict_get categories category) as [current|] eqn:Eget;
    [|discriminate].
  destruct (list_mem (ch :: rest) current) eqn:Emem; [discriminate|].
  intros H; inversion H; subst; clear H.
  rewrite dict_get_set_same. apply list_mem_not_In in Emem. split.
  - intros Hs. rewrite Hs.
    destruct (list_mem (ch :: rest) _) eqn:E; [reflexivity|].
    apply list_mem_not_In in E. elim E.
    apply in_app_iff. right. now left.
  - intros Hs. exists current.
    destruct (list_mem (ch :: rest) _) eqn:E.
    + apply list_mem_In, in_app_iff in E.
      destruct E as [Hin|[Heq|[]]]; [now elim Emem | now elim Hs].
    + eexists. split; [reflexivity|]. split; [reflexivity|].
      rewrite dict_get_set_same, <- app_assoc. reflexivity.
Qed.

Lemma add_keywords_to_category_twice_witness :
  exists current categories'',
    dict_get Sample.shops (lit "Food") = Some current
    /\ add_keywords_to_category
         (dict_set Sample.shops (lit "Food") [lit "MARKET"; lit "CAFE"])
         (lit "Food") (lit " CAFE ")
       = Some (categories'', true)
    /\ dict_get categories'' (lit "Food")
       = Some (current ++ [strip (lit " CAFE "); strip (lit " CAFE ")]).
Proof.
  refine (proj2 (@add_keywords_to_category_twice
                   Sample.shops
                   (dict_set Sample.shops (lit "Food")
                             [lit "MARKET"; lit "CAFE"])
                   (lit "Food") (lit " CAFE ") _) _).
  - vm_compute. reflexivity.
  - vm_compute. discriminate.
Defined.

Section RegistryAndCategorizer.

Variable lower : str -> str.

(** X17: the keyword that [process_category_changes] records for a
    description does its job.  Once [add_keywords_to_category] has been
    called with a category other than [Uncategorized] and a non-empty
    description, whether it added the keyword or found it there, every
    row with that description leaves [Uncategorized] at the next
    categorization; the lowercasing is only asked to give the same
    text, up to blanks at the ends, on the description and on its
    trimmed form. *)
Theorem description_becomes_keyword
        (categories categories' : registry) (category description : str)
        (added : bool) (df : list row) :
  description <> [] ->
  category <> UNCATEGORIZED_CATEGORY ->
  strip (lower (strip description)) = strip (lower description) ->
  add_keywords_to_category categories category description
  = Some (categories', added) ->
  Forall described df ->
  exists df',
    categorize_transactions lower categories' df = Ok df'
    /\ Forall (fun r => Concepto r = Some description ->
                        uncategorized r = false) df'.
Proof.
  intros Hd Hname Hlow Hadd Hdf.
  assert (Hhit : exists keywords,
             In (category, keywords) categories'
             /\ entry_hits lower description (category, keywords)).
  { unfold add_keywords_to_category in Hadd.
    destruct description as [|ch rest]; [now elim Hd|].
    destruct (dict_get categories category) as [current|] eqn:Eget;
      [|discriminate].
    destruct (list_mem (ch :: rest) current) eqn:Emem;
      inversion Hadd; subst; clear Hadd.
    - apply list_mem_In in Emem. exists current.
      split; [now apply dict_get_In|].
      split; [exact Hname|]. split.
      + cbn [snd]. intros Hnil. rewrite Hnil in Emem. destruct Emem.
      + exists (ch :: rest), [], []. split; [exact Emem|].
        now rewrite app_nil_r.
    - exists (current ++ [strip (ch :: rest)]).
      split; [apply dict_get_In, dict_get_set_same|].
      split; [exact Hname|]. split.
      + cbn [snd]. intros Hnil. now apply app_eq_nil in Hnil as [_ ?].
      + exists (strip (ch :: rest)), [], [].
        split; [apply in_app_iff; right; now left|].
        cbn [snd app]. now rewrite app_nil_r, Hlow. }
  destruct Hhit as (keywords & Hin & Hhit).
  rewrite categorize_described by exact Hdf.
  eexists. split; [reflexivity|].
  apply Forall_map. eapply Forall_impl; [|exact Hdf].
  intros r _. destruct (Concepto r) as [c|] eqn:Ec; [|congruence].
  cbn [with_category Concepto]. intros Heq. rewrite Ec in Heq.
  inversion Heq; subst c.
  unfold uncategorized. apply eqb_neq. cbn [with_category Category].
  rewrite last_match_uncategorized, Forall_forall.
  intros Hno. exact (Hno _ Hin Hhit).
Qed.

Lemma categorize_loop_new_category categories new_category :
  forall df,
    categorize_loop lower (categories ++ [(new_category, [])]) df
    = categorize_loop lower categories df.
Proof.
  induction categories as [|[category keywords] rest IH]; intros df;
    cbn [app categorize_loop].
  - now rewrite orb_true_r.
  - destruct (Str.eqb category UNCATEGORIZED_CATEGORY
              || match keywords with [] => true | _ => false end);
      [apply IH|].
    destruct (categorize_rows lower category _ df); cbn [bind];
      [apply IH | reflexivity].
Qed.

(** X18: a category added with the "Add Category" button goes to the
    end of the registry with no keyword, when its name is not empty
    and not taken, and the registry stays as it is otherwise; in both
    cases [categorize_transactions] gives every frame the result it
    gave before. *)
Theorem add_category_keeps_categorization
        (categories : registry) (new_category : str) (df : list row) :
  categorize_transactions lower (add_category categories new_category) df
  = categorize_transactions lower categories df
  /\ (add_category categories new_category
      = if match new_category with [] => true | _ => false end
           || list_mem new_category (keys categories)
        then categories
        else categories ++ [(new_category, [])]).
Proof.
  unfold add_category, categorize_transactions.
  destruct new_category as [|ch rest]; [now split|]. cbn [orb].
  destruct (dict_get categories (ch :: rest)) as [v|] eqn:Eget.
  - split; [reflexivity|].
    destruct (list_mem (ch :: rest) (keys categories)) eqn:Em;
      [reflexivity|].
    apply list_mem_not_In, dict_get_none in Em. congruence.
  - rewrite (@dict_set_new _ _ [] Eget). split.
    + apply categorize_loop_new_category.
    + destruct (list_mem (ch :: rest) (keys categories)) eqn:Em;
        [|reflexivity].
      apply list_mem_In in Em. apply dict_get_none in Eget. contradiction.
Qed.

End RegistryAndCategorizer.

Lemma description_becomes_keyword_witness :
  exists df',
    categorize_transactions
      ascii_lower
      (dict_set Sample.shops (lit "Food") [lit "MARKET"; lit "CAFE CENTRAL"])
      [Sample.coffee; Sample.rent] = Ok df'
    /\ Forall (fun r => Concepto r = Some (lit " CAFE CENTRAL ") ->
                        uncategorized r = false) df'.
Proof.
  apply (@description_becomes_keyword
           ascii_lower Sample.shops
           (dict_set Sample.shops (lit "Food")
                     [lit "MARKET"; lit "CAFE CENTRAL"])
           (lit "Food") (lit " CAFE CENTRAL ") true
           [Sample.coffee; Sample.rent]).
  - discriminate.
  - discriminate.
  - vm_compute. reflexivity.
  - vm_compute. reflexivity.
  - repeat constructor; discriminate.
Defined.

Lemma append_new_grown new_keywords :
  forall existing_keywords,
  exists added,
    append_new existing_keywords new_keywords = existing_keywords ++ added
    /\ NoDup added
    /\ (forall k, In k added -> ~ In k existing_keywords /\ In k new_keywords)
    /\ (forall k, In k new_keywords -> In k (existing_keywords ++ added)).
Proof.
  induction new_keywords as [|k rest IH]; intros existing; cbn [append_new].
  - exists []. rewrite app_nil_r. repeat split;
      [constructor | destruct H | destruct H | intros k []].
  - destruct (list_mem k existing) eqn:Em.
    + apply list_mem_In in Em.
      destruct (IH existing) as (added & -> & Hnd & Hfresh & Hall).
      exists added. split; [reflexivity|]. split; [exact Hnd|]. split.
      * intros x Hx. destruct (Hfresh x Hx). split; [assumption | now right].
      * intros x [<-|Hx]; [apply in_app_iff; now left | now apply Hall].
    + apply list_mem_not_In in Em.
      destruct (IH (existing ++ [k])) as (added & -> & Hnd & Hfresh & Hall).
      exists (k :: added). split; [now rewrite <- app_assoc|].
      split; [|split].
      * constructor; [|exact Hnd].
        intros Hin. destruct (Hfresh k Hin) as [Hno _]. apply Hno.
        apply in_app_iff. right. now left.
      * intros x [<-|Hx]; [split; [exact Em | now left]|].
        destruct (Hfresh x Hx) as [Hno Hr]. split; [|now right].
        intros Hin. apply Hno. apply in_app_iff. now left.
      * intros x Hx. rewrite <- app_assoc in Hall. cbn [app] in Hall.
        destruct Hx as [<-|Hx]; [|now apply Hall].
        apply in_app_iff. right. now left.
Qed.

Lemma append_new_In existing_keywords new_keywords k :
  In k (append_new existing_keywords new_keywords)
  <-> In k existing_keywords \/ In k new_keywords.
Proof.
  destruct (append_new_grown new_keywords existing_keywords)
    as (added & -> & _ & Hfresh & Hall).
  rewrite in_app_iff. split.
  - intros [H|H]; [now left | right; now apply Hfresh].
  - intros [H|H]; [now left | apply in_app_iff; now apply Hall].
Qed.

Lemma merge_new_keywords_grown new_keywords_only :
  forall original_categories,
    Forall2 grown original_categories
            (merge_new_keywords original_categories new_keywords_only).
Proof.
  unfold merge_new_keywords.
  induction new_keywords_only as [|[category new_keywords] rest IH];
    intros original; cbn [fold_left fst snd].
  - apply Forall2_grown_refl.
  - eapply Forall2_grown_trans; [|apply IH].
    destruct (dict_get original category) as [existing|] eqn:Eget;
      [|apply Forall2_grown_refl].
    destruct (append_new_grown new_keywords existing)
      as (added & -> & Hnd & Hfresh & _).
    apply dict_set_grown; [exact Eget | exact Hnd|].
    intros x Hx. now apply Hfresh.
Qed.

(** X19: the merge of [categorize_transactions_ai] only appends.  The
    categories it returns have the names of the categories sent, in
    their order; each list is the former list followed by keywords
    that were not in it, each once.  No category is created, removed
    or renamed, and no keyword is removed or moved. *)
Theorem merge_new_keywords_only_appends
        (original_categories new_keywords_only : registry) :
  keys (merge_new_keywords original_categories new_keywords_only)
  = keys original_categories
  /\ Forall2 grown original_categories
             (merge_new_keywords original_categories new_keywords_only).
Proof.
  split; [apply grown_keys|]; apply merge_new_keywords_grown.
Qed.

(** X20: which keywords the merge of [categorize_transactions_ai]
    returns for a category that was sent: the former ones, and the
    ones the answer lists under that name, nothing else.  A name that
    was not sent is still missing afterwards. *)
Theorem merge_new_keywords_members
        (original_categories new_keywords_only : registry) (category : str) :
  match dict_get original_categories category with
  | Some existing_keywords =>
      exists merged,
        dict_get (merge_new_keywords original_categories new_keywords_only)
                 category = Some merged
        /\ forall k,
            In k merged
            <-> In k existing_keywords
                \/ exists new_keywords,
                    In (category, new_keywords) new_keywords_only
                    /\ In k new_keywords
  | None =>
      dict_get (merge_new_keywords original_categories new_keywords_only)
               category = None
  end.
Proof.
  unfold merge_new_keywords. revert original_categories.
  induction new_keywords_only as [|[name new_keywords] rest IH];
    intros original; cbn [fold_left fst snd].
  - destruct (dict_get original category) as [existing|]; [|reflexivity].
    exists existing. split; [reflexivity|]. intros k. split; [now left|].
    intros [H|(? & [] & _)]. exact H.
  - specialize (IH (match dict_get original name with
                    | Some existing_keywords =>
                        dict_set original name
                                 (append_new existing_keywords new_keywords)
                    | None => original
                    end)).
    destruct (str_eq_dec name category) as [->|Hne].
    + destruct (dict_get original category) as [existing|] eqn:Eget.
      * rewrite dict_get_set_same in IH.
        destruct IH as (merged & Hm & Hk). exists merged.
        split; [exact Hm|]. intros k. rewrite Hk, append_new_In. split.
        -- intros [[H|H]|(kws & Hin & H)]; [now left | right | right].
           ++ exists new_keywords. split; [now left | exact H].
           ++ exists kws. split; [now right | exact H].
        -- intros [H|(kws & [Heq|Hin] & H)].
           ++ left. now left.
           ++ inversion Heq; subst. left. now right.
           ++ right. now exists kws.
      * rewrite Eget in IH. exact IH.
    + assert (Hother : dict_get
                         (match dict_get original name with
                          | Some existing_keywords =>
                              dict_set original name
                                       (append_new existing_keywords
                                                   new_keywords)
                          | None => original
                          end) category
                       = dict_get original category).
      { destruct (dict_get original name); [|reflexivity].
        apply dict_get_set_other. congruence. }
      rewrite Hother in IH.
      destruct (dict_get original category) as [existing|]; [|exact IH].
      destruct IH as (merged & Hm & Hk). exists merged.
      split; [exact Hm|]. intros k. rewrite Hk. split.
      * intros [H|(kws & Hin & H)]; [now left|].
        right. exists kws. split; [now right | exact H].
      * intros [H|(kws & [Heq|Hin] & H)]; [now left | | right; now exists kws].
        inversion Heq; subst. now elim Hne.
Qed.

Lemma grown_count d d' :
  Forall2 grown d d' ->
  keyword_count d <= keyword_count d'
  /\ (keyword_count d' = keyword_count d -> d' = d).
Proof.
  unfold keyword_count, list_sum.
  induction 1 as [|[n kws] [n' kws'] d d' (Hn & added & Ha & _) _ [IHle IHeq]];
    cbn [map fold_right fst snd] in *; [split; [lia | reflexivity]|].
  subst n' kws'. rewrite length_app. split; [lia|].
  intros Heq.
  assert (Hadded : List.length added = 0) by lia.
  apply length_zero_iff_nil in Hadded. subst added.
  rewrite app_nil_r in *. rewrite IHeq; [reflexivity | lia].
Qed.

(** X21: the keyword count that
    [ai_categorize_uncategorized_transactions] compares.  The merged
    categories never have fewer keywords than the categories sent, and
    they have more exactly when the merge changed something: the test
    [new_keyword_count > original_keyword_count] is the test that a
    keyword was added. *)
Theorem merge_new_keywords_count
        (original_categories new_keywords_only : registry) :
  keyword_count original_categories
  <= keyword_count (merge_new_keywords original_categories new_keywords_only)
  /\ (keyword_count original_categories
      < keyword_count (merge_new_keywords original_categories
                                          new_keywords_only)
      <-> merge_new_keywords original_categories new_keywords_only
          <> original_categories).
Proof.
  destruct (grown_count (merge_new_keywords_grown new_keywords_only
                                                  original_categories))
    as [Hle Heq].
  split; [exact Hle|]. split.
  - intros Hlt Hsame. rewrite Hsame in Hlt. lia.
  - intros Hne.
    destruct (Nat.eq_dec
                (keyword_count (merge_new_keywords original_categories
                                                   new_keywords_only))
                (keyword_count original_categories)) as [E|E]; [|lia].
    elim Hne. now apply Heq.
Qed.

(** X22: the keywords an answer adds cannot put a row back into
    [Uncategorized].  On a frame whose descriptions are text, the
    categorization with the merged categories leaves [Uncategorized]
    only rows that the categorization with the categories sent left
    there, so [uncategorized_before - uncategorized_after] is the
    number of rows that found a category. *)
Theorem merged_keywords_fewer_uncategorized
        (lower : str -> str)
        (original_categories new_keywords_only : registry) (df : list row) :
  Forall described df ->
  exists df1 df2,
    categorize_transactions lower original_categories df = Ok df1
    /\ categorize_transactions
         lower (merge_new_keywords original_categories new_keywords_only) df
       = Ok df2
    /\ Forall2 (fun r1 r2 => uncategorized r2 = true ->
                             uncategorized r1 = true) df1 df2
    /\ List.length (filter uncategorized df2)
       <= List.length (filter uncategorized df1).
Proof.
  intros Hdf. apply extends_fewer_uncategorized; [exact Hdf|].
  apply grown_extends, merge_new_keywords_grown.
Qed.

Lemma merged_keywords_fewer_uncategorized_witness :
  exists df1 df2,
    categorize_transactions ascii_lower Sample.shops
                            [Sample.supermarket; Sample.rent] = Ok df1
    /\ categorize_transactions
         ascii_lower
         (merge_new_keywords Sample.shops
                             [(lit "Food", [lit "alquiler"; lit "MARKET"]);
                              (lit "Rent", [lit "alquiler"])])
         [Sample.supermarket; Sample.rent] = Ok df2
    /\ Forall2 (fun r1 r2 => uncategorized r2 = true ->
                             uncategorized r1 = true) df1 df2
    /\ List.length (filter uncategorized df2)
       <= List.length (filter uncategorized df1).
Proof.
  apply (@merged_keywords_fewer_uncategorized
           ascii_lower Sample.shops
           [(lit "Food", [lit "alquiler"; lit "MARKET"]);
            (lit "Rent", [lit "alquiler"])]
           [Sample.supermarket; Sample.rent]).
  repeat constructor; discriminate.
Defined.

(* ================================================================== *)
(** * The descriptions sent out for categorization *)
(* ================================================================== *)

Lemma cell_eqb_eq x y : cell_eqb x y = true <-> x = y.
Proof.
  destruct x as [a|], y as [b|]; cbn [cell_eqb];
    try (split; [discriminate | congruence]); [|now split].
  rewrite eqb_eq. split; congruence.
Qed.

Lemma seen_In x seen :
  existsb (cell_eqb x) seen = true <-> In x seen.
Proof.
  rewrite existsb_exists. split.
  - intros (y & Hin & Hy). apply cell_eqb_eq in Hy. now subst.
  - intros Hin. exists x. split; [exact Hin | now apply cell_eqb_eq].
Qed.

Lemma unique_from_In l :
  forall seen x,
    In x (unique_from seen l) <-> In x l /\ ~ In x seen.
Proof.
  induction l as [|y l IH]; intros seen x; cbn [unique_from].
  - cbn. intuition.
  - destruct (existsb (cell_eqb y) seen) eqn:E.
    + apply seen_In in E. rewrite IH. cbn [In]. split.
      * intros [H1 H2]. auto.
      * intros [[->|H1] H2]; [contradiction | auto].
    + assert (Hy : ~ In y seen).
      { intros H. apply seen_In in H. congruence. }
      cbn [In]. rewrite IH. cbn [In]. split.
      * intros [<-|[H1 H2]]; [auto|]. split; [now right|]. intuition.
      * intros [[<-|H1] H2]; [now left|].
        destruct (cell_eqb y x) eqn:Eyx.
        -- apply cell_eqb_eq in Eyx. now left.
        -- right. split; [exact H1|]. intros [->|Hs]; [|contradiction].
           assert (Hxx : cell_eqb x x = true) by now apply cell_eqb_eq.
           congruence.
Qed.

Lemma unique_from_NoDup l : forall seen, NoDup (unique_from seen l).
Proof.
  induction l as [|y l IH]; intros seen; cbn [unique_from]; [constructor|].
  destruct (existsb (cell_eqb y) seen); [apply IH|].
  constructor; [|apply IH].
  rewrite unique_from_In. intros [_ H]. apply H. now left.
Qed.

Lemma firstn_In_list {A : Type} (n : nat) :
  forall (l : list A) x, In x (firstn n l) -> In x l.
Proof.
  induction n as [|n IH]; intros [|y l] x; cbn [firstn];
    [intros [] | intros [] | intros [] |].
  intros [->|H]; [now left | right; now apply IH].
Qed.

Lemma firstn_NoDup {A : Type} (n : nat) :
  forall l : list A, NoDup l -> NoDup (firstn n l).
Proof.
  induction n as [|n IH]; intros [|y l] Hnd; cbn [firstn];
    try constructor; inversion Hnd; subst.
  - intros Hin. apply firstn_In_list in Hin. contradiction.
  - now apply IH.
Qed.

(** X23: what [ai_categorize_uncategorized_transactions] sends out.
    The list has at most twenty entries, no two of them equal, and
    each is the description of a row of the frame that is
    [Uncategorized]; when the uncategorized rows have at most twenty
    distinct descriptions, none is left out. *)
Theorem uncategorized_descriptions_sent (df : list row) :
  List.length (uncategorized_descriptions df) <= 20
  /\ NoDup (uncategorized_descriptions df)
  /\ (forall x, In x (uncategorized_descriptions df) ->
                exists r, In r df
                          /\ Category r = UNCATEGORIZED_CATEGORY
                          /\ Concepto r = x)
  /\ (List.length (unique (map Concepto (filter uncategorized df))) <= 20 ->
      forall r, In r df -> Category r = UNCATEGORIZED_CATEGORY ->
                In (Concepto r) (uncategorized_descriptions df)).
Proof.
  unfold uncategorized_descriptions, unique. split; [|split; [|split]].
  - apply firstn_le_length.
  - apply firstn_NoDup, unique_from_NoDup.
  - intros x Hx. apply firstn_In_list, unique_from_In in Hx.
    destruct Hx as [Hx _]. apply in_map_iff in Hx.
    destruct Hx as (r & <- & Hr). apply filter_In in Hr.
    destruct Hr as [Hr Hu]. exists r. split; [exact Hr|].
    split; [now apply eqb_eq | reflexivity].
  - intros Hlen r Hr Hu. rewrite firstn_all2 by exact Hlen.
    apply unique_from_In. split; [|intros []].
    apply in_map, filter_In. split; [exact Hr | now apply eqb_eq].
Qed.

(* ================================================================== *)
(** * The statistics of the table *)
(* ================================================================== *)

Module StatsFacts.

Import Stats.

Lemma count_category_positive db c :
  0 < count_category db c <-> In c (map category db).
Proof.
  unfold count_category. induction db as [|t db IH]; cbn [filter map In].
  - cbn. split; [lia | intros []].
  - destruct (Str.eqb (category t) c) eqn:E.
    + apply eqb_eq in E. cbn [List.length]. split; [now left | lia].
    + apply eqb_neq in E. rewrite IH. split; [now right|].
      intros [H|H]; [contradiction | exact H].
Qed.

Lemma distinct_In l :
  forall seen c, In c (distinct seen l) <-> In c l /\ ~ In c seen.
Proof.
  induction l as [|y l IH]; intros seen c; cbn [distinct].
  - cbn. intuition.
  - destruct (existsb (Str.eqb y) seen) eqn:E.
    + apply list_mem_In in E. rewrite IH. cbn [In]. split.
      * intros [H1 H2]. auto.
      * intros [[->|H1] H2]; [contradiction | auto].
    + apply list_mem_not_In in E. cbn [In]. rewrite IH. cbn [In]. split.
      * intros [<-|[H1 H2]]; [auto|]. split; [now right|]. intuition.
      * intros [[<-|H1] H2]; [now left|].
        destruct (str_eq_dec y c) as [->|Hne]; [now left|].
        right. split; [exact H1|]. intros [Heq|Hs]; contradiction.
Qed.

Lemma distinct_NoDup l : forall seen, NoDup (distinct seen l).
Proof.
  induction l as [|y l IH]; intros seen; cbn [distinct]; [constructor|].
  destruct (existsb (Str.eqb y) seen); [apply IH|].
  constructor; [|apply IH].
  rewrite distinct_In. intros [_ H]. apply H. now left.
Qed.

Lemma insert_by_count_perm g groups :
  Permutation (g :: groups) (insert_by_count g groups).
Proof.
  induction groups as [|h groups IH]; cbn [insert_by_count]; [reflexivity|].
  destruct (snd h <? snd g)%nat; [reflexivity|].
  rewrite perm_swap. now constructor.
Qed.

Lemma insert_by_count_sorted g groups :
  StronglySorted (fun a b : str * nat => snd b <= snd a) groups ->
  StronglySorted (fun a b : str * nat => snd b <= snd a)
                 (insert_by_count g groups).
Proof.
  induction 1 as [|h groups Hs IH Hh]; cbn [insert_by_count].
  - repeat constructor.
  - destruct (snd h <? snd g)%nat eqn:E.
    + apply Nat.ltb_lt in E. constructor; [now constructor|].
      constructor; [lia|].
      eapply Forall_impl; [|exact Hh]. cbn. intros; lia.
    + apply Nat.ltb_ge in E. constructor; [exact IH|].
      rewrite <- insert_by_count_perm. now constructor.
Qed.

Lemma sorted_groups l :
  Permutation l (fold_right insert_by_count [] l)
  /\ StronglySorted (fun a b : str * nat => snd b <= snd a)
                    (fold_right insert_by_count [] l).
Proof.
  induction l as [|g l [IHp IHs]]; cbn [fold_right].
  - split; constructor.
  - split.
    + rewrite <- insert_by_count_perm. now constructor.
    + now apply insert_by_count_sorted.
Qed.

(** The statistics computed by [stats_of] are an answer of the three
    queries. *)
Lemma stats_of_admissible db : get_database_stats db (stats_of db).
Proof.
  unfold get_database_stats, stats_of, grouped.
  cbn [total_transactions category_counts date_range].
  destruct (sorted_groups (map (fun c => (c, count_category db c))
                               (distinct [] (map category db))))
    as [Hperm Hsorted].
  split; [reflexivity|]. split; [|split; [|split; [exact Hsorted|reflexivity]]].
  - rewrite <- Hperm, map_map. cbn [fst]. rewrite map_id.
    apply distinct_NoDup.
  - intros c n. rewrite <- Hperm, in_map_iff. split.
    + intros (c' & Heq & Hin). inversion Heq; subst.
      split; [reflexivity|]. apply count_category_positive.
      now apply distinct_In in Hin.
    + intros [-> Hpos]. exists c. split; [reflexivity|].
      apply distinct_In. split; [now apply count_category_positive|].
      intros [].
Qed.

Lemma count_category_split db c :
  List.length db
  = count_category db c
    + List.length (filter (fun t => negb (Str.eqb (category t) c)) db).
Proof.
  unfold count_category. induction db as [|t db IH]; cbn [filter List.length];
    [reflexivity|].
  destruct (Str.eqb (category t) c); cbn [negb List.length]; lia.
Qed.

Lemma count_category_others db c c' :
  c' <> c ->
  count_category (filter (fun t => negb (Str.eqb (category t) c)) db) c'
  = count_category db c'.
Proof.
  intros Hne. unfold count_category.
  induction db as [|t db IH]; cbn [filter]; [reflexivity|].
  destruct (Str.eqb (category t) c) eqn:E; cbn [negb filter].
  - apply eqb_eq in E.
    assert (E' : Str.eqb (category t) c' = false)
      by (apply eqb_neq; congruence).
    now rewrite E'.
  - destruct (Str.eqb (category t) c'); cbn [List.length]; now rewrite IH.
Qed.

Lemma count_category_removed db c :
  count_category (filter (fun t => negb (Str.eqb (category t) c)) db) c = 0.
Proof.
  unfold count_category. induction db as [|t db IH]; cbn [filter];
    [reflexivity|].
  destruct (Str.eqb (category t) c) eqn:E; cbn [negb filter]; [exact IH|].
  now rewrite E.
Qed.

(** Group sizes that list every category of the table once add up to
    the size of the table. *)
Lemma group_sizes_sum counts :
  forall db,
    NoDup (map fst counts) ->
    (forall c n, In (c, n) counts <-> n = count_category db c /\ 0 < n) ->
    list_sum (map snd counts) = List.length db.
Proof.
  induction counts as [|[c n] counts IH]; intros db Hnd Hin.
  - destruct db as [|t db]; [reflexivity|]. exfalso.
    apply (proj2 (Hin (category t) (count_category (t :: db) (category t)))).
    split; [reflexivity|]. apply count_category_positive. now left.
  - cbn [map fst snd] in *. unfold list_sum. cbn [fold_right].
    fold (list_sum (map snd counts)).
    inversion Hnd as [|? ? Hc Hnd']; subst.
    destruct (proj1 (Hin c n) (or_introl eq_refl)) as [Hn _].
    rewrite (count_category_split db c), <- Hn. f_equal.
    apply IH; [exact Hnd'|]. intros c' n'. split.
    + intros Hin'.
      assert (Hne : c' <> c).
      { intros ->. apply Hc. apply in_map_iff. now exists (c, n'). }
      rewrite (count_category_others db Hne).
      apply Hin. now right.
    + intros [Hn' Hpos].
      assert (Hne : c' <> c).
      { intros ->. rewrite count_category_removed in Hn'. lia. }
      rewrite (count_category_others db Hne) in Hn'.
      destruct (proj2 (Hin c' n') (conj Hn' Hpos)) as [Heq|Hr]; [|exact Hr].
      inversion Heq; subst. now elim Hne.
Qed.

Lemma text_min_bound a b :
  text_ge a (text_min a b) /\ text_ge b (text_min a b)
  /\ (text_min a b = a \/ text_min a b = b).
Proof.
  unfold text_min, text_ge.
  destruct (text_compare b a) eqn:E; rewrite ?text_compare_refl;
    repeat split; auto; try congruence.
  rewrite (text_compare_antisym b a), E. discriminate.
Qed.

Lemma text_max_bound a b :
  text_ge (text_max a b) a /\ text_ge (text_max a b) b
  /\ (text_max a b = a \/ text_max a b = b).
Proof.
  unfold text_max, text_ge.
  destruct (text_compare b a) eqn:E; rewrite ?text_compare_refl;
    repeat split; auto; try congruence;
    rewrite (text_compare_antisym b a), E; discriminate.
Qed.

Lemma fold_text_min l :
  forall a,
    In (fold_left text_min l a) (a :: l)
    /\ forall x, In x (a :: l) -> text_ge x (fold_left text_min l a).
Proof.
  induction l as [|b l IH]; intros a; cbn [fold_left].
  - split; [now left|]. intros x [<-|[]]. unfold text_ge.
    rewrite text_compare_refl. discriminate.
  - destruct (IH (text_min a b)) as [Hin Hle].
    destruct (text_min_bound a b) as (Ha & Hb & Hcase). split.
    + destruct Hin as [Hin|Hin]; [|right; now right].
      rewrite <- Hin. destruct Hcase as [->| ->]; [now left | right; now left].
    + intros x [<-|[<-|Hx]].
      * eapply text_ge_trans; [exact Ha | apply Hle; now left].
      * eapply text_ge_trans; [exact Hb | apply Hle; now left].
      * apply Hle. now right.
Qed.

Lemma fold_text_max l :
  forall a,
    In (fold_left text_max l a) (a :: l)
    /\ forall x, In x (a :: l) -> text_ge (fold_left text_max l a) x.
Proof.
  induction l as [|b l IH]; intros a; cbn [fold_left].
  - split; [now left|]. intros x [<-|[]]. unfold text_ge.
    rewrite text_compare_refl. discriminate.
  - destruct (IH (text_max a b)) as [Hin Hge].
    destruct (text_max_bound a b) as (Ha & Hb & Hcase). split.
    + destruct Hin as [Hin|Hin]; [|right; now right].
      rewrite <- Hin. destruct Hcase as [->| ->]; [now left | right; now left].
    + intros x [<-|[<-|Hx]].
      * eapply text_ge_trans; [apply Hge; now left | exact Ha].
      * eapply text_ge_trans; [apply Hge; now left | exact Hb].
      * apply Hge. now right.
Qed.

End StatsFacts.

(** X24: the figures of [get_database_stats] agree with one another.
    In every answer the sizes of the category groups add up to
    [total_transactions], which is the number of rows, and every
    category of a row has its group.  On an empty table the date range
    is a pair of NULLs; otherwise it is a pair of stored dates such
    that the date of every row lies between them, in the order of
    TEXT. *)
Theorem get_database_stats_consistent
        (db : table) (stats : Stats.database_stats) :
  Stats.get_database_stats db stats ->
  list_sum (map snd (Stats.category_counts stats))
  = Stats.total_transactions stats
  /\ Stats.total_transactions stats = List.length db
  /\ (forall t, In t db ->
                In (category t) (map fst (Stats.category_counts stats)))
  /\ match Stats.date_range stats with
     | (None, None) => db = []
     | (Some first, Some last) =>
         In first (map fecha_valor db) /\ In last (map fecha_valor db)
         /\ forall t, In t db ->
                      text_ge (fecha_valor t) first
                      /\ text_ge last (fecha_valor t)
     | _ => False
     end.
Proof.
  intros (Htotal & Hnd & Hin & _ & Hrange).
  split; [|split; [exact Htotal|split]].
  - rewrite Htotal. now apply StatsFacts.group_sizes_sum.
  - intros t Ht. apply in_map_iff.
    exists (category t, Stats.count_category db (category t)).
    split; [reflexivity|]. apply Hin. split; [reflexivity|].
    apply StatsFacts.count_category_positive. now apply in_map.
  - rewrite Hrange. destruct db as [|t0 db]; [reflexivity|].
    cbn [map Stats.min_text Stats.max_text].
    destruct (StatsFacts.fold_text_min (map fecha_valor db) (fecha_valor t0))
      as [Hmin_in Hmin].
    destruct (StatsFacts.fold_text_max (map fecha_valor db) (fecha_valor t0))
      as [Hmax_in Hmax].
    split; [exact Hmin_in|]. split; [exact Hmax_in|].
    intros t Ht.
    assert (Hf : In (fecha_valor t) (fecha_valor t0 :: map fecha_valor db)).
    { change (In (fecha_valor t) (map fecha_valor (t0 :: db))).
      now apply in_map. }
    split; [now apply Hmin | now apply Hmax].
Qed.

Lemma get_database_stats_consistent_witness :
  list_sum (map snd (Stats.category_counts
                       (Stats.stats_of [Sample.stored_coffee;
                                        Sample.stored_rent;
                                        Sample.stored_garage])))
  = 3.
Proof.
  refine (proj1 (@get_database_stats_consistent
                   [Sample.stored_coffee; Sample.stored_rent;
                    Sample.stored_garage]
                   (Stats.stats_of [Sample.stored_coffee; Sample.stored_rent;
                                    Sample.stored_garage]) _)).
  apply StatsFacts.stats_of_admissible.
Defined.

(* ================================================================== *)
(** * The table of categories *)
(* ================================================================== *)

Section SyncFacts.

Import CategoryTable.

Variable dumps : list str -> str.

Lemma filter_not_listed name (others : list str) (l : list category_row) :
  filter (fun r => negb (list_mem (category_name r) others))
         (filter (fun r => negb (Str.eqb (category_name r) name)) l)
  = filter (fun r => negb (list_mem (category_name r) (name :: others))) l.
Proof.
  induction l as [|r l IH]; cbn [filter]; [reflexivity|].
  unfold list_mem at 2. cbn [existsb].
  fold (list_mem (category_name r) others).
  destruct (Str.eqb (category_name r) name); cbn [negb orb filter];
    [exact IH|].
  destruct (list_mem (category_name r) others); cbn [negb];
    now rewrite IH.
Qed.

Lemma sync_loop_rows items :
  forall clock i t,
    NoDup (keys items) ->
    exists written,
      rows (sync_loop dumps clock i t items)
      = filter (fun r => negb (list_mem (category_name r) (keys items)))
               (rows t) ++ written
      /\ Forall2 (fun entry r =>
                    category_name r = fst entry
                    /\ keywords r = dumps (snd entry)
                    /\ created_date r = last_modified r
                    /\ (sequence t < id r)%Z) items written
      /\ (sequence t <= sequence (sync_loop dumps clock i t items))%Z.
Proof.
  induction items as [|[name kws] rest IH]; intros clock i t Hnd;
    cbn [sync_loop keys map fst].
  - exists []. rewrite app_nil_r. split; [|split; [constructor | lia]].
    induction (rows t) as [|r l IHl]; [reflexivity|].
    change (r :: l
            = r :: filter (fun r0 => negb (list_mem (category_name r0) []))
                          l).
    f_equal. exact IHl.
  - inversion Hnd as [|? ? Hname Hnd']; subst.
    destruct (IH clock (S i)
                 (insert_or_replace (clock i) t name (dumps kws)) Hnd')
      as (written & Hrows & Hwritten & Hseq).
    cbn [insert_or_replace rows sequence] in Hrows, Hwritten, Hseq.
    eexists (_ :: written). split; [|split].
    + rewrite Hrows, filter_app, filter_not_listed. cbn [filter].
      cbn [category_name].
      assert (E : list_mem name (keys rest) = false)
        by now apply list_mem_not_In.
      rewrite E. cbn [negb].
      rewrite <- app_assoc. reflexivity.
    + constructor.
      * cbn [category_name keywords created_date last_modified id fst snd].
        repeat split; lia.
      * eapply Forall2_impl; [|exact Hwritten].
        intros entry r (H1 & H2 & H3 & H4). repeat split; try assumption.
        lia.
    + lia.
Qed.

(** X25: what [sync_categories] leaves in the table of categories.
    The rows of names that are not in the registry stay as they are,
    so a category dropped from the registry is never dropped from the
    table; behind them comes one row for every entry of the registry,
    in its order, with the serialized keywords, a rowid above all
    those given before, and a creation time equal to the time of the
    write: each sync replaces the rows of the registry, it does not
    update them. *)
Theorem sync_categories_rewrites
        (clock : nat -> Z) (t : categories_table) (categories_dict : registry) :
  NoDup (keys categories_dict) ->
  exists written,
    rows (sync_categories dumps clock t categories_dict)
    = filter (fun r => negb (list_mem (category_name r)
                                      (keys categories_dict)))
             (rows t) ++ written
    /\ Forall2 (fun entry r =>
                  category_name r = fst entry
                  /\ keywords r = dumps (snd entry)
                  /\ created_date r = last_modified r
                  /\ (sequence t < id r)%Z) categories_dict written.
Proof.
  intros Hnd. unfold sync_categories.
  destruct (@sync_loop_rows categories_dict clock 0 t Hnd)
    as (written & H1 & H2 & _).
  now exists written.
Qed.

End SyncFacts.

Lemma sync_categories_rewrites_witness :
  exists written,
    CategoryTable.rows
      (CategoryTable.sync_categories Registry.join_keywords Sample.noon
                                     Registry.earlier_table Sample.shops)
    = filter (fun r => negb (list_mem (CategoryTable.category_name r)
                                      (keys Sample.shops)))
             (CategoryTable.rows Registry.earlier_table) ++ written
    /\ Forall2 (fun entry r =>
                  CategoryTable.category_name r = fst entry
                  /\ CategoryTable.keywords r
                     = Registry.join_keywords (snd entry)
                  /\ CategoryTable.created_date r
                     = CategoryTable.last_modified r
                  /\ (CategoryTable.sequence Registry.earlier_table
                      < CategoryTable.id r)%Z) Sample.shops written.
Proof.
  apply (@sync_categories_rewrites
           Registry.join_keywords Sample.noon Registry.earlier_table
           Sample.shops).
  repeat constructor; cbn; intuition discriminate.
Defined.

(* ================================================================== *)
(** * When the content hash cannot be computed *)
(* ================================================================== *)

Lemma encode_char_none c : Utf8.encode_char c = None <-> unencodable c.
Proof.
  unfold Utf8.encode_char, unencodable.
  destruct (N.ltb_spec c 128); [split; [discriminate | lia]|].
  destruct (N.ltb_spec c 2048); [split; [discriminate | lia]|].
  destruct (N.ltb_spec c 65536).
  - destruct (N.leb_spec 55296 c), (N.leb_spec c 57343); cbn [andb];
      split; try discriminate; try lia; auto.
  - destruct (N.ltb_spec c 1114112); [split; [discriminate | lia]|].
    split; [lia | reflexivity].
Qed.

Lemma encode_none s :
  Utf8.encode s = None <-> Exists unencodable s.
Proof.
  induction s as [|c s IH]; cbn [Utf8.encode].
  - split; [discriminate | intros H; inversion H].
  - rewrite Exists_cons, <- IH, <- encode_char_none.
    destruct (Utf8.encode_char c), (Utf8.encode s); split;
      try discriminate; auto; intros [H|H]; discriminate H.
Qed.

Lemma digits_encodable s : digits s -> Forall (fun c => ~ unencodable c) s.
Proof.
  unfold digits. apply Forall_impl. intros c Hc.
  apply isdigit_range in Hc. unfold unencodable. lia.
Qed.

Lemma format_2f_encodable x : Forall (fun c => ~ unencodable c) (format_2f x).
Proof.
  assert (Hsign : forall s, Forall (fun c => ~ unencodable c)
                                   (sign_prefix s)).
  { intros [|]; repeat constructor. unfold unencodable, minus. lia. }
  assert (Hlit : forall s, Forall (fun c => (c < 128)%N) s ->
                           Forall (fun c => ~ unencodable c) s).
  { intros s. apply Forall_impl. unfold unencodable. intros; lia. }
  destruct x as [s|s| |s m e]; cbn [format_2f].
  - apply Forall_app. split; [apply Hsign|].
    apply Hlit. repeat constructor.
  - apply Forall_app. split; [apply Hsign|].
    apply Hlit. repeat constructor.
  - apply Hlit. repeat constructor.
  - apply Forall_app. split; [apply Hsign|].
    unfold fixed2, zfill. repeat (apply Forall_app; split).
    + apply digits_encodable, uint_codes_digits.
    + repeat constructor. unfold unencodable, dot. lia.
    + apply Forall_forall. intros c Hc. apply repeat_spec in Hc. subst.
      unfold unencodable. lia.
    + apply digits_encodable, uint_codes_digits.
Qed.

(** X26: when [generate_transaction_hash] fails.  The only exception it
    raises on a date text, a description and an amount is
    [UnicodeEncodeError], and it raises it exactly when the date text
    or the trimmed description holds a code point that UTF-8 cannot
    carry (a lone surrogate); the amount never makes it fail, not even
    when it is not a number or infinite. *)
Theorem generate_transaction_hash_raises
        (fecha_valor concepto : str) (importe : float) :
  match generate_transaction_hash fecha_valor concepto importe with
  | Ok h => Forall (fun c => ~ unencodable c) (fecha_valor ++ strip concepto)
  | Raise e =>
      e = UnicodeEncodeError
      /\ Exists unencodable (fecha_valor ++ strip concepto)
  end.
Proof.
  unfold generate_transaction_hash, sha256_hex, normalized_data.
  destruct (Utf8.encode _) as [bytes|] eqn:E.
  - apply Forall_forall. intros c Hc Hbad.
    assert (Hex : Exists unencodable
                         (fecha_valor ++ [pipe] ++ strip concepto ++ [pipe]
                                      ++ format_2f (Float.abs importe))).
    { apply Exists_exists. exists c. split; [|exact Hbad].
      rewrite !in_app_iff in *. tauto. }
    apply encode_none in Hex. congruence.
  - split; [reflexivity|]. apply encode_none in E.
    apply Exists_exists in E. destruct E as (c & Hc & Hbad).
    apply Exists_exists. exists c. split; [|exact Hbad].
    rewrite !in_app_iff in *. cbn [In] in Hc.
    destruct Hc as [H|[[H|[]]|[H|[[H|[]]|H]]]]; auto.
    + subst c. unfold unencodable, pipe in Hbad. lia.
    + subst c. unfold unencodable, pipe in Hbad. lia.
    + exfalso. pose proof (format_2f_encodable (Float.abs importe)) as Hf.
      rewrite Forall_forall in Hf. exact (Hf c H Hbad).
Qed.

(* ================================================================== *)
(** * The statistics after an upload *)
(* ================================================================== *)

Lemma count_category_app db added c :
  Stats.count_category (db ++ added) c
  = Stats.count_category db c + Stats.count_category added c.
Proof.
  unfold Stats.count_category. now rewrite filter_app, length_app.
Qed.

(** X27: the statistics follow the uploads.  When [insert_transactions]
    has returned [(n, d)], the [total_transactions] of
    [get_database_stats] is [n] larger than before, the sizes of the
    category groups still add up to it, and no group is smaller than it
    was. *)
Theorem stats_after_insert
        (clock : nat -> Z) (seq : Z) (db db' : table) (df : list row)
        (n d : nat) (before after : Stats.database_stats) :
  insert_transactions clock seq db df = (db', Ok (n, d)) ->
  Stats.get_database_stats db before ->
  Stats.get_database_stats db' after ->
  Stats.total_transactions after = Stats.total_transactions before + n
  /\ list_sum (map snd (Stats.category_counts after))
     = list_sum (map snd (Stats.category_counts before)) + n
  /\ forall c k, In (c, k) (Stats.category_counts before) ->
                 exists k', In (c, k') (Stats.category_counts after)
                            /\ k <= k'.
Proof.
  unfold insert_transactions.
  destruct (insert_loop clock 0 seq db 0 0 df) as [[[db1 seq1] [n1 d1]]|e]
    eqn:E; [|discriminate].
  intros H; inversion H; subst; clear H.
  destruct (insert_loop_invariant _ _ _ _ _ _ _ E) as (added & -> & Hn & _).
  cbn [Nat.add] in Hn. subst n.
  intros (Ht & Hnd & Hin & _) (Ht' & Hnd' & Hin' & _).
  rewrite (@StatsFacts.group_sizes_sum _ _ Hnd Hin),
          (@StatsFacts.group_sizes_sum _ _ Hnd' Hin'), Ht, Ht', length_app.
  split; [reflexivity|]. split; [reflexivity|].
  intros c k Hk. apply Hin in Hk. destruct Hk as [-> Hpos].
  exists (Stats.count_category (db ++ added) c).
  rewrite Hin', count_category_app. repeat split; lia.
Qed.

Lemma stats_after_insert_witness :
  Stats.total_transactions
    (Stats.stats_of
       (fst (insert_transactions Sample.noon 1 [Sample.stored_garage]
                                 [Sample.coffee; Sample.rent])))
  = Stats.total_transactions (Stats.stats_of [Sample.stored_garage]) + 2.
Proof.
  refine (proj1 (@stats_after_insert
                   Sample.noon 1%Z [Sample.stored_garage]
                   (fst (insert_transactions Sample.noon 1
                                             [Sample.stored_garage]
                                             [Sample.coffee; Sample.rent]))
                   [Sample.coffee; Sample.rent] 2 0
                   (Stats.stats_of [Sample.stored_garage])
                   (Stats.stats_of
                      (fst (insert_transactions
                              Sample.noon 1 [Sample.stored_garage]
                              [Sample.coffee; Sample.rent])))
                   _ _ _)).
  - vm_compute. reflexivity.
  - apply StatsFacts.stats_of_admissible.
  - apply StatsFacts.stats_of_admissible.
Defined.

(** X28: the date range of [get_database_stats] in calendar terms.  On
    a table that is not empty the two ends are the dates of two stored
    rows, and wherever the date texts are ISO texts of valid dates the
    first is not later, and the second not earlier, than the date of
    any row: the minimum and maximum taken on TEXT are the earliest and
    the latest day. *)
Theorem stats_date_range_calendar
        (db : table) (stats : Stats.database_stats) (t : transaction) :
  Stats.get_database_stats db stats ->
  In t db ->
  exists earliest latest,
    In earliest db /\ In latest db
    /\ Stats.date_range stats
       = (Some (fecha_valor earliest), Some (fecha_valor latest))
    /\ forall u, In u db -> not_earlier u earliest /\ not_earlier latest u.
Proof.
  intros (_ & _ & _ & _ & Hrange) Ht.
  destruct db as [|t0 db]; [destruct Ht|].
  cbn [map Stats.min_text Stats.max_text] in Hrange.
  destruct (StatsFacts.fold_text_min (map fecha_valor db) (fecha_valor t0))
    as [Hmin_in Hmin].
  destruct (StatsFacts.fold_text_max (map fecha_valor db) (fecha_valor t0))
    as [Hmax_in Hmax].
  change (fecha_valor t0 :: map fecha_valor db)
    with (map fecha_valor (t0 :: db)) in *.
  apply in_map_iff in Hmin_in. destruct Hmin_in as (earliest & He & Hein).
  apply in_map_iff in Hmax_in. destruct Hmax_in as (latest & Hl & Hlin).
  exists earliest, latest. split; [exact Hein|]. split; [exact Hlin|].
  split; [now rewrite Hrange, He, Hl|].
  intros u Hu. split; apply text_ge_not_earlier.
  - rewrite He. apply Hmin. now apply in_map.
  - rewrite Hl. apply Hmax. now apply in_map.
Qed.

Lemma stats_date_range_calendar_witness :
  exists earliest latest,
    In earliest [Sample.stored_coffee; Sample.stored_rent]
    /\ In latest [Sample.stored_coffee; Sample.stored_rent]
    /\ Stats.date_range
         (Stats.stats_of [Sample.stored_coffee; Sample.stored_rent])
       = (Some (fecha_valor earliest), Some (fecha_valor latest))
    /\ forall u, In u [Sample.stored_coffee; Sample.stored_rent] ->
                 not_earlier u earliest /\ not_earlier latest u.
Proof.
  apply (@stats_date_range_calendar
           [Sample.stored_coffee; Sample.stored_rent]
           (Stats.stats_of [Sample.stored_coffee; Sample.stored_rent])
           Sample.stored_coffee).
  - apply StatsFacts.stats_of_admissible.
  - now left.
Defined.
